(** * BusTub storage core: copy-on-write trie, LRU-K replacer, buffer pool manager

    A shallow embedding of [src/primer/trie.cpp], [src/buffer/lru_k_replacer.cpp]
    and [src/buffer/buffer_pool_manager.cpp], followed by the properties of the
    specification that were checked against it.

    Conventions of the embedding.
    - A [size_t] is a [Z] in [0, 2^64); every arithmetic step that can leave
      the range is reduced modulo [2^64] where the source does it.
    - [std::map] and [std::unordered_map] are [gmap]s.  Where the source
      iterates over an [std::unordered_map], whose order of traversal the
      language leaves open, the traversal order is an explicit argument.
    - A call either returns, throws, or has no defined result (a null
      dereference, a second lock of a [std::mutex] by its owner, ...):
      see [outcome]. *)

From Stdlib Require Import ZArith Ascii String.
From stdpp Require Import gmap strings list fin_maps.

Local Open Scope Z_scope.

(** ** Outcomes of a call *)

(** The one exception the sources throw: [std::out_of_range]. *)
Inductive exn : Type :=
  | out_of_range (what : string).

(** Executions the C++ standard gives no result to. *)
Inductive fault : Type :=
  | NullDereference      (* [p->m] on a null [shared_ptr] *)
  | MutexRelock          (* [std::mutex::lock] by the thread that owns it *)
  | OutOfBounds          (* [pages_[i]] outside the array *)
  | EmptyContainer.      (* [front()]/[back()] of an empty [std::list] *)

Inductive outcome (A : Type) : Type :=
  | Ret (a : A)
  | Throw (e : exn)
  | Fault (f : fault).
Arguments Ret {A} a.
Arguments Throw {A} e.
Arguments Fault {A} f.

#[global] Instance outcome_bind : MBind outcome := fun A B k m =>
  match m with
  | Ret a => k a
  | Throw e => Throw e
  | Fault f => Fault f
  end.

Definition returns {A} (m : outcome A) : bool :=
  match m with Ret _ => true | _ => false end.

(** [size_t] arithmetic. *)
Definition SIZE_MAX : Z := 2 ^ 64 - 1.
Definition to_size_t (z : Z) : Z := z mod 2 ^ 64.

(** Modelled from the spec: [INVALID_PAGE_ID] is declared in
    [common/config.h], which is not among the sources; it is a reserved id
    that the page allocator never returns, taken here with the value -1 it
    has in BusTub, which the counter of the allocator, starting at 0, does
    not reach.  The replacer
    only uses it as the initial value of a local that is overwritten before
    it is read; the buffer pool compares page ids with it. *)
Definition INVALID_PAGE_ID : Z := -1.

(** ** The copy-on-write trie ([primer/trie.cpp]) *)

Module Trie.

(** The types [Put] and [Get] are instantiated at, at the end of the
    source file.  [Integer] is [std::unique_ptr<uint32_t>].  [MoveBlocked],
    whose declaration is in [primer/trie.h], is left out. *)
Inductive ValType : Type :=
  | uint32_t | uint64_t | std_string | Integer.

#[global] Instance ValType_eq_dec : EqDecision ValType.
Proof. solve_decision. Defined.

Definition payload (T : ValType) : Type :=
  match T with
  | uint32_t => Z
  | uint64_t => Z
  | std_string => string
  | Integer => option Z
  end.

(** A type-erased value: what the [std::shared_ptr<T> value_] of a
    [TrieNodeWithValue<T>] points to, together with its [T]. *)
Inductive Value : Type :=
  | VUInt32 (x : Z)
  | VUInt64 (x : Z)
  | VString (s : string)
  | VInteger (p : option Z).

Definition type_of (v : Value) : ValType :=
  match v with
  | VUInt32 _ => uint32_t
  | VUInt64 _ => uint64_t
  | VString _ => std_string
  | VInteger _ => Integer
  end.

(** [std::make_shared<T>(std::move(value))]. *)
Definition make_shared (T : ValType) : payload T -> Value :=
  match T with
  | uint32_t => VUInt32
  | uint64_t => VUInt64
  | std_string => VString
  | Integer => VInteger
  end.

(** [dynamic_cast<const TrieNodeWithValue<T> *>] followed by [value_.get()]:
    succeeds exactly on a value stored at type [T]. *)
Definition value_as (T : ValType) (v : Value) : option (payload T) :=
  match T return option (payload T) with
  | uint32_t => match v with VUInt32 x => Some x | _ => None end
  | uint64_t => match v with VUInt64 x => Some x | _ => None end
  | std_string => match v with VString s => Some s | _ => None end
  | Integer => match v with VInteger p => Some p | _ => None end
  end.

(** A [TrieNode] ([value = None], [is_value_node_ = false]) or a
    [TrieNodeWithValue<T>] ([value = Some v] with [type_of v = T]). *)
#[warnings="-register-all"]
Inductive TrieNode : Type :=
  | Node (children : gmap ascii TrieNode) (value : option Value).

Definition children_ (n : TrieNode) : gmap ascii TrieNode :=
  match n with Node c _ => c end.
Definition value_ (n : TrieNode) : option Value :=
  match n with Node _ v => v end.
Definition is_value_node_ (n : TrieNode) : bool :=
  match value_ n with Some _ => true | None => false end.

(** [children_.empty()]. *)
Definition empty (m : gmap ascii TrieNode) : bool := bool_decide (m = ∅).

(** Modelled from the spec: [TrieNode::Clone] and its override in
    [TrieNodeWithValue<T>] are declared in [primer/trie.h], which is not
    among the sources; a clone is a fresh node with the same children and,
    for a value node, the same value. *)
Definition Clone (n : TrieNode) : TrieNode := Node (children_ n) (value_ n).

(** A [Trie] owns a possibly null root. *)
Record t : Type := mk { root_ : option TrieNode }.

(** The loop of [Trie::Get]: [None] is the null pointer. *)
Fixpoint walk (node : option TrieNode) (key : string) : option TrieNode :=
  match key with
  | EmptyString => node
  | String ch rest =>
      match node with
      | None => None
      | Some n =>
          match children_ n !! ch with
          | None => None
          | Some child => walk (Some child) rest
          end
      end
  end.

Definition Get (T : ValType) (trie : t) (key : string) : option (payload T) :=
  match walk (root_ trie) key with
  | Some (Node _ (Some v)) => value_as T v
  | _ => None
  end.

(** [PutCycle(new_root, key, value)] with [key = String c rest]; the
    result is [new_root] after the call.  [key] is never empty: [Put]
    calls it on a non-empty key, and the recursive calls are on
    [key.substr(1)] of a key of size above one. *)
Fixpoint PutCycle (new_root : TrieNode) (c : ascii) (rest : string)
    (value : Value) : TrieNode :=
  match children_ new_root !! c with
  | Some child =>
      match rest with
      | String c' rest' =>
          let ptr := PutCycle (Clone child) c' rest' value in
          Node (<[c := ptr]> (children_ new_root)) (value_ new_root)
      | EmptyString =>
          Node (<[c := Node (children_ child) (Some value)]> (children_ new_root))
               (value_ new_root)
      end
  | None =>
      match rest with
      | EmptyString =>
          Node (<[c := Node ∅ (Some value)]> (children_ new_root)) (value_ new_root)
      | String c' rest' =>
          let ptr := PutCycle (Node ∅ None) c' rest' value in
          Node (<[c := ptr]> (children_ new_root)) (value_ new_root)
      end
  end.

(** [Trie::Put].  On the empty key the source reads [root_->children_]
    without testing [root_]. *)
Definition Put (T : ValType) (trie : t) (key : string) (value : payload T)
    : outcome t :=
  match key with
  | EmptyString =>
      let val_p := make_shared T value in
      match root_ trie with
      | None => Fault NullDereference
      | Some root =>
          if empty (children_ root)
          then Ret (mk (Some (Node ∅ (Some val_p))))
          else Ret (mk (Some (Node (children_ root) (Some val_p))))
      end
  | String c rest =>
      let new_root :=
        match root_ trie with
        | None => Node ∅ None
        | Some root => Clone root
        end in
      Ret (mk (Some (PutCycle new_root c rest (make_shared T value))))
  end.

(** [RemoveCycle(new_rootty, key)] with [key = String c rest]: the flag
    returned and [new_rootty] after the call. *)
Fixpoint RemoveCycle (new_rootty : TrieNode) (c : ascii) (rest : string)
    : bool * TrieNode :=
  match children_ new_rootty !! c with
  | None => (false, new_rootty)
  | Some child =>
      match rest with
      | EmptyString =>
          if negb (is_value_node_ child) then (false, new_rootty)
          else if empty (children_ child)
          then (true, Node (delete c (children_ new_rootty)) (value_ new_rootty))
          else (true, Node (<[c := Node (children_ child) None]> (children_ new_rootty))
                           (value_ new_rootty))
      | String c' rest' =>
          let '(flag, ptr) := RemoveCycle (Clone child) c' rest' in
          if negb flag then (false, new_rootty)
          else if empty (children_ ptr) && negb (is_value_node_ ptr)
          then (true, Node (delete c (children_ new_rootty)) (value_ new_rootty))
          else (true, Node (<[c := ptr]> (children_ new_rootty)) (value_ new_rootty))
      end
  end.

(** [Trie::Remove]. *)
Definition Remove (trie : t) (key : string) : t :=
  match root_ trie with
  | None => trie
  | Some root =>
      match key with
      | EmptyString =>
          if is_value_node_ root then
            if empty (children_ root) then mk None
            else mk (Some (Node (children_ root) None))
          else trie
      | String c rest =>
          let '(flag, new_root) := RemoveCycle (Clone root) c rest in
          if negb flag then trie
          else if empty (children_ new_root) && negb (is_value_node_ new_root)
          then mk None
          else mk (Some new_root)
      end
  end.

(** The key-value set of a trie, as a lookup: the value stored at the node
    a key leads to, whatever its type. *)
Definition value_at (node : option TrieNode) (key : string) : option Value :=
  match walk node key with
  | Some n => value_ n
  | None => None
  end.

Definition lookup (trie : t) (key : string) : option Value :=
  value_at (root_ trie) key.

(** Two tries hold the same key-value set. *)
Definition same_kv (t1 t2 : t) : Prop :=
  forall key, lookup t1 key = lookup t2 key.

End Trie.

(** ** The LRU-K replacer ([buffer/lru_k_replacer.cpp]) *)

Module LRUKReplacer.

(** Modelled from the spec: [LRUKNode] is declared in
    [buffer/lru_k_replacer.h], which is not among the sources.  The source
    uses its [history_] (a [std::list<size_t>], oldest access at the front)
    and its [is_evictable_]; a node created on first use has an empty
    history and is not evictable. *)
Record LRUKNode : Type := mkNode { history_ : list Z; is_evictable_ : bool }.

Definition LRUKNode_new : LRUKNode := mkNode [] false.

Record state : Type := mk {
  node_store_ : gmap Z LRUKNode;
  current_timestamp_ : Z;
  curr_size_ : Z;
  replacer_size_ : Z;
  k_ : Z
}.

(** The constructor sets [replacer_size_] and [k_]; the store starts
    empty, the clock and the size at zero. *)
Definition new (num_frames k : Z) : state := mk ∅ 0 0 num_frames k.

Definition front (l : list Z) : outcome Z :=
  match l with
  | [] => Fault EmptyContainer
  | x :: _ => Ret x
  end.

Definition back (l : list Z) : outcome Z :=
  match last l with
  | None => Fault EmptyContainer
  | Some x => Ret x
  end.

(** [node_store_.at(f)]. *)
Definition at_ (m : gmap Z LRUKNode) (f : Z) : outcome LRUKNode :=
  match m !! f with
  | Some n => Ret n
  | None => Throw (out_of_range "at")
  end.

(** The locals of [Evict]. *)
Record evict_vars : Type := mkVars {
  flag : bool;
  victim_frame : Z;
  max_k_dis : Z
}.

(** One iteration of the loop of [Evict], on the entry [it]. *)
Definition Evict_body (r : state) (vars : evict_vars) (it : Z * LRUKNode)
    : outcome evict_vars :=
  if negb (is_evictable_ it.2) then Ret vars
  else if Z.of_nat (length (history_ it.2)) <? k_ r then
    earlier ←
      (if negb (flag vars) then Ret true
       else
         a ← front (history_ it.2);
         victim ← at_ (node_store_ r) (victim_frame vars);
         b ← front (history_ victim);
         Ret (a <? b));
    if (earlier : bool) then Ret (mkVars true it.1 SIZE_MAX) else Ret vars
  else
    newest ← back (history_ it.2);
    let k_dis := (current_timestamp_ r - newest) mod 2 ^ 64 in
    if max_k_dis vars <? k_dis then Ret (mkVars true it.1 k_dis) else Ret vars.

Fixpoint Evict_loop (r : state) (order : list (Z * LRUKNode)) (vars : evict_vars)
    : outcome evict_vars :=
  match order with
  | [] => Ret vars
  | it :: rest => vars' ← Evict_body r vars it; Evict_loop r rest vars'
  end.

(** [Evict]: [order] is the order in which [node_store_] is traversed, a
    permutation of its entries.  The result is [Some f] when the source
    returns true with [*frame_id = f], [None] when it returns false. *)
Definition Evict (order : list (Z * LRUKNode)) (r : state)
    : outcome (option Z * state) :=
  if curr_size_ r =? 0 then Ret (None, r)
  else
    vars ← Evict_loop r order (mkVars false INVALID_PAGE_ID 0);
    if flag vars then
      Ret (Some (victim_frame vars),
           mk (delete (victim_frame vars) (node_store_ r))
              (current_timestamp_ r)
              ((curr_size_ r - 1) mod 2 ^ 64)
              (replacer_size_ r) (k_ r))
    else Ret (None, r).

(** [static_cast<size_t>(frame_id) >= replacer_size_]. *)
Definition invalid_frame (r : state) (frame_id : Z) : bool :=
  replacer_size_ r <=? to_size_t frame_id.

Definition RecordAccess (r : state) (frame_id : Z) : outcome state :=
  if invalid_frame r frame_id then Throw (out_of_range "Invalid frame_id")
  else
    let node := default LRUKNode_new (node_store_ r !! frame_id) in
    let pushed := history_ node ++ [current_timestamp_ r] in
    let history :=
      if k_ r <? Z.of_nat (length pushed) then tail pushed else pushed in
    Ret (mk (<[frame_id := mkNode history (is_evictable_ node)]> (node_store_ r))
            ((current_timestamp_ r + 1) mod 2 ^ 64)
            (curr_size_ r) (replacer_size_ r) (k_ r)).

Definition SetEvictable (r : state) (frame_id : Z) (set_evictable : bool)
    : outcome state :=
  if invalid_frame r frame_id then Throw (out_of_range "Invalid frame_id")
  else
    match node_store_ r !! frame_id with
    | None => Ret r
    | Some node =>
        if bool_decide (is_evictable_ node = set_evictable) then Ret r
        else
          Ret (mk (<[frame_id := mkNode (history_ node) set_evictable]> (node_store_ r))
                  (current_timestamp_ r)
                  ((curr_size_ r + (if set_evictable then 1 else -1)) mod 2 ^ 64)
                  (replacer_size_ r) (k_ r))
    end.

Definition Remove (r : state) (frame_id : Z) : outcome state :=
  if invalid_frame r frame_id then Throw (out_of_range "Invalid frame_id")
  else
    match node_store_ r !! frame_id with
    | None => Ret r
    | Some node =>
        Ret (mk (delete frame_id (node_store_ r))
                (current_timestamp_ r)
                (if is_evictable_ node then (curr_size_ r - 1) mod 2 ^ 64
                 else curr_size_ r)
                (replacer_size_ r) (k_ r))
    end.

Definition Size (r : state) : Z := curr_size_ r.

(** The number of tracked frames whose evictable flag is set. *)
Definition evictable_frames (r : state) : gmap Z LRUKNode :=
  filter (fun kv => is_evictable_ kv.2 = true) (node_store_ r).

Definition evictable_count (r : state) : Z :=
  Z.of_nat (size (evictable_frames r)).

End LRUKReplacer.

(** ** The buffer pool manager ([buffer/buffer_pool_manager.cpp]) *)

Module BufferPoolManager.

(** Modelled from the spec: the page size is a compile-time constant of
    [common/config.h], typically 4096 bytes. *)
Definition BUSTUB_PAGE_SIZE : nat := 4096.

(** Modelled from the spec: [Page] is declared in [storage/page/page.h],
    which is not among the sources.  A frame is a slab of page-size bytes
    with the id of the resident page (or [INVALID_PAGE_ID]), a pin count
    and a dirty flag; [ResetMemory] zeroes the bytes.  The pin count is
    an unbounded integer here. *)
Record Page : Type := mkPage {
  data_ : list Z;
  page_id_ : Z;
  pin_count_ : Z;
  is_dirty_ : bool
}.

Definition zeroes : list Z := replicate BUSTUB_PAGE_SIZE 0.

Definition Page_new : Page := mkPage zeroes INVALID_PAGE_ID 0 false.

(** Modelled from the spec: the disk manager is an external collaborator,
    synchronous and correct.  Its state is the stored bytes of each page
    and the log of the requests it served; a page never written reads as
    zeroes. *)
Inductive io_event : Type :=
  | io_write (page_id : Z) (data : list Z)
  | io_read (page_id : Z).

Record DiskManager : Type := mkDisk {
  contents : gmap Z (list Z);
  io_log : list io_event
}.

Definition WritePage (d : DiskManager) (page_id : Z) (data : list Z) : DiskManager :=
  mkDisk (<[page_id := data]> (contents d)) (io_log d ++ [io_write page_id data]).

Definition ReadPage (d : DiskManager) (page_id : Z) : list Z * DiskManager :=
  (default zeroes (contents d !! page_id),
   mkDisk (contents d) (io_log d ++ [io_read page_id])).

(** The members of the class; [latch_] is true while the [std::mutex] is
    held.  [next_page_id_] is the unbounded counter of the spec. *)
Record state : Type := mk {
  pool_size_ : Z;
  pages_ : list Page;
  page_table_ : gmap Z Z;
  free_list_ : list Z;
  replacer_ : LRUKReplacer.state;
  next_page_id_ : Z;
  disk_manager_ : DiskManager;
  latch_ : bool
}.

Definition set_pages (b : state) (ps : list Page) : state :=
  mk (pool_size_ b) ps (page_table_ b) (free_list_ b) (replacer_ b)
     (next_page_id_ b) (disk_manager_ b) (latch_ b).
Definition set_page_table (b : state) (pt : gmap Z Z) : state :=
  mk (pool_size_ b) (pages_ b) pt (free_list_ b) (replacer_ b)
     (next_page_id_ b) (disk_manager_ b) (latch_ b).
Definition set_free_list (b : state) (fl : list Z) : state :=
  mk (pool_size_ b) (pages_ b) (page_table_ b) fl (replacer_ b)
     (next_page_id_ b) (disk_manager_ b) (latch_ b).
Definition set_replacer (b : state) (r : LRUKReplacer.state) : state :=
  mk (pool_size_ b) (pages_ b) (page_table_ b) (free_list_ b) r
     (next_page_id_ b) (disk_manager_ b) (latch_ b).
Definition set_next_page_id (b : state) (n : Z) : state :=
  mk (pool_size_ b) (pages_ b) (page_table_ b) (free_list_ b) (replacer_ b)
     n (disk_manager_ b) (latch_ b).
Definition set_disk_manager (b : state) (d : DiskManager) : state :=
  mk (pool_size_ b) (pages_ b) (page_table_ b) (free_list_ b) (replacer_ b)
     (next_page_id_ b) d (latch_ b).
Definition set_latch (b : state) (held : bool) : state :=
  mk (pool_size_ b) (pages_ b) (page_table_ b) (free_list_ b) (replacer_ b)
     (next_page_id_ b) (disk_manager_ b) held.

(** The constructor: every frame starts in the free list. *)
Definition new (pool_size : Z) (disk_manager : DiskManager) (replacer_k : Z) : state :=
  mk pool_size
     (replicate (Z.to_nat pool_size) Page_new)
     ∅
     (seqZ 0 pool_size)
     (LRUKReplacer.new pool_size replacer_k)
     0 disk_manager false.

(** [std::lock_guard<std::mutex> lock(latch_)] around [body]: locking a
    [std::mutex] its caller already holds has no defined result; the guard
    releases the latch when [body] is left. *)
Definition with_latch {A} (b : state) (body : state -> outcome (A * state))
    : outcome (A * state) :=
  if latch_ b then Fault MutexRelock
  else '(a, b') ← body (set_latch b true); Ret (a, set_latch b' false).

(** [pages_[frame_id]]. *)
Definition page_at (b : state) (frame_id : Z) : outcome Page :=
  if frame_id <? 0 then Fault OutOfBounds
  else
    match pages_ b !! Z.to_nat frame_id with
    | Some p => Ret p
    | None => Fault OutOfBounds
    end.

(** A write through [Page *page = &pages_[frame_id]]. *)
Definition set_page (b : state) (frame_id : Z) (p : Page) : state :=
  set_pages b (<[Z.to_nat frame_id := p]> (pages_ b)).

(** [page_table_.emplace(page_id, frame_id)]: no effect on a key that is
    present. *)
Definition emplace (pt : gmap Z Z) (page_id frame_id : Z) : gmap Z Z :=
  match pt !! page_id with
  | Some _ => pt
  | None => <[page_id := frame_id]> pt
  end.

(** The frame selection shared, as repeated text, by [NewPage] and
    [FetchPage]: [None] stands for their [return nullptr]. *)
Definition pick_frame (order : list (Z * LRUKReplacer.LRUKNode)) (b : state)
    : outcome (option Z * state) :=
  if bool_decide (free_list_ b = []) && (LRUKReplacer.Size (replacer_ b) =? 0)
  then Ret (None, b)
  else
    match last (free_list_ b) with
    | Some frame_id =>
        Ret (Some frame_id,
             set_free_list b (take (length (free_list_ b) - 1) (free_list_ b)))
    | None =>
        '(victim, r) ← LRUKReplacer.Evict order (replacer_ b);
        Ret (victim, set_replacer b r)
    end.

(** The write-back of a dirty occupant, also shared as repeated text. *)
Definition write_back (b : state) (page : Page) : state * Page :=
  if is_dirty_ page then
    (set_disk_manager b (WritePage (disk_manager_ b) (page_id_ page) (data_ page)),
     mkPage (data_ page) (page_id_ page) (pin_count_ page) false)
  else (b, page).

(** [NewPage]: the page id written to [*page_id] and the frame of the
    page returned, or [None] for [nullptr]. *)
Definition NewPage (order : list (Z * LRUKReplacer.LRUKNode)) (b : state)
    : outcome (option (Z * Z) * state) :=
  with_latch b (fun b =>
    '(picked, b) ← pick_frame order b;
    match picked with
    | None => Ret (None, b)
    | Some frame_id =>
        page ← page_at b frame_id;
        let '(b, page) := write_back b page in
        let page_id := next_page_id_ b in
        let b := set_next_page_id b (page_id + 1) in
        let b := set_page_table b (delete (page_id_ page) (page_table_ b)) in
        let b := set_page_table b (emplace (page_table_ b) page_id frame_id) in
        let b := set_page b frame_id (mkPage zeroes page_id 1 (is_dirty_ page)) in
        r ← LRUKReplacer.SetEvictable (replacer_ b) frame_id false;
        r ← LRUKReplacer.RecordAccess r frame_id;
        Ret (Some (page_id, frame_id), set_replacer b r)
    end).

(** [FetchPage]: the frame of the page returned, or [None] for [nullptr]. *)
Definition FetchPage (order : list (Z * LRUKReplacer.LRUKNode)) (b : state)
    (page_id : Z) : outcome (option Z * state) :=
  if page_id =? INVALID_PAGE_ID then Ret (None, b)
  else
    with_latch b (fun b =>
      match page_table_ b !! page_id with
      | Some frame_id =>
          page ← page_at b frame_id;
          r ← LRUKReplacer.RecordAccess (replacer_ b) frame_id;
          r ← LRUKReplacer.SetEvictable r frame_id false;
          let b := set_replacer b r in
          let b := set_page b frame_id
                     (mkPage (data_ page) (page_id_ page) (pin_count_ page + 1)
                             (is_dirty_ page)) in
          Ret (Some frame_id, b)
      | None =>
          '(picked, b) ← pick_frame order b;
          match picked with
          | None => Ret (None, b)
          | Some frame_id =>
              page ← page_at b frame_id;
              let '(b, page) := write_back b page in
              let b := set_page_table b (delete (page_id_ page) (page_table_ b)) in
              let b := set_page_table b (emplace (page_table_ b) page_id frame_id) in
              r ← LRUKReplacer.RecordAccess (replacer_ b) frame_id;
              r ← LRUKReplacer.SetEvictable r frame_id false;
              let b := set_replacer b r in
              let '(bytes, d) := ReadPage (disk_manager_ b) page_id in
              let b := set_disk_manager b d in
              let b := set_page b frame_id (mkPage bytes page_id 1 (is_dirty_ page)) in
              Ret (Some frame_id, b)
          end
      end).

Definition UnpinPage (b : state) (page_id : Z) (is_dirty : bool)
    : outcome (bool * state) :=
  if page_id =? INVALID_PAGE_ID then Ret (false, b)
  else
    with_latch b (fun b =>
      match page_table_ b !! page_id with
      | None => Ret (false, b)
      | Some frame_id =>
          page ← page_at b frame_id;
          if pin_count_ page <=? 0 then Ret (false, b)
          else
            let pin_count := pin_count_ page - 1 in
            r ← (if pin_count =? 0
                 then LRUKReplacer.SetEvictable (replacer_ b) frame_id true
                 else Ret (replacer_ b));
            let b := set_replacer b r in
            let b := set_page b frame_id
                       (mkPage (data_ page) (page_id_ page) pin_count
                               (is_dirty_ page || is_dirty)) in
            Ret (true, b)
      end).

Definition FlushPage (b : state) (page_id : Z) : outcome (bool * state) :=
  with_latch b (fun b =>
    match page_table_ b !! page_id with
    | None => Ret (false, b)
    | Some frame_id =>
        page ← page_at b frame_id;
        let b := set_disk_manager b (WritePage (disk_manager_ b) page_id (data_ page)) in
        let b := set_page b frame_id
                   (mkPage (data_ page) (page_id_ page) (pin_count_ page) false) in
        Ret (true, b)
    end).

(** The loop of [FlushAllPages] over the entries of [page_table_]. *)
Fixpoint FlushAllPages_loop (order : list (Z * Z)) (b : state) : outcome state :=
  match order with
  | [] => Ret b
  | page :: rest =>
      '(_, b') ← FlushPage b page.1;
      FlushAllPages_loop rest b'
  end.

(** [FlushAllPages]: [order] is the order in which [page_table_] is
    traversed.  The calls of [FlushPage] are made with the latch held. *)
Definition FlushAllPages (order : list (Z * Z)) (b : state) : outcome (unit * state) :=
  with_latch b (fun b => b' ← FlushAllPages_loop order b; Ret (tt, b')).

(** Modelled from the spec: [DeallocatePage] is declared in
    [buffer/buffer_pool_manager.h], which is not among the sources; it hands
    the page id back to the allocator, which never reuses ids: the state
    modelled here is left as it is. *)
Definition DeallocatePage (b : state) (page_id : Z) : state := b.

(** [DeletePage]. *)
Definition DeletePage (b : state) (page_id : Z) : outcome (bool * state) :=
  with_latch b (fun b =>
    match page_table_ b !! page_id with
    | None => Ret (true, b)
    | Some frame_id =>
        page ← page_at b frame_id;
        if 0 <? pin_count_ page then Ret (false, b)
        else
          let b := set_page_table b (delete page_id (page_table_ b)) in
          r ← LRUKReplacer.Remove (replacer_ b) frame_id;
          let b := set_replacer b r in
          let b := set_free_list b (free_list_ b ++ [frame_id]) in
          let b := set_page b frame_id (mkPage zeroes INVALID_PAGE_ID 0 false) in
          Ret (true, DeallocatePage b page_id)
    end).

End BufferPoolManager.

(** ** Notions of the specification, and the states used as examples *)

(** The trie [{"a" -> 1}], built from the empty trie. *)
Definition trie_a : outcome Trie.t := Trie.Put Trie.uint32_t (Trie.mk None) "a" 1.

(** A node without children carries a value: what [Put] and [Remove]
    leave of every node, so that no branch of the trie ends in a plain
    node. *)
Definition well_pruned (n : Trie.TrieNode) : Prop :=
  Trie.children_ n = ∅ -> Trie.is_value_node_ n = true.

(** Every node reached from [node], itself included, is well pruned. *)
Definition pruned_from (node : option Trie.TrieNode) : Prop :=
  forall key n, Trie.walk node key = Some n -> well_pruned n.

Definition pruned (trie : Trie.t) : Prop := pruned_from (Trie.root_ trie).

Definition children_pruned (n : Trie.TrieNode) : Prop :=
  forall c child, Trie.children_ n !! c = Some child -> pruned_from (Some child).

(** Frame ids are of type [frame_id_t], a 32-bit signed integer. *)
Definition frame_id_t (f : Z) : Prop := - 2 ^ 31 <= f < 2 ^ 31.

(** The states of a replacer constructed with [num_frames] and [k] that a
    client can reach through calls that return.  [Evict] may traverse
    [node_store_] in any order. *)
Inductive reachable (num_frames k : Z) : LRUKReplacer.state -> Prop :=
  | reachable_new :
      reachable num_frames k (LRUKReplacer.new num_frames k)
  | reachable_RecordAccess r f r' :
      reachable num_frames k r -> frame_id_t f ->
      LRUKReplacer.RecordAccess r f = Ret r' ->
      reachable num_frames k r'
  | reachable_SetEvictable r f b r' :
      reachable num_frames k r -> frame_id_t f ->
      LRUKReplacer.SetEvictable r f b = Ret r' ->
      reachable num_frames k r'
  | reachable_Remove r f r' :
      reachable num_frames k r -> frame_id_t f ->
      LRUKReplacer.Remove r f = Ret r' ->
      reachable num_frames k r'
  | reachable_Evict r order victim r' :
      reachable num_frames k r ->
      order ≡ₚ map_to_list (LRUKReplacer.node_store_ r) ->
      LRUKReplacer.Evict order r = Ret (victim, r') ->
      reachable num_frames k r'.

(** The backward K-distance in the words of the specification: the
    difference between the current logical time and the K-th most recent
    access of the frame, infinite ([None]) when fewer than K accesses are
    recorded.  The history keeps the oldest access at the front. *)
Definition backward_k_distance (r : LRUKReplacer.state)
    (node : LRUKReplacer.LRUKNode) : option Z :=
  let history := LRUKReplacer.history_ node in
  if Z.of_nat (length history) <? LRUKReplacer.k_ r then None
  else
    (fun kth => LRUKReplacer.current_timestamp_ r - kth)
      <$> history !! (length history - Z.to_nat (LRUKReplacer.k_ r))%nat.

(** [RecordAccess] on each frame of a list, in order. *)
Fixpoint accesses (r : LRUKReplacer.state) (frames : list Z)
    : outcome LRUKReplacer.state :=
  match frames with
  | [] => Ret r
  | f :: rest => r' ← LRUKReplacer.RecordAccess r f; accesses r' rest
  end.

(** The invariants of the replacer used in the proofs. *)

Definition evictable_entry (kv : Z * LRUKReplacer.LRUKNode) : Prop :=
  LRUKReplacer.is_evictable_ kv.2 = true.

Definition count_of (m : gmap Z LRUKReplacer.LRUKNode) : Z :=
  Z.of_nat (size (filter evictable_entry m)).

Definition as_count (b : bool) : Z := if b then 1 else 0.

Definition frames_typed (m : gmap Z LRUKReplacer.LRUKNode) : Prop :=
  forall f, is_Some (m !! f) -> frame_id_t f.

(** What the loop of [Evict] knows about its victim. *)
Definition victim_ok (r : LRUKReplacer.state) (vars : LRUKReplacer.evict_vars) : Prop :=
  LRUKReplacer.flag vars = true ->
  exists nd,
    LRUKReplacer.node_store_ r !! LRUKReplacer.victim_frame vars = Some nd /\
    LRUKReplacer.is_evictable_ nd = true.

(** The invariant behind [Size]. *)
Definition size_inv (r : LRUKReplacer.state) : Prop :=
  frames_typed (LRUKReplacer.node_store_ r) /\
  LRUKReplacer.curr_size_ r = count_of (LRUKReplacer.node_store_ r).

(** With [k >= 1] no tracked frame has an empty history, so [Evict]
    never reads the front or the back of an empty list. *)
Definition history_inv (r : LRUKReplacer.state) : Prop :=
  1 <= LRUKReplacer.k_ r /\
  forall f nd, LRUKReplacer.node_store_ r !! f = Some nd ->
               LRUKReplacer.history_ nd ≠ [].

(** The clock has not wrapped around: every recorded timestamp lies before
    the current one.  It holds from construction until [2^64] accesses
    have been recorded. *)
Definition clock_inv (r : LRUKReplacer.state) : Prop :=
  0 <= LRUKReplacer.current_timestamp_ r < 2 ^ 64 /\
  forall f nd t,
    LRUKReplacer.node_store_ r !! f = Some nd ->
    t ∈ LRUKReplacer.history_ nd ->
    0 <= t < LRUKReplacer.current_timestamp_ r.

(** What the loop of [Evict] knows while its flag is down: nothing it met
    was evictable. *)
Definition none_evictable (vars : LRUKReplacer.evict_vars)
    (seen : list (Z * LRUKReplacer.LRUKNode)) : Prop :=
  LRUKReplacer.flag vars = false ->
  LRUKReplacer.max_k_dis vars = 0 /\
  forall it, it ∈ seen -> LRUKReplacer.is_evictable_ it.2 = false.

(** What the loop of [Evict] knows once its flag is up, as long as it only
    met evictable frames with [k] recorded accesses: the victim so far is
    tracked and evictable, [max_k_dis] is the distance to its newest
    access, and no evictable frame met has an older newest access. *)
Definition newest_inv (r : LRUKReplacer.state) (vars : LRUKReplacer.evict_vars)
    (seen : list (Z * LRUKReplacer.LRUKNode)) : Prop :=
  LRUKReplacer.flag vars = true ->
  exists vnd tv,
    LRUKReplacer.node_store_ r !! LRUKReplacer.victim_frame vars = Some vnd /\
    LRUKReplacer.is_evictable_ vnd = true /\
    last (LRUKReplacer.history_ vnd) = Some tv /\
    LRUKReplacer.max_k_dis vars = LRUKReplacer.current_timestamp_ r - tv /\
    forall it, it ∈ seen -> LRUKReplacer.is_evictable_ it.2 = true ->
      exists t, last (LRUKReplacer.history_ it.2) = Some t /\ tv <= t.

(** The same, as long as it only met evictable frames with fewer than [k]
    accesses: no evictable frame met has an older first access than the
    victim so far. *)
Definition oldest_inv (r : LRUKReplacer.state) (vars : LRUKReplacer.evict_vars)
    (seen : list (Z * LRUKReplacer.LRUKNode)) : Prop :=
  (LRUKReplacer.flag vars = false ->
   forall it, it ∈ seen -> LRUKReplacer.is_evictable_ it.2 = false) /\
  (LRUKReplacer.flag vars = true ->
   exists vnd tv,
     LRUKReplacer.node_store_ r !! LRUKReplacer.victim_frame vars = Some vnd /\
     LRUKReplacer.is_evictable_ vnd = true /\
     head (LRUKReplacer.history_ vnd) = Some tv /\
     forall it, it ∈ seen -> LRUKReplacer.is_evictable_ it.2 = true ->
       exists t, head (LRUKReplacer.history_ it.2) = Some t /\ tv <= t).

(** No history is longer than [k]. *)
Definition history_bound (r : LRUKReplacer.state) : Prop :=
  forall f nd, LRUKReplacer.node_store_ r !! f = Some nd ->
    Z.of_nat (length (LRUKReplacer.history_ nd)) <= LRUKReplacer.k_ r.

(** The calls of a client, and a run of them; [EvictOp] traverses the
    store in the order of [map_to_list]. *)
Inductive op : Type :=
  | RecordAccessOp (f : Z)
  | SetEvictableOp (f : Z) (b : bool)
  | RemoveOp (f : Z)
  | EvictOp.

Definition op_typed (o : op) : Prop :=
  match o with
  | RecordAccessOp f | SetEvictableOp f _ | RemoveOp f => frame_id_t f
  | EvictOp => True
  end.

Definition step (r : LRUKReplacer.state) (o : op) : outcome LRUKReplacer.state :=
  match o with
  | RecordAccessOp f => LRUKReplacer.RecordAccess r f
  | SetEvictableOp f b => LRUKReplacer.SetEvictable r f b
  | RemoveOp f => LRUKReplacer.Remove r f
  | EvictOp =>
      res ← LRUKReplacer.Evict (map_to_list (LRUKReplacer.node_store_ r)) r;
      Ret res.2
  end.

Fixpoint run (r : LRUKReplacer.state) (ops : list op) : outcome LRUKReplacer.state :=
  match ops with
  | [] => Ret r
  | o :: rest => r' ← step r o; run r' rest
  end.

(** The victims of [n] successive calls of [Evict]. *)
Fixpoint evictions (r : LRUKReplacer.state) (n : nat) : outcome (list (option Z)) :=
  match n with
  | O => Ret []
  | S n' =>
      res ← LRUKReplacer.Evict (map_to_list (LRUKReplacer.node_store_ r)) r;
      rest ← evictions res.2 n';
      Ret (res.1 :: rest)
  end.

(** A replacer with [k = 2] after accesses to frames 1, 2, 2, 1 at times
    0 to 3, both frames evictable. *)
Definition replacer_1221 : outcome LRUKReplacer.state :=
  r ← accesses (LRUKReplacer.new 7 2) [1; 2; 2; 1];
  r ← LRUKReplacer.SetEvictable r 1 true;
  LRUKReplacer.SetEvictable r 2 true.

(** A replacer with [k = 2] after accesses to frames 1, 1, 2 at times 0 to
    2, both frames evictable: frame 2 has a single access. *)
Definition replacer_112 : outcome LRUKReplacer.state :=
  r ← accesses (LRUKReplacer.new 7 2) [1; 1; 2];
  r ← LRUKReplacer.SetEvictable r 1 true;
  LRUKReplacer.SetEvictable r 2 true.

(** The state [replacer_1221] returns, written out. *)
Definition replacer_1221_state : LRUKReplacer.state :=
  LRUKReplacer.mk
    {[ 1 := LRUKReplacer.mkNode [0; 3] true; 2 := LRUKReplacer.mkNode [1; 2] true ]}
    4 2 7 2.

(** A replacer with [k = 1] after accesses to frames 1, 2, 1, both
    evictable, and one with [k = 3] after the same accesses. *)
Definition replacer_k1_state : LRUKReplacer.state :=
  LRUKReplacer.mk
    {[ 1 := LRUKReplacer.mkNode [2] true; 2 := LRUKReplacer.mkNode [1] true ]}
    3 2 7 1.

Definition replacer_k3_state : LRUKReplacer.state :=
  LRUKReplacer.mk
    {[ 1 := LRUKReplacer.mkNode [0; 2] true; 2 := LRUKReplacer.mkNode [1] true ]}
    3 2 7 3.

Definition ops_121 : list op :=
  [RecordAccessOp 1; RecordAccessOp 2; RecordAccessOp 1;
   SetEvictableOp 1 true; SetEvictableOp 2 true].

(** A replacer tracking frame 1, not evictable. *)
Definition replacer_1 : outcome LRUKReplacer.state :=
  LRUKReplacer.RecordAccess (LRUKReplacer.new 7 2) 1.

(** What the buffer-pool theorems ask of a state: no call is in progress
    (the latch is free), the reserved page id is not resident, every
    resident page sits in a frame of the pool that the replacer accepts,
    and no pin count is negative. *)
Definition well_formed (b : BufferPoolManager.state) : Prop :=
  BufferPoolManager.latch_ b = false /\
  BufferPoolManager.page_table_ b !! INVALID_PAGE_ID = None /\
  (forall p f, BufferPoolManager.page_table_ b !! p = Some f ->
     0 <= f < 2 ^ 31 /\
     f < Z.of_nat (length (BufferPoolManager.pages_ b)) /\
     f < LRUKReplacer.replacer_size_ (BufferPoolManager.replacer_ b)) /\
  (forall pg, pg ∈ BufferPoolManager.pages_ b -> 0 <= BufferPoolManager.pin_count_ pg).

(** A replacer built for [n] frames that tracks frames below [n] only. *)
Definition keys_in (r : LRUKReplacer.state) (n : Z) : Prop :=
  LRUKReplacer.replacer_size_ r = n /\
  forall f, is_Some (LRUKReplacer.node_store_ r !! f) -> 0 <= f < n.

(** What every pool built by the constructor and used through [NewPage],
    [FetchPage], [UnpinPage] and [FlushPage] satisfies: it is well formed,
    the page counter has not gone negative, the replacer was built for the
    frames of the pool, and the free list and the replacer only know
    frames of the pool. *)
Definition pool_inv (b : BufferPoolManager.state) : Prop :=
  well_formed b /\
  0 <= BufferPoolManager.next_page_id_ b /\
  Z.of_nat (length (BufferPoolManager.pages_ b)) < 2 ^ 31 /\
  keys_in (BufferPoolManager.replacer_ b)
          (Z.of_nat (length (BufferPoolManager.pages_ b))) /\
  (forall f, f ∈ BufferPoolManager.free_list_ b ->
             0 <= f < Z.of_nat (length (BufferPoolManager.pages_ b))).

(** The states of a pool of [pool_size] frames that a client reaches
    through calls that return.  The replacer may traverse its store in any
    order. *)
Inductive pool_reachable (pool_size replacer_k : Z)
    : BufferPoolManager.state -> Prop :=
  | pool_reachable_new disk_manager :
      pool_reachable pool_size replacer_k
        (BufferPoolManager.new pool_size disk_manager replacer_k)
  | pool_reachable_NewPage order b res b' :
      pool_reachable pool_size replacer_k b ->
      order ≡ₚ map_to_list (LRUKReplacer.node_store_ (BufferPoolManager.replacer_ b)) ->
      BufferPoolManager.NewPage order b = Ret (res, b') ->
      pool_reachable pool_size replacer_k b'
  | pool_reachable_FetchPage order b page_id res b' :
      pool_reachable pool_size replacer_k b ->
      order ≡ₚ map_to_list (LRUKReplacer.node_store_ (BufferPoolManager.replacer_ b)) ->
      BufferPoolManager.FetchPage order b page_id = Ret (res, b') ->
      pool_reachable pool_size replacer_k b'
  | pool_reachable_UnpinPage b page_id is_dirty ok b' :
      pool_reachable pool_size replacer_k b ->
      BufferPoolManager.UnpinPage b page_id is_dirty = Ret (ok, b') ->
      pool_reachable pool_size replacer_k b'
  | pool_reachable_FlushPage b page_id ok b' :
      pool_reachable pool_size replacer_k b ->
      BufferPoolManager.FlushPage b page_id = Ret (ok, b') ->
      pool_reachable pool_size replacer_k b'
  | pool_reachable_DeletePage b page_id ok b' :
      pool_reachable pool_size replacer_k b ->
      BufferPoolManager.DeletePage b page_id = Ret (ok, b') ->
      pool_reachable pool_size replacer_k b'.

(** What keeps pinned pages in place: a page in the page table sits in the
    frame the table names; a free frame holds no page, is not pinned and
    is not known to the replacer; no frame is twice in the free list; and
    a frame the replacer may evict is not pinned. *)
Definition pool_safe (b : BufferPoolManager.state) : Prop :=
  pool_inv b /\
  (forall p f, BufferPoolManager.page_table_ b !! p = Some f ->
     exists pg, BufferPoolManager.pages_ b !! Z.to_nat f = Some pg /\
                BufferPoolManager.page_id_ pg = p) /\
  (forall f, f ∈ BufferPoolManager.free_list_ b ->
     exists pg, BufferPoolManager.pages_ b !! Z.to_nat f = Some pg /\
                BufferPoolManager.page_id_ pg = INVALID_PAGE_ID /\
                BufferPoolManager.pin_count_ pg = 0 /\
                LRUKReplacer.node_store_ (BufferPoolManager.replacer_ b) !! f = None) /\
  NoDup (BufferPoolManager.free_list_ b) /\
  (forall f nd pg,
     LRUKReplacer.node_store_ (BufferPoolManager.replacer_ b) !! f = Some nd ->
     LRUKReplacer.is_evictable_ nd = true ->
     BufferPoolManager.pages_ b !! Z.to_nat f = Some pg ->
     BufferPoolManager.pin_count_ pg = 0).

(** Every frame holds no page, or is the frame the page table names for
    the page it holds, or is pinned. *)
Definition owned_in (pages : list BufferPoolManager.Page) (page_table : gmap Z Z)
    : Prop :=
  forall i pg, pages !! i = Some pg ->
    BufferPoolManager.page_id_ pg = INVALID_PAGE_ID \/
    (exists f, page_table !! BufferPoolManager.page_id_ pg = Some f /\
               Z.to_nat f = i) \/
    0 < BufferPoolManager.pin_count_ pg.

Definition frames_owned (b : BufferPoolManager.state) : Prop :=
  owned_in (BufferPoolManager.pages_ b) (BufferPoolManager.page_table_ b).

(** A pool of two frames over an empty disk, after [NewPage]: page 0 is
    resident in frame 1 and pinned once. *)
Definition pool_one_page : outcome BufferPoolManager.state :=
  res ← BufferPoolManager.NewPage []
          (BufferPoolManager.new 2 (BufferPoolManager.mkDisk ∅ []) 2);
  Ret res.2.

(** The state [pool_one_page] returns, written out. *)
Definition pool_one_page_state : BufferPoolManager.state :=
  BufferPoolManager.mk 2
    [BufferPoolManager.Page_new;
     BufferPoolManager.mkPage BufferPoolManager.zeroes 0 1 false]
    {[ 0 := 1 ]}
    [0]
    (LRUKReplacer.mk {[ 1 := LRUKReplacer.mkNode [0] false ]} 1 0 2 2)
    1
    (BufferPoolManager.mkDisk ∅ [])
    false.

(** The state of that pool after [FetchPage] of page 0. *)
Definition pool_one_page_fetched : BufferPoolManager.state :=
  BufferPoolManager.mk 2
    [BufferPoolManager.Page_new;
     BufferPoolManager.mkPage BufferPoolManager.zeroes 0 2 false]
    {[ 0 := 1 ]}
    [0]
    (LRUKReplacer.mk {[ 1 := LRUKReplacer.mkNode [0; 1] false ]} 2 0 2 2)
    1
    (BufferPoolManager.mkDisk ∅ [])
    false.

(** A pool of one frame whose page 0 was unpinned dirty, and the pool
    after [FetchPage] of page 1 took the frame over (scenario S3). *)
Definition pool_dirty_page : BufferPoolManager.state :=
  BufferPoolManager.mk 1
    [BufferPoolManager.mkPage BufferPoolManager.zeroes 0 0 true]
    {[ 0 := 0 ]}
    []
    (LRUKReplacer.mk {[ 0 := LRUKReplacer.mkNode [0] true ]} 1 1 1 2)
    1
    (BufferPoolManager.mkDisk ∅ [])
    false.

Definition pool_after_miss : BufferPoolManager.state :=
  BufferPoolManager.mk 1
    [BufferPoolManager.mkPage BufferPoolManager.zeroes 1 1 false]
    {[ 1 := 0 ]}
    []
    (LRUKReplacer.mk {[ 0 := LRUKReplacer.mkNode [1] false ]} 2 0 1 2)
    1
    (BufferPoolManager.mkDisk {[ 0 := BufferPoolManager.zeroes ]}
       [BufferPoolManager.io_write 0 BufferPoolManager.zeroes;
        BufferPoolManager.io_read 1])
    false.

(** The pool [pool_dirty_page] after [DeletePage] of its page. *)
Definition pool_after_delete : BufferPoolManager.state :=
  BufferPoolManager.mk 1
    [BufferPoolManager.Page_new]
    ∅
    [0]
    (LRUKReplacer.mk ∅ 1 0 1 2)
    1
    (BufferPoolManager.mkDisk ∅ [])
    false.

(** A pool of two frames after [FetchPage] of page 0, an id that
    [NewPage] has not handed out yet, and the pool after the [NewPage]
    that follows. *)
Definition pool_early_fetch : BufferPoolManager.state :=
  BufferPoolManager.mk 2
    [BufferPoolManager.Page_new;
     BufferPoolManager.mkPage BufferPoolManager.zeroes 0 1 false]
    {[ 0 := 1 ]}
    [0]
    (LRUKReplacer.mk {[ 1 := LRUKReplacer.mkNode [0] false ]} 1 0 2 2)
    0
    (BufferPoolManager.mkDisk ∅ [BufferPoolManager.io_read 0])
    false.

Definition pool_same_id_twice : BufferPoolManager.state :=
  BufferPoolManager.mk 2
    [BufferPoolManager.mkPage BufferPoolManager.zeroes 0 1 false;
     BufferPoolManager.mkPage BufferPoolManager.zeroes 0 1 false]
    {[ 0 := 1 ]}
    []
    (LRUKReplacer.mk {[ 0 := LRUKReplacer.mkNode [1] false;
                        1 := LRUKReplacer.mkNode [0] false ]} 2 0 2 2)
    1
    (BufferPoolManager.mkDisk ∅ [BufferPoolManager.io_read 0])
    false.

(** A pool of one frame after [NewPage]: its only frame is pinned. *)
Definition pool_full : BufferPoolManager.state :=
  BufferPoolManager.mk 1
    [BufferPoolManager.mkPage BufferPoolManager.zeroes 0 1 false]
    {[ 0 := 0 ]}
    []
    (LRUKReplacer.mk {[ 0 := LRUKReplacer.mkNode [0] false ]} 1 0 1 2)
    1
    (BufferPoolManager.mkDisk ∅ [])
    false.

(** * Properties *)

(** ** Trie: lookups after [Put] and [Remove] *)

Section TrieFacts.
Import Trie.

Lemma value_as_make_shared T (v : payload T) :
  value_as T (make_shared T v) = Some v.
Proof. by destruct T. Qed.

Lemma type_of_make_shared T (v : payload T) : type_of (make_shared T v) = T.
Proof. by destruct T. Qed.

Lemma value_as_Some T v x : value_as T v = Some x -> type_of v = T.
Proof. by destruct T, v. Qed.

Lemma value_as_mismatch T v : type_of v ≠ T -> value_as T v = None.
Proof. by destruct T, v. Qed.

Lemma Clone_same n : Clone n = n.
Proof. by destruct n. Qed.

Lemma value_at_nil node : value_at node "" = node ≫= value_.
Proof. by destruct node. Qed.

Lemma value_at_cons n c rest :
  value_at (Some n) (String c rest) =
  match children_ n !! c with
  | Some child => value_at (Some child) rest
  | None => None
  end.
Proof. unfold value_at. simpl. by destruct (children_ n !! c). Qed.

Lemma value_at_null key : value_at None key = None.
Proof. by destruct key. Qed.

Lemma value_at_leaf key : value_at (Some (Node ∅ None)) key = None.
Proof. destruct key; [done|]. by rewrite value_at_cons. Qed.

(** The children alone decide what lies below a node. *)
Lemma value_at_children n1 n2 c rest :
  children_ n1 = children_ n2 ->
  value_at (Some n1) (String c rest) = value_at (Some n2) (String c rest).
Proof. intros E. by rewrite !value_at_cons, E. Qed.

Lemma Get_lookup T trie key :
  Get T trie key = lookup trie key ≫= value_as T.
Proof.
  unfold Get, lookup, value_at.
  destruct (walk (root_ trie) key) as [[ch [v|]]|]; done.
Qed.

(** [PutCycle] stores the value at its key and leaves every other key as
    it was. *)
Lemma PutCycle_value_at rest : forall c n v key,
  value_at (Some (PutCycle n c rest v)) key =
  if decide (key = String c rest) then Some v else value_at (Some n) key.
Proof.
  induction rest as [|c' rest' IH]; intros c n v key.
  - simpl. destruct (children_ n !! c) as [child|] eqn:E;
      (destruct key as [|c2 r2]; [by rewrite !value_at_nil|]);
      rewrite !value_at_cons; simpl;
      (destruct (decide (c2 = c)) as [->|Hc];
        [rewrite lookup_insert_eq, E | rewrite lookup_insert_ne by done;
         case_decide; [congruence|done]]).
    + destruct r2 as [|c3 r3]; [by rewrite decide_True|].
      rewrite decide_False by congruence.
      by apply value_at_children.
    + destruct r2 as [|c3 r3]; [by rewrite decide_True|].
      rewrite decide_False by congruence.
      by rewrite value_at_cons.
  - simpl. destruct (children_ n !! c) as [child|] eqn:E;
      (destruct key as [|c2 r2]; [by rewrite !value_at_nil|]);
      rewrite !value_at_cons; simpl;
      (destruct (decide (c2 = c)) as [->|Hc];
        [rewrite lookup_insert_eq, E, IH | rewrite lookup_insert_ne by done;
         case_decide; [congruence|done]]).
    + rewrite Clone_same.
      destruct (decide (r2 = String c' rest')) as [->|Hr].
      * by rewrite decide_True.
      * rewrite decide_False by congruence. done.
    + rewrite value_at_leaf.
      destruct (decide (r2 = String c' rest')) as [->|Hr].
      * by rewrite decide_True.
      * rewrite decide_False by congruence. done.
Qed.

Lemma value_at_no_children n key :
  children_ n = ∅ -> value_ n = None -> value_at (Some n) key = None.
Proof.
  intros Hc Hv. destruct key; [by rewrite value_at_nil|].
  by rewrite value_at_cons, Hc.
Qed.

(** A failed [RemoveCycle] leaves the node alone and means the key holds
    no value; a successful one removes the value at the key and keeps
    every other key. *)
Lemma RemoveCycle_value_at rest : forall c n,
  match RemoveCycle n c rest with
  | (false, n') => n' = n /\ value_at (Some n) (String c rest) = None
  | (true, n') =>
      forall key, value_at (Some n') key =
                  if decide (key = String c rest) then None else value_at (Some n) key
  end.
Proof.
  induction rest as [|c' rest' IH]; intros c n.
  - simpl. destruct (children_ n !! c) as [child|] eqn:E.
    2:{ split; [done|]. by rewrite value_at_cons, E. }
    unfold is_value_node_.
    destruct (value_ child) as [v|] eqn:Ev; simpl.
    2:{ split; [done|]. by rewrite value_at_cons, E, value_at_nil; simpl. }
    unfold empty. case_bool_decide as Hch; intros key;
      (destruct key as [|c2 r2]; [by rewrite !value_at_nil|]);
      rewrite !value_at_cons; simpl;
      destruct (decide (c2 = c)) as [->|Hc].
    + rewrite lookup_delete_eq, E.
      destruct r2 as [|c3 r3]; [by rewrite decide_True|].
      rewrite decide_False by congruence.
      by rewrite value_at_cons, Hch.
    + rewrite lookup_delete_ne by done. by rewrite decide_False by congruence.
    + rewrite lookup_insert_eq, E.
      destruct r2 as [|c3 r3]; [by rewrite decide_True|].
      rewrite decide_False by congruence.
      by apply value_at_children.
    + rewrite lookup_insert_ne by done. by rewrite decide_False by congruence.
  - simpl. destruct (children_ n !! c) as [child|] eqn:E.
    2:{ split; [done|]. by rewrite value_at_cons, E. }
    specialize (IH c' (Clone child)). rewrite Clone_same in *.
    destruct (RemoveCycle child c' rest') as [[|] ptr]; simpl.
    2:{ destruct IH as [_ IH]. split; [done|]. by rewrite value_at_cons, E. }
    unfold empty, is_value_node_.
    case_bool_decide as Hch; [destruct (value_ ptr) as [w|] eqn:Ew|]; simpl;
      intros key;
      (destruct key as [|c2 r2]; [by rewrite !value_at_nil|]);
      rewrite !value_at_cons; simpl;
      (destruct (decide (c2 = c)) as [->|Hc];
        [|rewrite ?lookup_insert_ne, ?lookup_delete_ne by done;
          by rewrite decide_False by congruence]);
      rewrite ?lookup_insert_eq, ?lookup_delete_eq, E.
    + rewrite IH. by repeat case_decide; simplify_eq.
    + specialize (IH r2). rewrite value_at_no_children in IH by done.
      by repeat case_decide; simplify_eq.
    + rewrite IH. by repeat case_decide; simplify_eq.
Qed.

(** On the empty key and a present root, the new root is a value node
    with the value and the children of the old root. *)
Lemma Put_empty_key_root T trie root (v : payload T) :
  root_ trie = Some root ->
  Put T trie EmptyString v =
  Ret (Trie.mk (Some (Node (children_ root) (Some (make_shared T v))))).
Proof.
  intros Hroot. unfold Put, empty. rewrite Hroot.
  case_bool_decide as Hch; by rewrite ?Hch.
Qed.

(** Where [Put] returns: on every non-empty key, and on the empty key
    when the root is present. *)
Lemma Put_lookup T trie key (v : payload T) :
  is_Some (root_ trie) \/ key ≠ EmptyString ->
  exists trie', Put T trie key v = Ret trie' /\
    forall key', lookup trie' key' =
                 if decide (key' = key) then Some (make_shared T v)
                 else lookup trie key'.
Proof.
  intros Hdef. destruct key as [|c rest].
  - destruct Hdef as [[root Hroot]|]; [|done].
    rewrite (Put_empty_key_root T trie root) by done.
    eexists. split; [done|]. unfold lookup. rewrite Hroot.
    intros [|c2 r2]; [done|].
    rewrite decide_False by done. by apply value_at_children.
  - eexists. split; [done|]. intros key'. unfold lookup; simpl.
    rewrite PutCycle_value_at. case_decide; [done|].
    destruct (root_ trie) as [root|];
      [by rewrite Clone_same | by rewrite value_at_leaf, value_at_null].
Qed.

(** [Remove] never disturbs another key, and leaves no value at its own. *)
Lemma Remove_lookup trie key key' :
  lookup (Remove trie key) key' =
  if decide (key' = key) then None else lookup trie key'.
Proof.
  unfold Remove, lookup.
  destruct (root_ trie) as [root|] eqn:Hroot.
  2:{ rewrite Hroot, value_at_null. by case_decide. }
  destruct key as [|c rest].
  - unfold is_value_node_, empty.
    destruct (value_ root) as [v|] eqn:Hv.
    + case_bool_decide as Hch; simpl.
      * rewrite value_at_null. case_decide; [done|].
        destruct key'; [done|]. by rewrite value_at_cons, Hch.
      * case_decide as Hk; [by subst|].
        destruct key'; [done|]. by apply value_at_children.
    + rewrite Hroot. case_decide as Hk; [|done].
      subst. by rewrite value_at_nil.
  - pose proof (RemoveCycle_value_at rest c (Clone root)) as H.
    rewrite Clone_same in *.
    destruct (RemoveCycle root c rest) as [[|] new_root]; simpl.
    + unfold empty, is_value_node_.
      case_bool_decide as Hch; [destruct (value_ new_root) eqn:Hv|]; simpl;
        rewrite <- ?H; try done.
      by rewrite value_at_null, value_at_no_children.
    + destruct H as [_ H]. rewrite Hroot. case_decide; by subst.
Qed.

Lemma Put_Get T trie key (v : payload T) :
  is_Some (root_ trie) \/ key ≠ EmptyString ->
  exists trie', Put T trie key v = Ret trie' /\ Get T trie' key = Some v.
Proof.
  intros Hdef. destruct (Put_lookup T trie key v Hdef) as (trie' & HP & HL).
  exists trie'. split; [done|].
  rewrite Get_lookup, HL, decide_True by done. simpl.
  apply value_as_make_shared.
Qed.

End TrieFacts.

(** Scenario S5 of the specification. *)
Example scenario_S5 :
  (t1 ← Trie.Put Trie.uint32_t (Trie.mk None) "abc" 1;
   t2 ← Trie.Put Trie.uint32_t t1 "abd" 2;
   Ret (Trie.Get Trie.uint32_t t2 "abc", Trie.Get Trie.uint32_t t2 "abd",
        Trie.Get Trie.uint32_t t2 "ab", Trie.Get Trie.uint32_t t1 "abd"))
  = Ret (Some 1, Some 2, None, None).
Proof. vm_compute. reflexivity. Qed.

(** C2. [Put] of the empty key into a trie without a root reads
    [root_->children_] through the null root: the call has no result, so
    [t.put(k, v).get<T>(k)] does not yield [v] there. *)
Theorem Put_Get_empty_key_null_root :
  forall T (v : Trie.payload T),
    (trie' ← Trie.Put T (Trie.mk None) "" v; Ret (Trie.Get T trie' ""))
    = Fault NullDereference.
Proof. done. Qed.

(** C4. [Put] of the empty key into a trie without a root has no result,
    whereas the non-empty branch of the same function tests for the null
    root and returns. *)
Theorem Put_empty_key_null_root :
  forall T (v : Trie.payload T),
    Trie.Put T (Trie.mk None) "" v = Fault NullDereference /\
    forall c rest, returns (Trie.Put T (Trie.mk None) (String c rest) v) = true.
Proof. done. Qed.

(** C3, as stated, fails on a trie that holds the key: [Put] then [Remove]
    of ["a"] on the trie [{"a" -> 1}] leaves no value at ["a"]. *)
Lemma Put_Remove_loses_key :
  exists t t', trie_a = Ret t /\
    Trie.Put Trie.uint32_t t "a" 2 = Ret t' /\
    ~ Trie.same_kv (Trie.Remove t' "a") t.
Proof.
  do 2 eexists. split; [reflexivity|]. split; [reflexivity|].
  intros H. specialize (H "a"). vm_compute in H. discriminate.
Qed.

(** C3, amended. Where [Put] returns, [Put] then [Remove] of a key yields
    the key-value set of the trie without that key; it is the key-value
    set of the trie itself when the trie held no value at the key. *)
Theorem Put_Remove_lookup T trie key (v : Trie.payload T) :
  is_Some (Trie.root_ trie) \/ key ≠ EmptyString ->
  exists trie', Trie.Put T trie key v = Ret trie' /\
    (forall key', Trie.lookup (Trie.Remove trie' key) key' =
                  if decide (key' = key) then None else Trie.lookup trie key') /\
    (Trie.lookup trie key = None -> Trie.same_kv (Trie.Remove trie' key) trie).
Proof.
  intros Hdef.
  destruct (Put_lookup T trie key v Hdef) as (trie' & HP & HL).
  exists trie'. split; [done|].
  assert (forall key', Trie.lookup (Trie.Remove trie' key) key' =
                       if decide (key' = key) then None else Trie.lookup trie key') as H.
  { intros key'. rewrite Remove_lookup, HL. by case_decide. }
  split; [done|].
  intros Hnone key'. rewrite H. case_decide; by subst.
Qed.

Lemma Put_Remove_lookup_witness :
  exists trie', Trie.Put Trie.uint32_t (Trie.mk None) "ab" 7 = Ret trie' /\
    (forall key', Trie.lookup (Trie.Remove trie' "ab") key' =
                  if decide (key' = "ab"%string) then None
                  else Trie.lookup (Trie.mk None) key') /\
    (Trie.lookup (Trie.mk None) "ab" = None ->
     Trie.same_kv (Trie.Remove trie' "ab") (Trie.mk None)).
Proof.
  apply (Put_Remove_lookup Trie.uint32_t (Trie.mk None) "ab" 7).
  right. discriminate.
Defined.

(** C9. When the value a key leads to was stored at type [U], [Get] at any
    other type [T] returns none. *)
Theorem Get_type_mismatch T U trie key val :
  Trie.lookup trie key = Some val ->
  Trie.type_of val = U ->
  T ≠ U ->
  Trie.Get T trie key = None.
Proof.
  intros Hval HU HT. rewrite Get_lookup, Hval. simpl.
  apply value_as_mismatch. congruence.
Qed.

(** In particular [Get] at a type other than the one of the [Put] that
    stored the value returns none. *)
Lemma Put_Get_other_type T U trie key (v : Trie.payload U) trie' :
  T ≠ U ->
  Trie.Put U trie key v = Ret trie' ->
  Trie.Get T trie' key = None.
Proof.
  intros HT HP.
  assert (is_Some (Trie.root_ trie) \/ key ≠ EmptyString) as Hdef.
  { destruct key; [|by right]. left.
    destruct trie as [[root|]]; [done|discriminate]. }
  destruct (Put_lookup U trie key v Hdef) as (trie2 & HP2 & HL).
  assert (trie2 = trie') as -> by congruence.
  rewrite Get_lookup, HL, decide_True by done. simpl.
  apply value_as_mismatch. rewrite type_of_make_shared. congruence.
Qed.

Lemma Get_type_mismatch_witness :
  Trie.Get Trie.uint64_t
    (Trie.mk (Some (Trie.PutCycle (Trie.Node ∅ None) "a" "" (Trie.VUInt32 1)))) "a"
  = None.
Proof.
  apply (Get_type_mismatch Trie.uint64_t Trie.uint32_t _ "a" (Trie.VUInt32 1)).
  - reflexivity.
  - reflexivity.
  - discriminate.
Defined.

(** ** Replacer: the victim of [Evict] *)

(** Scenario S1 of the specification ([k = 2]): the victims are frames 3,
    4, 1 and 2, in that order. *)
Example scenario_S1 :
  (r ← run (LRUKReplacer.new 7 2)
         (map RecordAccessOp [1; 2; 3; 4; 1; 2; 3; 4; 1; 2] ++
          map (fun f => SetEvictableOp f true) [1; 2; 3; 4]);
   evictions r 4)
  = Ret [Some 3; Some 4; Some 1; Some 2].
Proof. vm_compute. reflexivity. Qed.

(** Scenario S2 of the specification ([k = 3]): both frames have fewer
    than three accesses, and frame 1, accessed first, is the victim. *)
Example scenario_S2 :
  (r ← run (LRUKReplacer.new 7 3)
         [RecordAccessOp 1; RecordAccessOp 2; RecordAccessOp 1;
          SetEvictableOp 1 true; SetEvictableOp 2 true];
   evictions r 1)
  = Ret [Some 1].
Proof. vm_compute. reflexivity. Qed.

(** C1. With [k = 2], frame 1 accessed at times 0 and 3 and frame 2 at
    times 1 and 2, both evictable, the backward K-distance of frame 1 is 4
    and that of frame 2 is 3; in whichever order the store is traversed,
    [Evict] returns frame 2 and keeps frame 1: it measures the distance to
    the newest access of a frame, [history_.back()], not to the K-th most
    recent one. *)
Theorem Evict_not_max_backward_k_distance :
  exists r n1 n2,
    replacer_1221 = Ret r /\
    LRUKReplacer.node_store_ r = {[ 1 := n1; 2 := n2 ]} /\
    LRUKReplacer.is_evictable_ n1 = true /\
    LRUKReplacer.is_evictable_ n2 = true /\
    backward_k_distance r n1 = Some 4 /\
    backward_k_distance r n2 = Some 3 /\
    (exists r', LRUKReplacer.Evict [(1, n1); (2, n2)] r = Ret (Some 2, r') /\
                LRUKReplacer.node_store_ r' = {[ 1 := n1 ]}) /\
    (exists r', LRUKReplacer.Evict [(2, n2); (1, n1)] r = Ret (Some 2, r') /\
                LRUKReplacer.node_store_ r' = {[ 1 := n1 ]}).
Proof.
  eexists _, (LRUKReplacer.mkNode [0; 3] true), (LRUKReplacer.mkNode [1; 2] true).
  split; [vm_compute; reflexivity|].
  repeat split; try (vm_compute; reflexivity);
    eexists; split; vm_compute; reflexivity.
Qed.

(** A second way in which [Evict] departs from the policy: a frame of
    infinite distance met after a frame of finite distance takes its place
    only if its first access is older than the front of that frame's
    history.  With [k = 2], frame 1 accessed at times 0 and 1 and frame 2
    at time 2, a traversal that meets frame 1 first evicts frame 1. *)
Lemma Evict_keeps_finite_victim :
  exists r n1 n2,
    replacer_112 = Ret r /\
    LRUKReplacer.node_store_ r = {[ 1 := n1; 2 := n2 ]} /\
    backward_k_distance r n1 = Some 3 /\
    backward_k_distance r n2 = None /\
    (exists r', LRUKReplacer.Evict [(1, n1); (2, n2)] r = Ret (Some 1, r')) /\
    (exists r', LRUKReplacer.Evict [(2, n2); (1, n1)] r = Ret (Some 2, r')).
Proof.
  eexists _, (LRUKReplacer.mkNode [0; 1] true), (LRUKReplacer.mkNode [2] true).
  split; [vm_compute; reflexivity|].
  repeat split; try (vm_compute; reflexivity); eexists; vm_compute; reflexivity.
Qed.

(** ** Replacer: [Size] counts the evictable frames *)

Section ReplacerFacts.
Import LRUKReplacer.

Lemma evictable_count_eq r : evictable_count r = count_of (node_store_ r).
Proof. done. Qed.

Lemma count_of_insert m f nd :
  count_of (<[f := nd]> m) = count_of (delete f m) + as_count (is_evictable_ nd).
Proof.
  unfold count_of. destruct (is_evictable_ nd) eqn:E; simpl.
  - rewrite map_filter_insert_True by done.
    rewrite <- insert_delete_eq, map_size_insert_None by apply lookup_delete_eq.
    rewrite map_filter_delete. lia.
  - rewrite map_filter_insert_False by (unfold evictable_entry; simpl; congruence).
    lia.
Qed.

Lemma count_of_lookup m f :
  count_of m =
  count_of (delete f m) +
  match m !! f with Some nd => as_count (is_evictable_ nd) | None => 0 end.
Proof.
  destruct (m !! f) as [nd|] eqn:E.
  - rewrite <- (insert_id m f nd) at 1 by done. apply count_of_insert.
  - rewrite delete_id by done. lia.
Qed.

Lemma count_of_nonneg m : 0 <= count_of m.
Proof. unfold count_of. lia. Qed.

(** At most [n] keys fit in a range of [n] integers. *)
Lemma size_in_range {A} (m : gmap Z A) lo n :
  0 <= n ->
  (forall f, is_Some (m !! f) -> lo <= f < lo + n) ->
  Z.of_nat (size m) <= n.
Proof.
  intros Hn Hdom.
  rewrite <- (size_dom (D := gset Z)).
  assert (dom m ⊆ list_to_set (C := gset Z) (seqZ lo n)) as Hsub.
  { intros f Hf. apply elem_of_dom in Hf.
    apply elem_of_list_to_set, elem_of_seqZ. by apply Hdom. }
  apply subseteq_size in Hsub.
  rewrite size_list_to_set in Hsub by apply NoDup_seqZ.
  rewrite length_seqZ in Hsub. lia.
Qed.

Lemma count_of_bound m : frames_typed m -> count_of m <= 2 ^ 32.
Proof.
  intros Hm. unfold count_of.
  apply (size_in_range _ (- 2 ^ 31)); [lia|].
  intros f [nd Hf]. apply map_lookup_filter_Some in Hf as [Hf _].
  specialize (Hm f (mk_is_Some _ _ Hf)). unfold frame_id_t in Hm. lia.
Qed.

Lemma frames_typed_insert m f nd :
  frames_typed m -> frame_id_t f -> frames_typed (<[f := nd]> m).
Proof.
  intros Hm Hf g Hg. destruct (decide (g = f)) as [->|Hne]; [done|].
  rewrite lookup_insert_ne in Hg by done. by apply Hm.
Qed.

Lemma frames_typed_delete m f : frames_typed m -> frames_typed (delete f m).
Proof.
  intros Hm g Hg. destruct (decide (g = f)) as [->|Hne].
  - rewrite lookup_delete_eq in Hg. by destruct Hg.
  - rewrite lookup_delete_ne in Hg by done. by apply Hm.
Qed.

Lemma Evict_body_victim r vars it vars' :
  node_store_ r !! it.1 = Some it.2 ->
  victim_ok r vars ->
  Evict_body r vars it = Ret vars' ->
  victim_ok r vars'.
Proof.
  intros Hit Hok. unfold Evict_body.
  destruct (is_evictable_ it.2) eqn:Hev; simpl; [|by intros [= <-]].
  assert (victim_ok r (mkVars true it.1 SIZE_MAX)) as Hnew1 by (intros _; eauto).
  case_match.
  - destruct (flag vars); simpl.
    + destruct (front (history_ it.2)); simpl; try done.
      destruct (at_ (node_store_ r) (victim_frame vars)); simpl; try done.
      destruct (front (history_ a0)); simpl; try done.
      case_match; by intros [= <-].
    + by intros [= <-].
  - destruct (back (history_ it.2)); simpl; try done.
    case_match; intros [= <-]; [|done]. intros _; eauto.
Qed.

Lemma Evict_loop_victim r order : forall vars vars',
  (forall it, it ∈ order -> node_store_ r !! it.1 = Some it.2) ->
  victim_ok r vars ->
  Evict_loop r order vars = Ret vars' ->
  victim_ok r vars'.
Proof.
  induction order as [|it rest IH]; intros vars vars' Hin Hok; simpl.
  - by intros [= <-].
  - destruct (Evict_body r vars it) as [vars1| |] eqn:Hbody; simpl; try done.
    apply IH.
    + intros it' Hit'. apply Hin. by right.
    + eapply Evict_body_victim; [|done|done]. apply Hin. by left.
Qed.

Lemma size_inv_new num_frames k : size_inv (new num_frames k).
Proof.
  split.
  - intros f Hf. simpl in Hf. rewrite lookup_empty in Hf. by destruct Hf.
  - done.
Qed.

Lemma size_inv_RecordAccess r f r' :
  size_inv r -> frame_id_t f -> RecordAccess r f = Ret r' -> size_inv r'.
Proof.
  intros [Hty Hsz] Hf. unfold RecordAccess.
  destruct (invalid_frame r f); [done|]. intros [= <-]. split; simpl.
  - by apply frames_typed_insert.
  - rewrite count_of_insert, Hsz, (count_of_lookup _ f). simpl.
    by destruct (node_store_ r !! f).
Qed.

Lemma size_inv_SetEvictable r f b r' :
  size_inv r -> frame_id_t f -> SetEvictable r f b = Ret r' -> size_inv r'.
Proof.
  intros [Hty Hsz] Hf. unfold SetEvictable.
  destruct (invalid_frame r f); [done|].
  destruct (node_store_ r !! f) as [nd|] eqn:E; [|by intros [= <-]].
  case_bool_decide as Hb; [by intros [= <-]|]. intros [= <-]. split; simpl.
  - by apply frames_typed_insert.
  - pose proof (count_of_bound _ Hty) as Hub.
    pose proof (count_of_nonneg (delete f (node_store_ r))) as Hlb.
    rewrite count_of_insert, Hsz. simpl.
    rewrite (count_of_lookup _ f), E in Hub |- *.
    destruct b, (is_evictable_ nd); simpl in *; try done;
      rewrite Z.mod_small; lia.
Qed.

Lemma size_inv_delete r nd f :
  size_inv r ->
  node_store_ r !! f = Some nd ->
  size_inv (mk (delete f (node_store_ r)) (current_timestamp_ r)
               (if is_evictable_ nd then (curr_size_ r - 1) mod 2 ^ 64
                else curr_size_ r)
               (replacer_size_ r) (k_ r)).
Proof.
  intros [Hty Hsz] E. split; simpl.
  - by apply frames_typed_delete.
  - pose proof (count_of_bound _ Hty) as Hub.
    pose proof (count_of_nonneg (delete f (node_store_ r))) as Hlb.
    rewrite Hsz. rewrite (count_of_lookup _ f), E in Hub |- *.
    destruct (is_evictable_ nd); simpl in *; [rewrite Z.mod_small|]; lia.
Qed.

Lemma size_inv_Remove r f r' :
  size_inv r -> Remove r f = Ret r' -> size_inv r'.
Proof.
  intros Hinv. unfold Remove.
  destruct (invalid_frame r f); [done|].
  destruct (node_store_ r !! f) as [nd|] eqn:E; intros [= <-]; [|done].
  by apply size_inv_delete.
Qed.

Lemma size_inv_Evict r order victim r' :
  size_inv r ->
  order ≡ₚ map_to_list (node_store_ r) ->
  Evict order r = Ret (victim, r') ->
  size_inv r'.
Proof.
  intros Hinv Hperm. unfold Evict.
  case_match; [by intros [= _ <-]|].
  destruct (Evict_loop r order _) as [vars| |] eqn:Hloop; simpl; try done.
  destruct (flag vars) eqn:Hflag; intros [= _ <-]; [|done].
  apply Evict_loop_victim in Hloop.
  - destruct (Hloop Hflag) as (nd & Hnd & Hev).
    pose proof (size_inv_delete r nd _ Hinv Hnd) as Hdel. by rewrite Hev in Hdel.
  - intros [f nd] Hit. rewrite Hperm in Hit. by apply elem_of_map_to_list in Hit.
  - by intros [=].
Qed.

Lemma reachable_size_inv num_frames k r : reachable num_frames k r -> size_inv r.
Proof.
  induction 1 as [|r f r' _ IH Hf Hop|r f b r' _ IH Hf Hop|r f r' _ IH Hf Hop
                 |r order victim r' _ IH Hperm Hop].
  - apply size_inv_new.
  - by eapply size_inv_RecordAccess.
  - by eapply size_inv_SetEvictable.
  - by eapply size_inv_Remove.
  - by eapply size_inv_Evict.
Qed.

Lemma history_inv_RecordAccess r f r' :
  history_inv r -> RecordAccess r f = Ret r' -> history_inv r'.
Proof.
  intros [Hk Hh]. unfold RecordAccess.
  destruct (invalid_frame r f); [done|]. intros [= <-]. split; [done|]. simpl.
  intros g nd. destruct (decide (g = f)) as [->|Hne].
  - rewrite lookup_insert_eq. intros [= <-]. simpl.
    set (h := history_ (default LRUKNode_new (node_store_ r !! f))).
    case_match eqn:Hlen; [|by destruct h].
    apply Z.ltb_lt in Hlen. rewrite length_app in Hlen. simpl in Hlen.
    destruct h as [|x [|y h]]; simpl in *; [lia|done|done].
  - rewrite lookup_insert_ne by done. apply Hh.
Qed.

Lemma history_inv_SetEvictable r f b r' :
  history_inv r -> SetEvictable r f b = Ret r' -> history_inv r'.
Proof.
  intros [Hk Hh]. unfold SetEvictable.
  destruct (invalid_frame r f); [done|].
  destruct (node_store_ r !! f) as [nd|] eqn:E; [|by intros [= <-]].
  case_bool_decide; intros [= <-]; [done|]. split; [done|]. simpl.
  intros g nd'. destruct (decide (g = f)) as [->|Hne].
  - rewrite lookup_insert_eq. intros [= <-]. simpl. by eapply Hh.
  - rewrite lookup_insert_ne by done. apply Hh.
Qed.

Lemma history_inv_delete r f cs :
  history_inv r ->
  history_inv (mk (delete f (node_store_ r)) (current_timestamp_ r) cs
                  (replacer_size_ r) (k_ r)).
Proof.
  intros [Hk Hh]. split; [done|]. simpl. intros g nd Hg.
  apply lookup_delete_Some in Hg as [_ Hg]. by eapply Hh.
Qed.

Lemma history_inv_Remove r f r' :
  history_inv r -> Remove r f = Ret r' -> history_inv r'.
Proof.
  intros Hinv. unfold Remove.
  destruct (invalid_frame r f); [done|].
  destruct (node_store_ r !! f) as [nd|] eqn:E; intros [= <-]; [|done].
  by apply history_inv_delete.
Qed.

Lemma history_inv_Evict r order victim r' :
  history_inv r -> Evict order r = Ret (victim, r') -> history_inv r'.
Proof.
  intros Hinv. unfold Evict.
  case_match; [by intros [= _ <-]|].
  destruct (Evict_loop r order _) as [vars| |]; simpl; try done.
  destruct (flag vars); intros [= _ <-]; [|done].
  by apply history_inv_delete.
Qed.

Lemma reachable_history_inv num_frames k r :
  1 <= k -> reachable num_frames k r -> history_inv r.
Proof.
  intros Hk. induction 1;
    eauto using history_inv_RecordAccess, history_inv_SetEvictable,
                history_inv_Remove, history_inv_Evict.
  split; [done|]. intros f nd. simpl. by rewrite lookup_empty.
Qed.

Lemma front_returns h : h ≠ [] -> exists x, front h = Ret x.
Proof. destruct h; [done|]. eauto. Qed.

Lemma back_returns h : h ≠ [] -> exists x, back h = Ret x.
Proof.
  intros Hh. unfold back. destruct (last h) eqn:E; [eauto|].
  by apply last_None in E.
Qed.

Lemma Evict_body_returns r vars it :
  history_inv r ->
  node_store_ r !! it.1 = Some it.2 ->
  victim_ok r vars ->
  exists vars', Evict_body r vars it = Ret vars'.
Proof.
  intros [Hk Hh] Hit Hok. unfold Evict_body.
  destruct (is_evictable_ it.2); simpl; [|eauto].
  case_match.
  - destruct (flag vars) eqn:Hflag; simpl; [|eauto].
    destruct (Hok Hflag) as (nd & Hnd & _).
    destruct (front_returns (history_ it.2)) as [a ->]; [by eapply Hh|].
    unfold at_. rewrite Hnd. simpl.
    destruct (front_returns (history_ nd)) as [b ->]; [by eapply Hh|].
    simpl. case_match; eauto.
  - destruct (back_returns (history_ it.2)) as [x ->]; [by eapply Hh|].
    simpl. case_match; eauto.
Qed.

Lemma Evict_loop_returns r order : forall vars,
  history_inv r ->
  (forall it, it ∈ order -> node_store_ r !! it.1 = Some it.2) ->
  victim_ok r vars ->
  exists vars', Evict_loop r order vars = Ret vars'.
Proof.
  induction order as [|it rest IH]; intros vars Hinv Hin Hok; simpl; [eauto|].
  assert (node_store_ r !! it.1 = Some it.2) as Hit by (apply Hin; by left).
  destruct (Evict_body_returns r vars it Hinv Hit Hok) as [vars1 Hbody].
  rewrite Hbody. simpl. apply IH; [done| |].
  - intros it' Hit'. apply Hin. by right.
  - by eapply Evict_body_victim.
Qed.

(** [Evict] returns in every reachable state, whatever the traversal. *)
Lemma reachable_Evict_returns num_frames k r order :
  1 <= k -> reachable num_frames k r ->
  order ≡ₚ map_to_list (node_store_ r) ->
  exists victim r', Evict order r = Ret (victim, r').
Proof.
  intros Hk Hr Hperm. unfold Evict. case_match; [eauto|].
  destruct (Evict_loop_returns r order (mkVars false INVALID_PAGE_ID 0))
    as [vars ->].
  - by eapply reachable_history_inv.
  - intros [f nd] Hit. rewrite Hperm in Hit. by apply elem_of_map_to_list in Hit.
  - by intros [=].
  - simpl. destruct (flag vars); eauto.
Qed.

End ReplacerFacts.

Lemma reachable_run num_frames k ops : forall r r',
  reachable num_frames k r ->
  Forall op_typed ops ->
  run r ops = Ret r' ->
  reachable num_frames k r'.
Proof.
  induction ops as [|o rest IH]; intros r r' Hr Hty; simpl.
  - by intros [= <-].
  - apply Forall_cons in Hty as [Ho Hrest].
    destruct (step r o) as [r1| |] eqn:Hstep; simpl; try done.
    apply IH; [|done]. destruct o; simpl in *.
    + by eapply reachable_RecordAccess.
    + by eapply reachable_SetEvictable.
    + by eapply reachable_Remove.
    + destruct (LRUKReplacer.Evict _ r) as [[victim r2]| |] eqn:HE;
        simpl in Hstep; try done.
      injection Hstep as <-. by eapply reachable_Evict.
Qed.

(** C5. In every state a replacer reaches through calls that return,
    [Size] is the number of tracked frames whose evictable flag is set. *)
Theorem Size_counts_evictable num_frames k r :
  reachable num_frames k r ->
  LRUKReplacer.Size r = LRUKReplacer.evictable_count r.
Proof.
  intros Hr. apply reachable_size_inv in Hr as [_ Hsz].
  by rewrite evictable_count_eq.
Qed.

Lemma Size_counts_evictable_witness :
  exists r, replacer_1221 = Ret r /\
            LRUKReplacer.Size r = LRUKReplacer.evictable_count r.
Proof.
  eexists. split; [vm_compute; reflexivity|].
  apply (Size_counts_evictable 7 2).
  apply (reachable_run 7 2
           [RecordAccessOp 1; RecordAccessOp 2; RecordAccessOp 2; RecordAccessOp 1;
            SetEvictableOp 1 true; SetEvictableOp 2 true]
           (LRUKReplacer.new 7 2)).
  - apply reachable_new.
  - repeat constructor; unfold frame_id_t; lia.
  - vm_compute. reflexivity.
Defined.

(** ** Replacer: [Remove] *)

(** C6, as stated, fails: [Remove] of a tracked frame that is not
    evictable returns, and the frame is no longer tracked. *)
Lemma Remove_non_evictable_returns :
  exists r r',
    replacer_1 = Ret r /\
    LRUKReplacer.is_evictable_ <$> LRUKReplacer.node_store_ r !! 1 = Some false /\
    LRUKReplacer.Remove r 1 = Ret r' /\
    LRUKReplacer.node_store_ r' !! 1 = None /\
    LRUKReplacer.Size r' = LRUKReplacer.Size r.
Proof.
  do 2 eexists. split; [vm_compute; reflexivity|].
  split; [vm_compute; reflexivity|].
  split; [vm_compute; reflexivity|].
  split; vm_compute; reflexivity.
Qed.

(** C6, amended. [Remove] throws [std::out_of_range] on a frame id at or
    above [replacer_size_], changes nothing on an untracked frame, and on
    a tracked frame returns with the frame forgotten, the other frames
    kept, and the size decremented exactly when the frame was evictable. *)
Theorem Remove_outcome r f :
  (LRUKReplacer.replacer_size_ r <= to_size_t f ->
   LRUKReplacer.Remove r f = Throw (out_of_range "Invalid frame_id")) /\
  (to_size_t f < LRUKReplacer.replacer_size_ r ->
   LRUKReplacer.node_store_ r !! f = None ->
   LRUKReplacer.Remove r f = Ret r) /\
  (to_size_t f < LRUKReplacer.replacer_size_ r ->
   forall nd, LRUKReplacer.node_store_ r !! f = Some nd ->
   exists r', LRUKReplacer.Remove r f = Ret r' /\
     LRUKReplacer.node_store_ r' !! f = None /\
     (forall g, g ≠ f ->
        LRUKReplacer.node_store_ r' !! g = LRUKReplacer.node_store_ r !! g) /\
     LRUKReplacer.Size r' =
       (if LRUKReplacer.is_evictable_ nd
        then (LRUKReplacer.Size r - 1) mod 2 ^ 64
        else LRUKReplacer.Size r)).
Proof.
  unfold LRUKReplacer.Remove, LRUKReplacer.invalid_frame.
  repeat split.
  - intros H. apply Z.leb_le in H. by rewrite H.
  - intros H E. apply Z.leb_gt in H. by rewrite H, E.
  - intros H nd E. apply Z.leb_gt in H. rewrite H, E.
    eexists. split; [done|]. simpl. split; [apply lookup_delete_eq|].
    split; [|done]. intros g Hg. by apply lookup_delete_ne.
Qed.

Lemma Remove_outcome_witness :
  exists r, replacer_1 = Ret r /\
  exists r', LRUKReplacer.Remove r 1 = Ret r' /\
     LRUKReplacer.node_store_ r' !! 1 = None /\
     (forall g, g ≠ 1 ->
        LRUKReplacer.node_store_ r' !! g = LRUKReplacer.node_store_ r !! g) /\
     LRUKReplacer.Size r' =
       (if LRUKReplacer.is_evictable_ (LRUKReplacer.mkNode [0] false)
        then (LRUKReplacer.Size r - 1) mod 2 ^ 64
        else LRUKReplacer.Size r).
Proof.
  eexists. split; [vm_compute; reflexivity|].
  apply (proj2 (proj2 (Remove_outcome _ 1))); vm_compute; reflexivity.
Defined.

(** ** Buffer pool: [UnpinPage], [FetchPage] on a resident page, flushing *)

Section BufferPoolFacts.
Import BufferPoolManager.

Lemma to_size_t_small f : 0 <= f < 2 ^ 31 -> to_size_t f = f.
Proof. intros Hf. unfold to_size_t. apply Z.mod_small. lia. Qed.

Lemma RecordAccess_returns r f :
  to_size_t f < LRUKReplacer.replacer_size_ r ->
  exists r', LRUKReplacer.RecordAccess r f = Ret r' /\
    LRUKReplacer.replacer_size_ r' = LRUKReplacer.replacer_size_ r.
Proof.
  intros Hf. unfold LRUKReplacer.RecordAccess, LRUKReplacer.invalid_frame.
  apply Z.leb_gt in Hf. rewrite Hf. eauto.
Qed.

(** [SetEvictable] on a frame the replacer accepts returns; a tracked
    frame then carries the flag, an untracked one stays untracked. *)
Lemma SetEvictable_returns r f flag :
  to_size_t f < LRUKReplacer.replacer_size_ r ->
  exists r', LRUKReplacer.SetEvictable r f flag = Ret r' /\
    LRUKReplacer.is_evictable_ <$> LRUKReplacer.node_store_ r' !! f =
    (fun _ => flag) <$> LRUKReplacer.node_store_ r !! f.
Proof.
  intros Hf. unfold LRUKReplacer.SetEvictable, LRUKReplacer.invalid_frame.
  apply Z.leb_gt in Hf. rewrite Hf.
  destruct (LRUKReplacer.node_store_ r !! f) as [nd|] eqn:E.
  - case_bool_decide as Hb; eexists; (split; [done|]); simpl.
    + by rewrite E; simpl; f_equal.
    + by rewrite lookup_insert_eq.
  - eexists. split; [done|]. by rewrite E.
Qed.

Lemma page_at_resident b f :
  0 <= f < Z.of_nat (length (pages_ b)) ->
  exists pg, pages_ b !! Z.to_nat f = Some pg /\
             forall held, page_at (set_latch b held) f = Ret pg.
Proof.
  intros Hf. destruct (lookup_lt_is_Some_2 (pages_ b) (Z.to_nat f)) as [pg Hpg]; [lia|].
  exists pg. split; [done|]. intros held. unfold page_at. simpl.
  case_match eqn:Hneg; [apply Z.ltb_lt in Hneg; lia|]. by rewrite Hpg.
Qed.

Lemma latch_round_trip b : latch_ b = false -> set_latch (set_latch b true) false = b.
Proof. destruct b. simpl. by intros ->. Qed.

End BufferPoolFacts.

(** C7. On a well-formed pool [UnpinPage] returns; it returns false exactly
    when the page id is the reserved one, the page is not resident, or the
    pin count of its frame is 0, and then changes nothing; otherwise the
    pin count drops by one, the dirty flag becomes the old flag or the
    hint, the replacer is told that the frame is evictable exactly when the
    pin count reached 0, and nothing else changes. *)
Theorem UnpinPage_spec b page_id is_dirty :
  well_formed b ->
  exists ok b', BufferPoolManager.UnpinPage b page_id is_dirty = Ret (ok, b') /\
    (ok = false <->
       page_id = INVALID_PAGE_ID \/
       BufferPoolManager.page_table_ b !! page_id = None \/
       exists f pg, BufferPoolManager.page_table_ b !! page_id = Some f /\
                    BufferPoolManager.pages_ b !! Z.to_nat f = Some pg /\
                    BufferPoolManager.pin_count_ pg = 0) /\
    (ok = false -> b' = b) /\
    (ok = true ->
       exists f pg,
         BufferPoolManager.page_table_ b !! page_id = Some f /\
         BufferPoolManager.pages_ b !! Z.to_nat f = Some pg /\
         BufferPoolManager.pages_ b' =
           <[Z.to_nat f :=
               BufferPoolManager.mkPage
                 (BufferPoolManager.data_ pg) (BufferPoolManager.page_id_ pg)
                 (BufferPoolManager.pin_count_ pg - 1)
                 (BufferPoolManager.is_dirty_ pg || is_dirty)]>
             (BufferPoolManager.pages_ b) /\
         (BufferPoolManager.pin_count_ pg = 1 ->
            LRUKReplacer.SetEvictable (BufferPoolManager.replacer_ b) f true
              = Ret (BufferPoolManager.replacer_ b') /\
            LRUKReplacer.is_evictable_ <$>
              LRUKReplacer.node_store_ (BufferPoolManager.replacer_ b') !! f =
            (fun _ => true) <$>
              LRUKReplacer.node_store_ (BufferPoolManager.replacer_ b) !! f) /\
         (BufferPoolManager.pin_count_ pg ≠ 1 ->
            BufferPoolManager.replacer_ b' = BufferPoolManager.replacer_ b) /\
         BufferPoolManager.page_table_ b' = BufferPoolManager.page_table_ b /\
         BufferPoolManager.free_list_ b' = BufferPoolManager.free_list_ b /\
         BufferPoolManager.disk_manager_ b' = BufferPoolManager.disk_manager_ b /\
         BufferPoolManager.latch_ b' = false).
Proof.
  intros (Hlatch & Hinvalid & Hframes & Hpins).
  unfold BufferPoolManager.UnpinPage.
  destruct (page_id =? INVALID_PAGE_ID) eqn:Hid.
  { apply Z.eqb_eq in Hid. exists false, b. repeat split; auto; done. }
  apply Z.eqb_neq in Hid.
  pose proof (latch_round_trip b Hlatch) as Hfree.
  unfold BufferPoolManager.set_latch in Hfree. simpl in Hfree.
  unfold BufferPoolManager.with_latch. rewrite Hlatch. simpl.
  destruct (BufferPoolManager.page_table_ b !! page_id) as [f|] eqn:Hpt; simpl.
  2:{ exists false, b. rewrite ?(latch_round_trip b), ?Hfree by done. repeat split; auto; done. }
  destruct (Hframes _ _ Hpt) as (Hf & Hlen & Hrep).
  destruct (page_at_resident b f) as (pg & Hpg & Hat); [lia|].
  rewrite Hat. simpl.
  assert (0 <= BufferPoolManager.pin_count_ pg) as Hpin
    by (apply Hpins; by eapply list_elem_of_lookup_2).
  destruct (BufferPoolManager.pin_count_ pg <=? 0) eqn:Hle.
  { apply Z.leb_le in Hle. exists false, b. simpl.
    rewrite ?(latch_round_trip b), ?Hfree by done.
    split; [done|]. split; [|split; done].
    split; [|done]. intros _. right. right. exists f, pg. repeat split; [done|lia]. }
  apply Z.leb_gt in Hle.
  destruct (BufferPoolManager.pin_count_ pg - 1 =? 0) eqn:Hzero.
  - apply Z.eqb_eq in Hzero.
    destruct (SetEvictable_returns (BufferPoolManager.replacer_ b) f true)
      as (r' & Hset & Hflag); [by rewrite to_size_t_small|].
    rewrite Hset. simpl. eexists true, _. split; [done|].
    split; [|split; [done|]].
    { split; [done|]. intros [?|[?|(f' & pg' & ? & ? & ?)]]; simplify_eq; lia. }
    intros _. exists f, pg. simpl. repeat split; try done. lia.
  - apply Z.eqb_neq in Hzero. simpl. eexists true, _. split; [done|].
    split; [|split; [done|]].
    { split; [done|]. intros [?|[?|(f' & pg' & ? & ? & ?)]]; simplify_eq; lia. }
    intros _. exists f, pg. simpl. repeat split; try done; lia.
Qed.

Lemma pool_one_page_returns : pool_one_page = Ret pool_one_page_state.
Proof. vm_compute. reflexivity. Qed.

Lemma pool_one_page_well_formed : well_formed pool_one_page_state.
Proof.
  split; [reflexivity|]. split; [reflexivity|]. split.
  - intros p f Hpf. simpl in Hpf.
    apply lookup_singleton_Some in Hpf as [<- <-]. simpl. lia.
  - intros pg Hpg. simpl in Hpg.
    repeat (apply elem_of_cons in Hpg as [->|Hpg]; [simpl; lia|]).
    by apply elem_of_nil in Hpg.
Defined.

Lemma UnpinPage_spec_witness :
  well_formed pool_one_page_state /\
  exists ok b',
    BufferPoolManager.UnpinPage pool_one_page_state 0 true = Ret (ok, b').
Proof.
  split; [apply pool_one_page_well_formed|].
  destruct (UnpinPage_spec pool_one_page_state 0 true pool_one_page_well_formed)
    as (ok & b' & Hret & _).
  by exists ok, b'.
Defined.

(** C10. On a well-formed pool, [FetchPage] of a resident page returns its
    frame; the disk manager (stored bytes and request log), the page
    table and the free list are as before, the frame keeps its bytes, its
    page id and its dirty flag and has its pin count raised by one, no
    other frame changes, and the replacer has recorded an access to the
    frame and then been told that it is not evictable. *)
Theorem FetchPage_resident order b page_id f :
  well_formed b ->
  BufferPoolManager.page_table_ b !! page_id = Some f ->
  exists pg r b',
    BufferPoolManager.pages_ b !! Z.to_nat f = Some pg /\
    BufferPoolManager.FetchPage order b page_id = Ret (Some f, b') /\
    BufferPoolManager.disk_manager_ b' = BufferPoolManager.disk_manager_ b /\
    BufferPoolManager.page_table_ b' = BufferPoolManager.page_table_ b /\
    BufferPoolManager.free_list_ b' = BufferPoolManager.free_list_ b /\
    BufferPoolManager.pages_ b' =
      <[Z.to_nat f :=
          BufferPoolManager.mkPage
            (BufferPoolManager.data_ pg) (BufferPoolManager.page_id_ pg)
            (BufferPoolManager.pin_count_ pg + 1) (BufferPoolManager.is_dirty_ pg)]>
        (BufferPoolManager.pages_ b) /\
    LRUKReplacer.RecordAccess (BufferPoolManager.replacer_ b) f = Ret r /\
    LRUKReplacer.SetEvictable r f false = Ret (BufferPoolManager.replacer_ b') /\
    BufferPoolManager.pool_size_ b' = BufferPoolManager.pool_size_ b /\
    BufferPoolManager.next_page_id_ b' = BufferPoolManager.next_page_id_ b /\
    BufferPoolManager.latch_ b' = false.
Proof.
  intros (Hlatch & Hinvalid & Hframes & Hpins) Hpt.
  destruct (Hframes _ _ Hpt) as (Hf & Hlen & Hrep).
  destruct (page_at_resident b f) as (pg & Hpg & Hat); [lia|].
  destruct (RecordAccess_returns (BufferPoolManager.replacer_ b) f)
    as (r & Hrec & Hsize); [by rewrite to_size_t_small|].
  destruct (SetEvictable_returns r f false) as (r' & Hset & _);
    [by rewrite Hsize, to_size_t_small|].
  exists pg, r. unfold BufferPoolManager.FetchPage.
  destruct (page_id =? INVALID_PAGE_ID) eqn:Hid.
  { apply Z.eqb_eq in Hid. congruence. }
  unfold BufferPoolManager.with_latch. rewrite Hlatch. simpl.
  rewrite Hpt, Hat. simpl. rewrite Hrec. simpl. rewrite Hset. simpl.
  eexists. split; [done|]. split; [done|]. simpl. repeat split; done.
Qed.

Lemma FetchPage_resident_witness :
  well_formed pool_one_page_state /\
  BufferPoolManager.page_table_ pool_one_page_state !! 0 = Some 1 /\
  exists b',
    BufferPoolManager.FetchPage [] pool_one_page_state 0 = Ret (Some 1, b') /\
    BufferPoolManager.disk_manager_ b' =
    BufferPoolManager.disk_manager_ pool_one_page_state.
Proof.
  split; [apply pool_one_page_well_formed|]. split; [reflexivity|].
  destruct (FetchPage_resident [] pool_one_page_state 0 1
              pool_one_page_well_formed eq_refl)
    as (pg & r & b' & _ & Hret & Hdisk & _).
  by exists b'.
Defined.

(** [FlushPage] on its own writes the bytes of a resident page and clears
    the dirty flag of its frame. *)
Lemma FlushPage_resident b page_id f :
  well_formed b ->
  BufferPoolManager.page_table_ b !! page_id = Some f ->
  exists pg b',
    BufferPoolManager.pages_ b !! Z.to_nat f = Some pg /\
    BufferPoolManager.FlushPage b page_id = Ret (true, b') /\
    BufferPoolManager.disk_manager_ b' =
      BufferPoolManager.WritePage (BufferPoolManager.disk_manager_ b) page_id
        (BufferPoolManager.data_ pg) /\
    BufferPoolManager.is_dirty_ <$> BufferPoolManager.pages_ b' !! Z.to_nat f
      = Some false.
Proof.
  intros (Hlatch & Hinvalid & Hframes & Hpins) Hpt.
  destruct (Hframes _ _ Hpt) as (Hf & Hlen & Hrep).
  destruct (page_at_resident b f) as (pg & Hpg & Hat); [lia|].
  exists pg. unfold BufferPoolManager.FlushPage, BufferPoolManager.with_latch.
  rewrite Hlatch. simpl. rewrite Hpt, Hat. simpl.
  eexists. split; [done|]. split; [done|]. simpl. split; [done|].
  rewrite list_lookup_insert_eq by lia. done.
Qed.

(** With a resident page, [FlushAllPages] takes the latch and then calls
    [FlushPage], which takes it again. *)
Lemma FlushAllPages_relocks order b :
  BufferPoolManager.latch_ b = false ->
  order ≠ [] ->
  BufferPoolManager.FlushAllPages order b = Fault MutexRelock.
Proof.
  intros Hlatch Horder. destruct order as [|page rest]; [done|].
  unfold BufferPoolManager.FlushAllPages, BufferPoolManager.with_latch.
  by rewrite Hlatch.
Qed.

(** C8. On the pool that holds page 0 in frame 1, [FlushAllPages] does not
    run to completion: it locks [latch_] and calls [FlushPage], which locks
    [latch_] again; nothing reaches the disk.  [FlushPage] called on its
    own for that page returns. *)
Theorem FlushAllPages_one_page :
  pool_one_page = Ret pool_one_page_state /\
  map_to_list (BufferPoolManager.page_table_ pool_one_page_state) = [(0, 1)] /\
  BufferPoolManager.FlushAllPages [(0, 1)] pool_one_page_state
    = Fault MutexRelock /\
  returns (BufferPoolManager.FlushPage pool_one_page_state 0) = true.
Proof.
  split; [apply pool_one_page_returns|].
  split; [vm_compute; reflexivity|].
  split; [by apply FlushAllPages_relocks|].
  vm_compute. reflexivity.
Qed.


(** ** Buffer pool: the well-formed states are the ones the pool is in *)

Section PoolInvariant.
Import BufferPoolManager.

Lemma keys_in_RecordAccess r f r' n :
  keys_in r n -> 0 <= f < n ->
  LRUKReplacer.RecordAccess r f = Ret r' -> keys_in r' n.
Proof.
  intros [Hn Hk] Hf. unfold LRUKReplacer.RecordAccess.
  destruct (LRUKReplacer.invalid_frame r f); [done|]. intros [= <-].
  split; [done|]. simpl. intros g Hg.
  apply lookup_insert_is_Some in Hg as [<-|[_ Hg]]; auto.
Qed.

Lemma keys_in_SetEvictable r f flag r' n :
  keys_in r n -> LRUKReplacer.SetEvictable r f flag = Ret r' -> keys_in r' n.
Proof.
  intros [Hn Hk]. unfold LRUKReplacer.SetEvictable.
  destruct (LRUKReplacer.invalid_frame r f); [done|].
  destruct (LRUKReplacer.node_store_ r !! f) as [nd|] eqn:E; [|by intros [= <-]].
  case_bool_decide; intros [= <-]; [done|].
  split; [done|]. simpl. intros g Hg.
  apply lookup_insert_is_Some in Hg as [<-|[_ Hg]]; auto.
Qed.

Lemma keys_in_Evict order r victim r' n :
  keys_in r n ->
  order ≡ₚ map_to_list (LRUKReplacer.node_store_ r) ->
  LRUKReplacer.Evict order r = Ret (victim, r') ->
  keys_in r' n /\ forall f, victim = Some f -> 0 <= f < n.
Proof.
  intros [Hn Hk] Hperm. unfold LRUKReplacer.Evict.
  case_match; [by intros [= <- <-]|].
  destruct (LRUKReplacer.Evict_loop r order _) as [vars| |] eqn:Hloop;
    simpl; try done.
  destruct (LRUKReplacer.flag vars) eqn:Hflag; intros [= <- <-]; [|done].
  apply Evict_loop_victim in Hloop.
  - destruct (Hloop Hflag) as (nd & Hnd & _). split.
    + split; [done|]. simpl. intros g Hg.
      apply lookup_delete_is_Some in Hg as [_ Hg]. auto.
    + intros f [= <-]. apply Hk. by rewrite Hnd.
  - intros [f nd] Hit. rewrite Hperm in Hit. by apply elem_of_map_to_list in Hit.
  - by intros [=].
Qed.

Lemma elem_of_insert_inv {A} (l : list A) i x y :
  y ∈ <[i := x]> l -> y = x \/ y ∈ l.
Proof.
  intros Hy. apply list_elem_of_lookup_1 in Hy as [j Hj].
  apply list_lookup_insert_Some in Hj as [(_ & -> & _)|[_ Hj]]; [by left|].
  right. by eapply list_elem_of_lookup_2.
Qed.

Lemma pool_inv_new pool_size disk_manager replacer_k :
  0 <= pool_size < 2 ^ 31 ->
  pool_inv (BufferPoolManager.new pool_size disk_manager replacer_k).
Proof.
  intros Hsz. unfold pool_inv, well_formed, keys_in. simpl.
  rewrite length_replicate, Z2Nat.id by lia.
  split; [split; [done|split; [done|split]]|split; [done|split; [lia|split; [split|]]]].
  - intros p f Hpf. by rewrite lookup_empty in Hpf.
  - intros pg Hpg. apply elem_of_replicate_inv in Hpg as ->. simpl. lia.
  - done.
  - intros f Hf. rewrite lookup_empty in Hf. by destruct Hf.
  - intros f Hf. apply elem_of_seqZ in Hf. lia.
Qed.

(** Opening the invariant of a state given by its fields. *)
Ltac open_pool_inv H :=
  unfold pool_inv, well_formed in H; simpl in H;
  destruct H as ((Hlatch & Hinvalid & Hframes & Hpins) & Hnext & Hlen & Hkeys & Hfree);
  try subst; try clear Hlatch.

Ltac close_pool_inv :=
  unfold pool_inv, well_formed; simpl;
  repeat match goal with |- _ /\ _ => split end; try done.

Lemma pool_inv_UnpinPage b page_id is_dirty ok b' :
  pool_inv b -> UnpinPage b page_id is_dirty = Ret (ok, b') -> pool_inv b'.
Proof.
  intros Hinv. pose proof Hinv as Hb.
  destruct b as [sz ps pt fl r n d l]. open_pool_inv Hinv.
  unfold UnpinPage, with_latch, page_at. simpl.
  case_match; [by intros [= _ <-]|].
  destruct (pt !! page_id) as [f|] eqn:Hpt; simpl; [|by intros [= _ <-]].
  destruct (Hframes _ _ Hpt) as (Hf & Hfl & Hfr).
  case_match eqn:Hneg; [apply Z.ltb_lt in Hneg; lia|].
  destruct (ps !! Z.to_nat f) as [pg|] eqn:Hpg; simpl; [|done].
  case_match eqn:Hle; simpl; [by intros [= _ <-]|]. apply Z.leb_gt in Hle.
  destruct (if _ =? 0 then _ else _) as [r'| |] eqn:Hr; simpl; try done.
  intros [= _ <-].
  assert (keys_in r' (Z.of_nat (length ps)) /\
          LRUKReplacer.replacer_size_ r' = LRUKReplacer.replacer_size_ r)
    as [Hkeys' Hsize'].
  { case_match; [|by injection Hr as <-].
    pose proof (keys_in_SetEvictable _ _ _ _ _ Hkeys Hr) as Hk'.
    split; [done|]. destruct Hkeys as [-> _]. by destruct Hk' as [-> _]. }
  close_pool_inv; rewrite ?length_insert; try done.
  - intros p f' Hp. rewrite Hsize'. by apply Hframes in Hp.
  - intros pg' Hpg'. apply elem_of_insert_inv in Hpg' as [->|Hpg']; [simpl; lia|].
    by apply Hpins.
Qed.

Lemma pool_inv_FlushPage b page_id ok b' :
  pool_inv b -> FlushPage b page_id = Ret (ok, b') -> pool_inv b'.
Proof.
  intros Hinv. pose proof Hinv as Hb.
  destruct b as [sz ps pt fl r n d l]. open_pool_inv Hinv.
  unfold FlushPage, with_latch, page_at. simpl.
  destruct (pt !! page_id) as [f|] eqn:Hpt; simpl; [|by intros [= _ <-]].
  destruct (Hframes _ _ Hpt) as (Hf & Hfl & Hfr).
  case_match eqn:Hneg; [apply Z.ltb_lt in Hneg; lia|].
  destruct (ps !! Z.to_nat f) as [pg|] eqn:Hpg; simpl; [|done].
  intros [= _ <-].
  close_pool_inv; rewrite ?length_insert; try done.
  intros pg' Hpg'. apply elem_of_insert_inv in Hpg' as [->|Hpg']; [simpl|by apply Hpins].
  apply Hpins. by eapply list_elem_of_lookup_2.
Qed.

Lemma emplace_lookup_ne pt p f q : q ≠ p -> emplace pt p f !! q = pt !! q.
Proof.
  intros Hq. unfold emplace. destruct (pt !! p); [done|].
  by rewrite lookup_insert_ne.
Qed.

Lemma emplace_lookup_Some pt p f q g :
  emplace pt p f !! q = Some g -> (q = p /\ g = f) \/ pt !! q = Some g.
Proof.
  unfold emplace. destruct (pt !! p) eqn:E; [by right|].
  intros Hq. apply lookup_insert_Some in Hq as [[<- <-]|[_ Hq]]; auto.
Qed.

(** The three facts to re-establish once a page has been installed in a
    frame: the page table, which lost the old occupant and gained the new
    page, and the pin counts. *)
Ltac after_install Hframes Hpins :=
  lazymatch goal with
  | |- emplace _ _ _ !! INVALID_PAGE_ID = None =>
      rewrite emplace_lookup_ne
        by (first [unfold INVALID_PAGE_ID; lia | congruence]);
      apply lookup_delete_None; by right
  | |- forall p f, emplace _ _ _ !! p = Some f -> _ =>
      let Hp := fresh "Hp" in
      intros ? ? Hp; simpl in *;
      repeat match goal with H : keys_in _ _ |- _ => destruct H as [? _] end;
      apply emplace_lookup_Some in Hp as [[-> ->]|Hp]; [lia|];
      apply lookup_delete_Some in Hp as [_ Hp];
      apply Hframes in Hp; lia
  | |- forall pg, pg ∈ <[_ := _]> _ -> _ =>
      let Hpg := fresh "Hpg" in
      intros ? Hpg; apply elem_of_insert_inv in Hpg as [->|Hpg];
      [simpl; lia | by apply Hpins]
  end.

(** The frame [NewPage] and [FetchPage] pick is a frame of the pool. *)
Lemma pick_frame_inv order sz ps pt fl r n d picked b1 :
  pool_inv (mk sz ps pt fl r n d false) ->
  order ≡ₚ map_to_list (LRUKReplacer.node_store_ r) ->
  pick_frame order (mk sz ps pt fl r n d true) = Ret (picked, b1) ->
  exists fl' r',
    b1 = mk sz ps pt fl' r' n d true /\
    pool_inv (mk sz ps pt fl' r' n d false) /\
    forall f, picked = Some f -> 0 <= f < Z.of_nat (length ps).
Proof.
  intros Hinv Hperm. pose proof Hinv as Hb. open_pool_inv Hinv.
  unfold pick_frame. simpl. case_match.
  { intros [= <- <-]. by exists fl, r. }
  destruct (last fl) as [f|] eqn:Hlast.
  - intros [= <- <-]. exists (take (length fl - 1) fl), r.
    split; [done|]. split.
    + close_pool_inv. intros g Hg. apply Hfree. by eapply subseteq_take.
    + intros g [= <-]. apply Hfree. by eapply last_Some_elem_of.
  - destruct (LRUKReplacer.Evict order r) as [[victim r']| |] eqn:HE;
      simpl; try done.
    intros [= <- <-]. exists fl, r'.
    destruct (keys_in_Evict _ _ _ _ _ Hkeys Hperm HE) as [Hkeys' Hvictim].
    split; [done|]. split; [|done].
    close_pool_inv. intros p f Hp. destruct Hkeys' as [-> _].
    apply Hframes in Hp. lia.
Qed.

Lemma pool_inv_NewPage order b res b' :
  pool_inv b ->
  order ≡ₚ map_to_list (LRUKReplacer.node_store_ (replacer_ b)) ->
  NewPage order b = Ret (res, b') ->
  pool_inv b'.
Proof.
  intros Hinv Hperm. destruct b as [sz ps pt fl r n d l].
  assert (l = false) as -> by (by destruct Hinv as ((? & _) & _)).
  unfold NewPage, with_latch. simpl in *.
  destruct (pick_frame order _) as [[picked b1]| |] eqn:Hpick; simpl; try done.
  apply pick_frame_inv in Hpick as (fl' & r' & -> & Hinv1 & Hpicked); [|done|done].
  destruct picked as [f|]; simpl; [|by intros [= _ <-]].
  specialize (Hpicked f eq_refl). open_pool_inv Hinv1.
  unfold page_at. simpl.
  case_match eqn:Hneg; [apply Z.ltb_lt in Hneg; lia|].
  destruct (ps !! Z.to_nat f) as [pg|] eqn:Hpg; simpl; [|done].
  unfold write_back.
  destruct (is_dirty_ pg); simpl;
    (destruct (LRUKReplacer.SetEvictable r' f false) as [r1| |] eqn:H1;
       simpl; try done);
    (destruct (LRUKReplacer.RecordAccess r1 f) as [r2| |] eqn:H2;
       simpl; try done);
    intros [= _ <-];
    pose proof (keys_in_SetEvictable _ _ _ _ _ Hkeys H1) as Hkeys1;
    pose proof (keys_in_RecordAccess _ _ _ _ Hkeys1 Hpicked H2) as Hkeys2;
    close_pool_inv; rewrite ?length_insert; try done; try lia.
  all: after_install Hframes Hpins.
Qed.

Lemma pool_inv_FetchPage order b page_id res b' :
  pool_inv b ->
  order ≡ₚ map_to_list (LRUKReplacer.node_store_ (replacer_ b)) ->
  FetchPage order b page_id = Ret (res, b') ->
  pool_inv b'.
Proof.
  intros Hinv Hperm. destruct b as [sz ps pt fl r n d l].
  assert (l = false) as -> by (by destruct Hinv as ((? & _) & _)).
  unfold FetchPage, with_latch. simpl in *.
  case_match eqn:Hid; [by intros [= _ <-]|]. apply Z.eqb_neq in Hid.
  destruct (pt !! page_id) as [f|] eqn:Hpt; simpl.
  - open_pool_inv Hinv. destruct (Hframes _ _ Hpt) as (Hf & Hfl & Hfr).
    unfold page_at. simpl.
    case_match eqn:Hneg; [apply Z.ltb_lt in Hneg; lia|].
    destruct (ps !! Z.to_nat f) as [pg|] eqn:Hpg; simpl; [|done].
    destruct (LRUKReplacer.RecordAccess r f) as [r1| |] eqn:H1; simpl; try done.
    destruct (LRUKReplacer.SetEvictable r1 f false) as [r2| |] eqn:H2;
      simpl; try done.
    intros [= _ <-].
    assert (0 <= f < Z.of_nat (length ps)) as Hfp by lia.
    pose proof (keys_in_RecordAccess _ _ _ _ Hkeys Hfp H1) as Hkeys1.
    pose proof (keys_in_SetEvictable _ _ _ _ _ Hkeys1 H2) as Hkeys2.
    close_pool_inv; rewrite ?length_insert; try done.
    + intros p f' Hp. destruct Hkeys2 as [-> _]. apply Hframes in Hp. lia.
    + intros pg' Hpg'. apply elem_of_insert_inv in Hpg' as [->|Hpg'];
        [simpl|by apply Hpins].
      assert (0 <= pin_count_ pg) by (apply Hpins; by eapply list_elem_of_lookup_2).
      lia.
  - destruct (pick_frame order _) as [[picked b1]| |] eqn:Hpick; simpl; try done.
    apply pick_frame_inv in Hpick as (fl' & r' & -> & Hinv1 & Hpicked); [|done|done].
    destruct picked as [f|]; simpl; [|by intros [= _ <-]].
    specialize (Hpicked f eq_refl). open_pool_inv Hinv1.
    unfold page_at. simpl.
    case_match eqn:Hneg; [apply Z.ltb_lt in Hneg; lia|].
    destruct (ps !! Z.to_nat f) as [pg|] eqn:Hpg; simpl; [|done].
    unfold write_back.
    destruct (is_dirty_ pg); simpl;
      (destruct (LRUKReplacer.RecordAccess r' f) as [r1| |] eqn:H1;
         simpl; try done);
      (destruct (LRUKReplacer.SetEvictable r1 f false) as [r2| |] eqn:H2;
         simpl; try done);
      intros [= _ <-];
      pose proof (keys_in_RecordAccess _ _ _ _ Hkeys Hpicked H1) as Hkeys1;
      pose proof (keys_in_SetEvictable _ _ _ _ _ Hkeys1 H2) as Hkeys2;
      close_pool_inv; rewrite ?length_insert; try done; try lia.
    all: after_install Hframes Hpins.
Qed.

Lemma keys_in_Remove r f r' n :
  keys_in r n -> LRUKReplacer.Remove r f = Ret r' -> keys_in r' n.
Proof.
  intros [Hn Hk]. unfold LRUKReplacer.Remove.
  destruct (LRUKReplacer.invalid_frame r f); [done|].
  destruct (LRUKReplacer.node_store_ r !! f); intros [= <-]; [|done].
  split; [done|]. simpl. intros g Hg.
  apply lookup_delete_is_Some in Hg as [_ Hg]. auto.
Qed.

Lemma pool_inv_DeletePage b page_id ok b' :
  pool_inv b -> DeletePage b page_id = Ret (ok, b') -> pool_inv b'.
Proof.
  intros Hinv. pose proof Hinv as Hb.
  destruct b as [sz ps pt fl r n d l]. open_pool_inv Hinv.
  unfold DeletePage, with_latch, page_at. simpl.
  destruct (pt !! page_id) as [f|] eqn:Hpt; simpl; [|by intros [= _ <-]].
  destruct (Hframes _ _ Hpt) as (Hf & Hfl & Hfr).
  case_match eqn:Hneg; [apply Z.ltb_lt in Hneg; lia|].
  destruct (ps !! Z.to_nat f) as [pg|] eqn:Hpg; simpl; [|done].
  case_match eqn:Hpin; simpl; [by intros [= _ <-]|].
  destruct (LRUKReplacer.Remove r f) as [r'| |] eqn:Hr; simpl; try done.
  intros [= _ <-].
  pose proof (keys_in_Remove _ _ _ _ Hkeys Hr) as Hkeys'.
  close_pool_inv; rewrite ?length_insert; try done.
  - by apply lookup_delete_None; right.
  - intros p f' Hp. apply lookup_delete_Some in Hp as [_ Hp].
    destruct Hkeys' as [-> _]. apply Hframes in Hp. lia.
  - intros pg' Hpg'. apply elem_of_insert_inv in Hpg' as [->|Hpg'];
      [simpl; lia|by apply Hpins].
  - intros g Hg. apply elem_of_app in Hg as [Hg|Hg]; [by apply Hfree|].
    apply list_elem_of_singleton in Hg as ->. lia.
Qed.

(** Every state a pool of fewer than [2^31] frames reaches is well
    formed: the theorems on [UnpinPage] and [FetchPage] apply to it. *)
Lemma pool_reachable_well_formed pool_size replacer_k b :
  0 <= pool_size < 2 ^ 31 ->
  pool_reachable pool_size replacer_k b ->
  well_formed b.
Proof.
  intros Hsz Hb. cut (pool_inv b); [by intros [? _]|].
  induction Hb as [d|order b res b' _ IH Hperm Hop|order b p res b' _ IH Hperm Hop
                  |b p dirty ok b' _ IH Hop|b p ok b' _ IH Hop|b p ok b' _ IH Hop].
  - by apply pool_inv_new.
  - by eapply pool_inv_NewPage.
  - by eapply pool_inv_FetchPage.
  - by eapply pool_inv_UnpinPage.
  - by eapply pool_inv_FlushPage.
  - by eapply pool_inv_DeletePage.
Qed.

End PoolInvariant.


(** * Further properties of the trie *)

Section TrieMore.
Import Trie.

(** X1. Where [Put] is defined (a non-empty key, or a trie with a root) it
    returns a trie in which [Get] at the type of the value finds the value
    under the key. *)
Theorem Put_Get_round_trip T trie key (v : payload T) :
  is_Some (root_ trie) \/ key ≠ EmptyString ->
  exists trie', Put T trie key v = Ret trie' /\ Get T trie' key = Some v.
Proof.
  intros Hdef. destruct (Put_lookup T trie key v Hdef) as (trie' & HP & HL).
  exists trie'. split; [done|].
  by rewrite Get_lookup, HL, decide_True, <- (value_as_make_shared T v).
Qed.

Lemma Put_Get_round_trip_witness :
  exists trie', Put std_string (Trie.mk None) "key" "value" = Ret trie' /\
                Get std_string trie' "key" = Some "value"%string.
Proof.
  apply (Put_Get_round_trip std_string (Trie.mk None) "key" "value"%string).
  right. discriminate.
Defined.

Lemma Put_defined T trie key (v : payload T) trie' :
  Put T trie key v = Ret trie' -> is_Some (root_ trie) \/ key ≠ EmptyString.
Proof.
  intros HP. destruct key; [|by right]. left.
  destruct trie as [[root|]]; [done|discriminate].
Qed.

(** X2. [Put] changes nothing under any other key: [Get], at every type,
    answers there as it did on the trie [Put] was called on. *)
Theorem Put_keeps_other_keys T U trie key (v : payload T) trie' key' :
  Put T trie key v = Ret trie' ->
  key' ≠ key ->
  Get U trie' key' = Get U trie key'.
Proof.
  intros HP Hne.
  destruct (Put_lookup T trie key v (Put_defined _ _ _ _ _ HP))
    as (trie2 & HP2 & HL).
  assert (trie2 = trie') as -> by congruence.
  by rewrite !Get_lookup, HL, decide_False.
Qed.

Lemma Put_keeps_other_keys_witness :
  Get uint32_t
    (Trie.mk (Some (PutCycle (PutCycle (Node ∅ None) "a" "" (VUInt32 1))
                             "b" "" (VUInt64 2))))
    "a"
  = Get uint32_t (Trie.mk (Some (PutCycle (Node ∅ None) "a" "" (VUInt32 1)))) "a".
Proof.
  apply (Put_keeps_other_keys uint64_t uint32_t
           (Trie.mk (Some (PutCycle (Node ∅ None) "a" "" (VUInt32 1)))) "b" 2).
  - vm_compute. reflexivity.
  - discriminate.
Defined.

(** X3. After [Remove] of a key, [Get] finds nothing under that key and
    answers under every other key as before. *)
Theorem Remove_Get T trie key key' :
  Get T (Remove trie key) key' =
  if decide (key' = key) then None else Get T trie key'.
Proof.
  rewrite !Get_lookup, Remove_lookup. by case_decide.
Qed.

(** [RemoveCycle] reports success only where the key holds a value. *)
Lemma RemoveCycle_true rest : forall c n,
  (RemoveCycle n c rest).1 = true ->
  is_Some (value_at (Some n) (String c rest)).
Proof.
  induction rest as [|c' rest' IH]; intros c n; simpl;
    rewrite value_at_cons;
    (destruct (children_ n !! c) as [child|] eqn:E; [|done]).
  - unfold is_value_node_. rewrite value_at_nil. simpl.
    destruct (value_ child); simpl; [eauto|done].
  - specialize (IH c' (Clone child)). rewrite Clone_same in *.
    destruct (RemoveCycle child c' rest') as [[|] ptr]; simpl in *; [auto|done].
Qed.

(** X4. [Remove] of a key that holds no value returns the very trie it
    was called on. *)
Theorem Remove_absent_key trie key :
  lookup trie key = None -> Remove trie key = trie.
Proof.
  unfold lookup, Remove. intros Hnone.
  destruct (root_ trie) as [root|] eqn:Hroot; [|done].
  destruct key as [|c rest].
  - rewrite value_at_nil in Hnone. simpl in Hnone.
    unfold is_value_node_. by rewrite Hnone.
  - pose proof (RemoveCycle_true rest c (Clone root)) as Htrue.
    rewrite Clone_same in *.
    destruct (RemoveCycle root c rest) as [[|] new_root]; simpl in *; [|done].
    rewrite Hnone in Htrue. by destruct Htrue.
Qed.

Lemma Remove_absent_key_witness :
  Remove (Trie.mk (Some (PutCycle (Node ∅ None) "a" "b" (VUInt32 1)))) "a"
  = Trie.mk (Some (PutCycle (Node ∅ None) "a" "b" (VUInt32 1))).
Proof.
  apply (Remove_absent_key
           (Trie.mk (Some (PutCycle (Node ∅ None) "a" "b" (VUInt32 1)))) "a").
  vm_compute. reflexivity.
Defined.

Lemma pruned_from_node n :
  pruned_from (Some n) <->
  well_pruned n /\
  forall c child, children_ n !! c = Some child -> pruned_from (Some child).
Proof.
  split.
  - intros Hn. split; [by apply (Hn EmptyString)|].
    intros c child Hc key n' Hw. apply (Hn (String c key)). simpl. by rewrite Hc.
  - intros [Hn Hch] [|c key] n' Hw; simpl in Hw; [by injection Hw as <-|].
    destruct (children_ n !! c) as [child|] eqn:Hc; [|done]. by eapply Hch.
Qed.

Lemma pruned_from_leaf : pruned_from (Some (Node ∅ None)) ->  False.
Proof. intros H. by specialize (H EmptyString _ eq_refl eq_refl). Qed.

Lemma well_pruned_insert (m : gmap ascii TrieNode) c child val :
  well_pruned (Node (<[c := child]> m) val).
Proof. intros Hempty. simpl in Hempty. by apply insert_non_empty in Hempty. Qed.

Lemma pruned_from_children n : pruned_from (Some n) -> children_pruned n.
Proof. intros Hn. by destruct (proj1 (pruned_from_node n) Hn). Qed.

Lemma children_pruned_child n c child :
  children_pruned n -> children_ n !! c = Some child -> children_pruned child.
Proof.
  intros Hn Hc. by destruct (proj1 (pruned_from_node child) (Hn c child Hc)).
Qed.

Lemma PutCycle_pruned rest : forall c n v,
  children_pruned n -> pruned_from (Some (PutCycle n c rest v)).
Proof.
  induction rest as [|c' rest' IH]; intros c n v Hn; simpl;
    (destruct (children_ n !! c) as [child|] eqn:E);
    apply pruned_from_node; (split; [apply well_pruned_insert|]);
    intros c2 child2; simpl;
    (destruct (decide (c2 = c)) as [->|Hc];
      [rewrite lookup_insert_eq; intros [= <-]
      |rewrite lookup_insert_ne by done; apply Hn]).
  - apply pruned_from_node. split; [done|].
    exact (children_pruned_child n c child Hn E).
  - apply pruned_from_node. split; [done|]. intros ? ?. simpl.
    by rewrite lookup_empty.
  - apply IH. rewrite Clone_same. exact (children_pruned_child n c child Hn E).
  - apply IH. intros ? ?. simpl. by rewrite lookup_empty.
Qed.

Lemma RemoveCycle_pruned rest : forall c n,
  children_pruned n -> children_pruned (RemoveCycle n c rest).2.
Proof.
  induction rest as [|c' rest' IH]; intros c n Hn; simpl;
    (destruct (children_ n !! c) as [child|] eqn:E; [|done]).
  - destruct (negb (is_value_node_ child)); [done|].
    unfold empty. case_bool_decide as Hch; simpl; intros c2 child2; simpl.
    + intros H2. apply lookup_delete_Some in H2 as [_ H2]. by eapply Hn.
    + destruct (decide (c2 = c)) as [->|Hc];
        [rewrite lookup_insert_eq; intros [= <-]
        |rewrite lookup_insert_ne by done; apply Hn].
      apply pruned_from_node. split; [by intros ?|].
      exact (children_pruned_child n c child Hn E).
  - specialize (IH c' (Clone child)). rewrite Clone_same in *.
    pose proof (children_pruned_child n c child Hn E) as Hchild.
    specialize (IH Hchild).
    destruct (RemoveCycle child c' rest') as [[|] ptr]; simpl in *; [|done].
    unfold empty, is_value_node_.
    case_bool_decide as Hch; [destruct (value_ ptr) eqn:Hv|]; simpl;
      intros c2 child2; simpl.
    1,3: destruct (decide (c2 = c)) as [->|Hc];
        [rewrite lookup_insert_eq; intros [= <-]
        |rewrite lookup_insert_ne by done; apply Hn];
        apply pruned_from_node; (split; [|done]); intros ?;
        unfold is_value_node_; by rewrite ?Hv.
    intros H2. apply lookup_delete_Some in H2 as [_ H2]. by eapply Hn.
Qed.

(** X5. No branch ever ends in a plain node: from a pruned trie, as the
    empty trie is, [Put] and [Remove] return pruned tries, in which every
    node without children carries a value; a root left with neither
    children nor value is dropped. *)
Theorem pruned_preserved trie :
  pruned trie ->
  (forall T key (v : payload T) trie', Put T trie key v = Ret trie' -> pruned trie') /\
  (forall key, pruned (Remove trie key)).
Proof.
  unfold pruned. intros Ht. split.
  - intros T [|c rest] v trie'.
    + destruct (root_ trie) as [root|] eqn:Hroot;
        [|unfold Put; by rewrite Hroot].
      rewrite (Put_empty_key_root T trie root) by done. intros [= <-]. simpl.
      apply pruned_from_node. split; [done|].
      exact (pruned_from_children root Ht).
    + unfold Put. intros [= <-]. simpl. apply PutCycle_pruned.
      destruct (root_ trie) as [root|]; rewrite ?Clone_same.
      * exact (pruned_from_children root Ht).
      * intros ? ?. simpl. by rewrite lookup_empty.
  - intros key. unfold Remove.
    destruct (root_ trie) as [root|] eqn:Hroot; [|by rewrite Hroot].
    apply pruned_from_node in Ht as [Hroot_ok Hchildren].
    destruct key as [|c rest].
    + destruct (is_value_node_ root); [|rewrite Hroot; by apply pruned_from_node].
      unfold empty. case_bool_decide as Hch; simpl; [by intros [|??] ?|].
      apply pruned_from_node. split; [by intros ?|done].
    + pose proof (RemoveCycle_pruned rest c (Clone root)) as Hrem.
      rewrite Clone_same in *. specialize (Hrem Hchildren).
      destruct (RemoveCycle root c rest) as [[|] new_root]; simpl in *;
        [|rewrite Hroot; by apply pruned_from_node].
      unfold empty, is_value_node_.
      case_bool_decide as Hch; [destruct (value_ new_root) eqn:Hv|]; simpl;
        try (by intros [|??] ?);
        apply pruned_from_node; (split; [|done]); intros ?;
        unfold is_value_node_; by rewrite ?Hv.
Qed.

Lemma pruned_preserved_witness :
  (forall T key (v : payload T) trie',
     Put T (Trie.mk None) key v = Ret trie' -> pruned trie') /\
  (forall key, pruned (Remove (Trie.mk None) key)).
Proof.
  apply (pruned_preserved (Trie.mk None)). by intros [|??] ?.
Defined.

Lemma Node_eta n : Node (children_ n) (value_ n) = n.
Proof. by destruct n. Qed.

(** On a key that held no value, [RemoveCycle] undoes [PutCycle] node for
    node: the plain nodes the put created are dropped again, the nodes it
    cloned get their old children back. *)
Lemma PutCycle_RemoveCycle rest : forall c n v,
  children_pruned n ->
  value_at (Some n) (String c rest) = None ->
  RemoveCycle (PutCycle n c rest v) c rest = (true, n).
Proof.
  induction rest as [|c' rest' IH]; intros c n v Hn Hnone;
    rewrite value_at_cons in Hnone; simpl;
    (destruct (children_ n !! c) as [child|] eqn:E); simpl;
    rewrite lookup_insert_eq; simpl.
  - rewrite value_at_nil in Hnone. simpl in Hnone.
    assert (children_ child ≠ ∅) as Hch.
    { intros Hch. pose proof (Hn c child E EmptyString child eq_refl Hch) as Hv.
      unfold is_value_node_ in Hv. by rewrite Hnone in Hv. }
    unfold empty. rewrite bool_decide_false by done.
    rewrite insert_insert_eq, <- Hnone, Node_eta, insert_id, Node_eta; done.
  - unfold empty. rewrite bool_decide_true by done.
    by rewrite delete_insert_eq, delete_id, Node_eta.
  - rewrite Clone_same, Clone_same.
    rewrite (IH c' child v (children_pruned_child n c child Hn E) Hnone). simpl.
    assert (empty (children_ child) && negb (is_value_node_ child) = false) as ->.
    { unfold empty. case_bool_decide as Hch; [|done].
      by rewrite (Hn c child E EmptyString child eq_refl Hch). }
    by rewrite insert_insert_eq, insert_id, Node_eta.
  - rewrite Clone_same.
    rewrite (IH c' (Node ∅ None) v).
    + simpl. unfold empty. rewrite bool_decide_true by done. simpl.
      by rewrite delete_insert_eq, delete_id, Node_eta.
    + intros ? ?. simpl. by rewrite lookup_empty.
    + apply value_at_leaf.
Qed.

(** X6. On a pruned trie that holds no value under a key, [Put] of the key
    followed by [Remove] of the key gives back the trie itself, node for
    node: the plain nodes created on the way to the key are pruned again. *)
Theorem Put_Remove_restores T trie key (v : payload T) trie' :
  pruned trie ->
  lookup trie key = None ->
  Put T trie key v = Ret trie' ->
  Remove trie' key = trie.
Proof.
  unfold pruned, lookup. intros Ht Hnone HP.
  destruct trie as [root]. simpl in *. destruct key as [|c rest].
  - destruct root as [root|]; [|done].
    rewrite (Put_empty_key_root T _ root) in HP by done. injection HP as <-.
    rewrite value_at_nil in Hnone. simpl in Hnone.
    unfold Remove. simpl. unfold empty.
    rewrite bool_decide_false.
    + by rewrite <- Hnone, Node_eta.
    + intros Hch. pose proof (Ht EmptyString root eq_refl Hch) as Hv.
      unfold is_value_node_ in Hv. by rewrite Hnone in Hv.
  - unfold Put in HP. injection HP as <-. unfold Remove. simpl.
    rewrite Clone_same. destruct root as [root|].
    + rewrite Clone_same, PutCycle_RemoveCycle;
        [|exact (pruned_from_children root Ht)|done]. simpl.
      assert (empty (children_ root) && negb (is_value_node_ root) = false) as ->;
        [|done].
      unfold empty. case_bool_decide as Hch; [|done].
      by rewrite (Ht EmptyString root eq_refl Hch).
    + rewrite PutCycle_RemoveCycle.
      * simpl. unfold empty. by rewrite bool_decide_true.
      * intros ? ?. simpl. by rewrite lookup_empty.
      * apply value_at_leaf.
Qed.

Lemma Put_Remove_restores_witness :
  Remove (Trie.mk (Some (PutCycle (Node ∅ None) "a" "bc" (VUInt32 5)))) "abc"
  = Trie.mk None.
Proof.
  apply (Put_Remove_restores uint32_t (Trie.mk None) "abc" 5).
  - by intros [|??] ?.
  - reflexivity.
  - vm_compute. reflexivity.
Defined.

(** X7. Two [Put]s on different keys give the same key-value set in either
    order. *)
Theorem Put_commute T1 T2 trie key1 key2 (v1 : payload T1) (v2 : payload T2)
    t1 t12 t2 t21 :
  key1 ≠ key2 ->
  Put T1 trie key1 v1 = Ret t1 -> Put T2 t1 key2 v2 = Ret t12 ->
  Put T2 trie key2 v2 = Ret t2 -> Put T1 t2 key1 v1 = Ret t21 ->
  same_kv t12 t21.
Proof.
  intros Hne H1 H12 H2 H21 key.
  destruct (Put_lookup T1 trie key1 v1 (Put_defined _ _ _ _ _ H1)) as (a & E1 & L1).
  destruct (Put_lookup T2 t1 key2 v2 (Put_defined _ _ _ _ _ H12)) as (ab & E12 & L12).
  destruct (Put_lookup T2 trie key2 v2 (Put_defined _ _ _ _ _ H2)) as (b & E2 & L2).
  destruct (Put_lookup T1 t2 key1 v1 (Put_defined _ _ _ _ _ H21)) as (ba & E21 & L21).
  assert (a = t1) as -> by congruence. assert (ab = t12) as -> by congruence.
  assert (b = t2) as -> by congruence. assert (ba = t21) as -> by congruence.
  rewrite L12, L21, L1, L2.
  repeat case_decide; by simplify_eq.
Qed.

Lemma Put_commute_witness :
  same_kv
    (Trie.mk (Some (PutCycle (PutCycle (Node ∅ None) "a" "" (VUInt32 1))
                             "b" "" (VUInt64 2))))
    (Trie.mk (Some (PutCycle (PutCycle (Node ∅ None) "b" "" (VUInt64 2))
                             "a" "" (VUInt32 1)))).
Proof.
  apply (Put_commute uint32_t uint64_t (Trie.mk None) "a" "b" 1 2
           (Trie.mk (Some (PutCycle (Node ∅ None) "a" "" (VUInt32 1))))
           _
           (Trie.mk (Some (PutCycle (Node ∅ None) "b" "" (VUInt64 2))))
           _).
  - discriminate.
  - vm_compute. reflexivity.
  - vm_compute. reflexivity.
  - vm_compute. reflexivity.
  - vm_compute. reflexivity.
Defined.

End TrieMore.


(** * Further properties of the replacer *)

Section ReplacerMore.
Import LRUKReplacer.

Lemma elem_of_tail {A} (l : list A) x : x ∈ tail l -> x ∈ l.
Proof. destruct l; [done|]. simpl. by right. Qed.

Lemma clock_inv_RecordAccess r f r' :
  clock_inv r -> current_timestamp_ r + 1 < 2 ^ 64 ->
  RecordAccess r f = Ret r' ->
  clock_inv r' /\ current_timestamp_ r' = current_timestamp_ r + 1.
Proof.
  intros [Hcur Hh] Hnext. unfold RecordAccess.
  destruct (invalid_frame r f); [done|]. intros [= <-]. simpl.
  rewrite Z.mod_small by lia. split; [|done]. split; [simpl; lia|]. simpl.
  intros g nd t. destruct (decide (g = f)) as [->|Hne].
  - rewrite lookup_insert_eq. intros [= <-]. simpl. intros Ht.
    assert (t ∈ history_ (default LRUKNode_new (node_store_ r !! f))
                 ++ [current_timestamp_ r]) as Ht'.
    { case_match; [|done]. by apply elem_of_tail. }
    apply elem_of_app in Ht' as [Ht'|Ht'].
    + destruct (node_store_ r !! f) as [nd|] eqn:E; simpl in Ht'.
      * specialize (Hh f nd t E Ht'). lia.
      * by apply elem_of_nil in Ht'.
    + apply list_elem_of_singleton in Ht' as ->. lia.
  - rewrite lookup_insert_ne by done. intros Hg Ht.
    specialize (Hh g nd t Hg Ht). lia.
Qed.

Lemma clock_inv_SetEvictable r f b r' :
  clock_inv r -> SetEvictable r f b = Ret r' ->
  clock_inv r' /\ current_timestamp_ r' = current_timestamp_ r.
Proof.
  intros [Hcur Hh]. unfold SetEvictable.
  destruct (invalid_frame r f); [done|].
  destruct (node_store_ r !! f) as [nd|] eqn:E; [|by intros [= <-]].
  case_bool_decide; intros [= <-]; [done|]. split; [|done]. split; [done|].
  simpl. intros g nd' t. destruct (decide (g = f)) as [->|Hne].
  - rewrite lookup_insert_eq. intros [= <-]. simpl. intros Ht.
    exact (Hh f nd t E Ht).
  - rewrite lookup_insert_ne by done. apply Hh.
Qed.

Lemma clock_inv_delete r f cs :
  clock_inv r ->
  clock_inv (mk (delete f (node_store_ r)) (current_timestamp_ r) cs
                (replacer_size_ r) (k_ r)).
Proof.
  intros [Hcur Hh]. split; [done|]. simpl. intros g nd t Hg.
  apply lookup_delete_Some in Hg as [_ Hg]. by eapply Hh.
Qed.

Lemma clock_inv_Remove r f r' :
  clock_inv r -> Remove r f = Ret r' ->
  clock_inv r' /\ current_timestamp_ r' = current_timestamp_ r.
Proof.
  intros Hinv. unfold Remove.
  destruct (invalid_frame r f); [done|].
  destruct (node_store_ r !! f) as [nd|] eqn:E; intros [= <-]; [|done].
  split; [|done]. by apply clock_inv_delete.
Qed.

Lemma clock_inv_Evict r order victim r' :
  clock_inv r -> Evict order r = Ret (victim, r') ->
  clock_inv r' /\ current_timestamp_ r' = current_timestamp_ r.
Proof.
  intros Hinv. unfold Evict.
  case_match; [by intros [= _ <-]|].
  destruct (Evict_loop r order _) as [vars| |]; simpl; try done.
  destruct (flag vars); intros [= _ <-]; [|done].
  split; [|done]. by apply clock_inv_delete.
Qed.

(** A run shorter than what is left of the clock keeps it from wrapping. *)
Lemma clock_inv_run ops : forall r r',
  clock_inv r ->
  current_timestamp_ r + Z.of_nat (length ops) < 2 ^ 64 ->
  run r ops = Ret r' ->
  clock_inv r'.
Proof.
  induction ops as [|o rest IH]; intros r r' Hinv Hlen; simpl.
  - by intros [= <-].
  - simpl in Hlen. destruct (step r o) as [r1| |] eqn:Hstep; simpl; try done.
    assert (clock_inv r1 /\ current_timestamp_ r1 <= current_timestamp_ r + 1)
      as [Hinv1 Hts].
    { destruct o; simpl in Hstep.
      - destruct (clock_inv_RecordAccess _ _ _ Hinv ltac:(lia) Hstep); split; [done|lia].
      - destruct (clock_inv_SetEvictable _ _ _ _ Hinv Hstep); split; [done|lia].
      - destruct (clock_inv_Remove _ _ _ Hinv Hstep); split; [done|lia].
      - destruct (Evict _ r) as [[victim r2]| |] eqn:HE; simpl in Hstep; try done.
        injection Hstep as <-.
        destruct (clock_inv_Evict _ _ _ _ Hinv HE); split; [done|lia]. }
    apply IH; [done|lia].
Qed.

Lemma clock_inv_new num_frames k : clock_inv (new num_frames k).
Proof. split; [simpl; lia|]. intros f nd t. simpl. by rewrite lookup_empty. Qed.

(** The newest access of a frame lies before the clock, so the distance
    [Evict] computes for it is positive and does not wrap. *)
Lemma k_dis_positive r f nd newest :
  clock_inv r ->
  node_store_ r !! f = Some nd ->
  back (history_ nd) = Ret newest ->
  last (history_ nd) = Some newest /\
  (current_timestamp_ r - newest) mod 2 ^ 64 = current_timestamp_ r - newest /\
  0 < current_timestamp_ r - newest.
Proof.
  intros [Hcur Hh] Hf. unfold back.
  destruct (last (history_ nd)) as [t|] eqn:E; [|done]. intros [= <-].
  pose proof (Hh f nd t Hf (last_Some_elem_of _ _ E)) as Ht.
  split; [done|]. rewrite Z.mod_small by lia. lia.
Qed.

(** While the flag of the loop is down, no entry met was evictable. *)
Lemma Evict_body_flag r vars it vars' seen :
  clock_inv r ->
  node_store_ r !! it.1 = Some it.2 ->
  none_evictable vars seen ->
  Evict_body r vars it = Ret vars' ->
  none_evictable vars' (seen ++ [it]) /\ (flag vars = true -> flag vars' = true).
Proof.
  intros Hclock Hit Hnone. unfold Evict_body.
  destruct (is_evictable_ it.2) eqn:Hev; simpl.
  2:{ intros [= <-]. split; [|done]. intros Hflag.
      destruct (Hnone Hflag) as [Hmax Hseen]. split; [done|].
      intros it' Hin. apply elem_of_app in Hin as [Hin|Hin]; [by apply Hseen|].
      by apply list_elem_of_singleton in Hin as ->. }
  case_match.
  - destruct (flag vars) eqn:Hflag; simpl.
    + destruct (front (history_ it.2)); simpl; try done.
      destruct (at_ (node_store_ r) (victim_frame vars)); simpl; try done.
      destruct (front (history_ a0)); simpl; try done.
      case_match; intros [= <-];
        (split; [intros Hf; simpl in Hf; congruence|done]).
    + intros [= <-]. split; [by intros ?|done].
  - destruct (back (history_ it.2)) as [newest| |] eqn:Hback; simpl; try done.
    destruct (k_dis_positive r it.1 it.2 newest Hclock Hit Hback) as (_ & -> & Hpos).
    case_match eqn:Hlt; intros [= <-]; (split; [|done]); [by intros ?|].
    intros Hflag. destruct (Hnone Hflag) as [Hmax _].
    apply Z.ltb_ge in Hlt. lia.
Qed.

Lemma Evict_loop_flag r order : forall vars vars' seen,
  clock_inv r ->
  (forall it, it ∈ order -> node_store_ r !! it.1 = Some it.2) ->
  none_evictable vars seen ->
  Evict_loop r order vars = Ret vars' ->
  none_evictable vars' (seen ++ order).
Proof.
  induction order as [|it rest IH]; intros vars vars' seen Hclock Hin Hnone; simpl.
  - intros [= <-]. by rewrite app_nil_r.
  - destruct (Evict_body r vars it) as [vars1| |] eqn:Hbody; simpl; try done.
    intros Hloop.
    destruct (Evict_body_flag r vars it vars1 seen Hclock) as [Hnone1 _];
      [apply Hin; by left|done|done|].
    rewrite cons_middle, app_assoc. eapply IH; [done| |done|done].
    intros it' Hit'. apply Hin. by right.
Qed.

Lemma count_of_zero m f nd :
  count_of m = 0 -> m !! f = Some nd -> is_evictable_ nd = false.
Proof.
  intros Hzero Hf. rewrite (count_of_lookup m f), Hf in Hzero.
  pose proof (count_of_nonneg (delete f m)).
  destruct (is_evictable_ nd); [simpl in Hzero; lia|done].
Qed.

(** X8. In a state reached with [k >= 1] whose clock has not wrapped,
    [Evict] returns, whatever the order of traversal.  It returns a frame
    exactly when some tracked frame is evictable: the frame returned was
    tracked and evictable, is tracked no longer, and the size drops by
    one; when no frame is evictable nothing changes. *)
Theorem Evict_outcome num_frames k r order :
  1 <= k ->
  reachable num_frames k r ->
  clock_inv r ->
  order ≡ₚ map_to_list (node_store_ r) ->
  exists victim r', Evict order r = Ret (victim, r') /\
    match victim with
    | Some f =>
        exists nd, node_store_ r !! f = Some nd /\ is_evictable_ nd = true /\
          node_store_ r' = delete f (node_store_ r) /\
          Size r' = Size r - 1 /\
          current_timestamp_ r' = current_timestamp_ r
    | None =>
        r' = r /\
        forall f nd, node_store_ r !! f = Some nd -> is_evictable_ nd = false
    end.
Proof.
  intros Hk Hr Hclock Hperm.
  pose proof (reachable_size_inv _ _ _ Hr) as [Hty Hsz].
  pose proof (reachable_history_inv _ _ _ Hk Hr) as Hhist.
  assert (forall it, it ∈ order -> node_store_ r !! it.1 = Some it.2) as Hin.
  { intros [f nd] Hit. rewrite Hperm in Hit. by apply elem_of_map_to_list in Hit. }
  unfold Evict. case_match eqn:Hzero.
  { apply Z.eqb_eq in Hzero. exists None, r. split; [done|]. split; [done|].
    intros f nd. apply count_of_zero. by rewrite <- Hsz. }
  assert (victim_ok r (mkVars false INVALID_PAGE_ID 0)) as Hstart by (by intros [=]).
  assert (none_evictable (mkVars false INVALID_PAGE_ID 0) []) as Hnone0
    by (by split; [|intros ? ?%elem_of_nil]).
  destruct (Evict_loop_returns r order _ Hhist Hin Hstart) as [vars Hloop].
  rewrite Hloop. simpl. destruct (flag vars) eqn:Hflag.
  - pose proof (Evict_loop_victim r order _ _ Hin Hstart Hloop Hflag)
      as (nd & Hnd & Hev).
    eexists (Some _), _. split; [done|]. exists nd. simpl.
    split; [done|]. split; [done|]. split; [done|]. split; [|done].
    unfold Size. pose proof (count_of_bound _ Hty) as Hub.
    pose proof (count_of_nonneg (delete (victim_frame vars) (node_store_ r))).
    rewrite (count_of_lookup _ (victim_frame vars)), Hnd, Hev in Hub.
    rewrite Hsz, (count_of_lookup _ (victim_frame vars)), Hnd, Hev in *.
    simpl in *. rewrite Z.mod_small; lia.
  - exists None, r. split; [done|]. split; [done|]. intros f nd Hf.
    pose proof (Evict_loop_flag r order _ _ [] Hclock Hin Hnone0 Hloop Hflag)
      as [_ Hnone].
    apply (Hnone (f, nd)). simpl. rewrite Hperm. by apply elem_of_map_to_list.
Qed.

Lemma replacer_1221_reachable r :
  replacer_1221 = Ret r -> reachable 7 2 r /\ clock_inv r.
Proof.
  intros Hr.
  assert (run (new 7 2)
            [RecordAccessOp 1; RecordAccessOp 2; RecordAccessOp 2; RecordAccessOp 1;
             SetEvictableOp 1 true; SetEvictableOp 2 true] = Ret r) as Hrun.
  { rewrite <- Hr. vm_compute. reflexivity. }
  split.
  - eapply reachable_run; [apply reachable_new| |exact Hrun].
    repeat constructor; unfold frame_id_t; lia.
  - eapply clock_inv_run; [apply clock_inv_new| |exact Hrun]. simpl. lia.
Defined.

Lemma Evict_outcome_witness :
  exists r, replacer_1221 = Ret r /\
  exists victim r', Evict (map_to_list (node_store_ r)) r = Ret (victim, r') /\
    match victim with
    | Some f =>
        exists nd, node_store_ r !! f = Some nd /\ is_evictable_ nd = true /\
          node_store_ r' = delete f (node_store_ r) /\
          Size r' = Size r - 1 /\
          current_timestamp_ r' = current_timestamp_ r
    | None =>
        r' = r /\
        forall f nd, node_store_ r !! f = Some nd -> is_evictable_ nd = false
    end.
Proof.
  eexists. split; [vm_compute; reflexivity|].
  apply (Evict_outcome 7 2); [lia| | |reflexivity];
    apply replacer_1221_reachable; vm_compute; reflexivity.
Defined.

Lemma Evict_body_newest r vars it vars' seen :
  clock_inv r ->
  node_store_ r !! it.1 = Some it.2 ->
  (is_evictable_ it.2 = true ->
   (Z.of_nat (length (history_ it.2)) <? k_ r) = false) ->
  none_evictable vars seen ->
  newest_inv r vars seen ->
  Evict_body r vars it = Ret vars' ->
  newest_inv r vars' (seen ++ [it]).
Proof.
  intros Hclock Hit Hfull Hnone Hinv. unfold Evict_body.
  destruct (is_evictable_ it.2) eqn:Hev; simpl.
  { rewrite Hfull by done.
    destruct (back (history_ it.2)) as [t| |] eqn:Hback; simpl; try done.
    destruct (k_dis_positive r it.1 it.2 t Hclock Hit Hback) as (Hlast & -> & Hpos).
    case_match eqn:Hlt; intros [= <-].
    - apply Z.ltb_lt in Hlt. intros _. exists it.2, t. simpl.
      repeat split; try done.
      intros it' Hin Hev'. apply elem_of_app in Hin as [Hin|Hin].
      + destruct (flag vars) eqn:Hflag.
        * destruct (Hinv Hflag) as (vnd & tv & _ & _ & _ & Hmax & Hseen).
          destruct (Hseen it' Hin Hev') as (t' & Ht' & Hle).
          exists t'. split; [done|lia].
        * destruct (Hnone Hflag) as [_ Hseen].
          rewrite (Hseen it' Hin) in Hev'. done.
      + apply list_elem_of_singleton in Hin as ->. by exists t.
    - apply Z.ltb_ge in Hlt. intros Hflag.
      destruct (Hinv Hflag) as (vnd & tv & Hv & Hvev & Hvlast & Hmax & Hseen).
      exists vnd, tv. repeat split; try done.
      intros it' Hin Hev'. apply elem_of_app in Hin as [Hin|Hin]; [by apply Hseen|].
      apply list_elem_of_singleton in Hin as ->. exists t. split; [done|lia]. }
  intros [= <-] Hflag.
  destruct (Hinv Hflag) as (vnd & tv & Hv & Hvev & Hvlast & Hmax & Hseen).
  exists vnd, tv. repeat split; try done.
  intros it' Hin Hev'. apply elem_of_app in Hin as [Hin|Hin]; [by apply Hseen|].
  apply list_elem_of_singleton in Hin as ->. congruence.
Qed.

Lemma Evict_loop_newest r order : forall vars vars' seen,
  clock_inv r ->
  (forall it, it ∈ order ->
     node_store_ r !! it.1 = Some it.2 /\
     (is_evictable_ it.2 = true ->
      (Z.of_nat (length (history_ it.2)) <? k_ r) = false)) ->
  none_evictable vars seen ->
  newest_inv r vars seen ->
  Evict_loop r order vars = Ret vars' ->
  newest_inv r vars' (seen ++ order).
Proof.
  induction order as [|it rest IH]; intros vars vars' seen Hclock Hin Hnone Hinv;
    simpl.
  - intros [= <-]. by rewrite app_nil_r.
  - destruct (Evict_body r vars it) as [vars1| |] eqn:Hbody; simpl; try done.
    intros Hloop. destruct (Hin it ltac:(by left)) as [Hit Hfull].
    destruct (Evict_body_flag r vars it vars1 seen Hclock Hit Hnone Hbody)
      as [Hnone1 _].
    pose proof (Evict_body_newest r vars it vars1 seen Hclock Hit Hfull Hnone
                  Hinv Hbody) as Hinv1.
    rewrite cons_middle, app_assoc. eapply IH; [done| |done|done|done].
    intros it' Hit'. apply Hin. by right.
Qed.

Lemma Evict_newest r order f r' :
  clock_inv r ->
  order ≡ₚ map_to_list (node_store_ r) ->
  (forall g nd, node_store_ r !! g = Some nd -> is_evictable_ nd = true ->
     k_ r <= Z.of_nat (length (history_ nd))) ->
  Evict order r = Ret (Some f, r') ->
  exists nd tv,
    node_store_ r !! f = Some nd /\ is_evictable_ nd = true /\
    last (history_ nd) = Some tv /\
    forall g ndg, node_store_ r !! g = Some ndg -> is_evictable_ ndg = true ->
      exists t, last (history_ ndg) = Some t /\ tv <= t.
Proof.
  intros Hclock Hperm Hfull. unfold Evict. case_match; [done|].
  destruct (Evict_loop r order _) as [vars| |] eqn:Hloop; simpl; try done.
  destruct (flag vars) eqn:Hflag; intros [= <- <-].
  assert (none_evictable (mkVars false INVALID_PAGE_ID 0) []) as Hnone0
    by (by split; [|intros ? ?%elem_of_nil]).
  assert (newest_inv r (mkVars false INVALID_PAGE_ID 0) []) as Hinv0
    by (by intros [=]).
  assert (forall it, it ∈ order ->
            node_store_ r !! it.1 = Some it.2 /\
            (is_evictable_ it.2 = true ->
             (Z.of_nat (length (history_ it.2)) <? k_ r) = false)) as Hin.
  { intros [g nd] Hit. rewrite Hperm in Hit. apply elem_of_map_to_list in Hit.
    split; [done|]. simpl. intros Hev. apply Z.ltb_ge. by eapply Hfull. }
  destruct (Evict_loop_newest r order _ _ [] Hclock Hin Hnone0 Hinv0 Hloop Hflag)
    as (nd & tv & Hnd & Hev & Hlast & _ & Hseen).
  exists nd, tv. repeat split; try done.
  intros g ndg Hg Hgev. apply (Hseen (g, ndg)); [|done].
  simpl. rewrite Hperm. by apply elem_of_map_to_list.
Qed.

(** X9. When every evictable frame has [k] recorded accesses and the clock
    has not wrapped, the frame [Evict] returns is the evictable frame whose
    newest access is the oldest: no evictable frame was last accessed
    before it. *)
Theorem Evict_by_newest_access r order f r' :
  clock_inv r ->
  order ≡ₚ map_to_list (node_store_ r) ->
  (forall g nd, node_store_ r !! g = Some nd -> is_evictable_ nd = true ->
     k_ r <= Z.of_nat (length (history_ nd))) ->
  Evict order r = Ret (Some f, r') ->
  exists nd tv,
    node_store_ r !! f = Some nd /\ is_evictable_ nd = true /\
    last (history_ nd) = Some tv /\
    forall g ndg, node_store_ r !! g = Some ndg -> is_evictable_ ndg = true ->
      exists t, last (history_ ndg) = Some t /\ tv <= t.
Proof. apply Evict_newest. Qed.

Lemma run_reachable num_frames k ops r :
  run (new num_frames k) ops = Ret r ->
  Forall op_typed ops ->
  Z.of_nat (length ops) < 2 ^ 64 ->
  reachable num_frames k r /\ clock_inv r.
Proof.
  intros Hrun Hty Hlen. split.
  - eapply reachable_run; [apply reachable_new|done|done].
  - eapply clock_inv_run; [apply clock_inv_new| |done]. simpl. lia.
Qed.

Lemma ops_121_typed : Forall op_typed ops_121.
Proof. repeat constructor; unfold frame_id_t; lia. Qed.

Lemma replacer_1221_state_ok :
  reachable 7 2 replacer_1221_state /\ clock_inv replacer_1221_state.
Proof.
  apply (run_reachable 7 2
           [RecordAccessOp 1; RecordAccessOp 2; RecordAccessOp 2; RecordAccessOp 1;
            SetEvictableOp 1 true; SetEvictableOp 2 true]).
  - vm_compute. reflexivity.
  - repeat constructor; unfold frame_id_t; lia.
  - simpl. lia.
Qed.

Lemma Evict_by_newest_access_witness :
  exists nd tv,
    node_store_ replacer_1221_state !! 2 = Some nd /\ is_evictable_ nd = true /\
    last (history_ nd) = Some tv /\
    forall g ndg, node_store_ replacer_1221_state !! g = Some ndg ->
      is_evictable_ ndg = true ->
      exists t, last (history_ ndg) = Some t /\ tv <= t.
Proof.
  eapply (Evict_by_newest_access replacer_1221_state
            (map_to_list (node_store_ replacer_1221_state)) 2).
  - apply replacer_1221_state_ok.
  - reflexivity.
  - intros g nd Hg _. simpl in Hg.
    apply lookup_insert_Some in Hg as [[_ <-]|[_ Hg]]; [simpl; lia|].
    apply lookup_singleton_Some in Hg as [_ <-]. simpl. lia.
  - vm_compute. reflexivity.
Defined.

(** The constructor's [k] and [num_frames] never change. *)
Lemma reachable_params num_frames k r :
  reachable num_frames k r -> k_ r = k /\ replacer_size_ r = num_frames.
Proof.
  induction 1 as [|r f r' _ IH Hf Hop|r f b r' _ IH Hf Hop|r f r' _ IH Hf Hop
                 |r order victim r' _ IH Hperm Hop]; [done|..].
  - unfold RecordAccess in Hop. destruct (invalid_frame r f); [done|].
    by injection Hop as <-.
  - unfold SetEvictable in Hop. destruct (invalid_frame r f); [done|].
    destruct (node_store_ r !! f); [|by injection Hop as <-].
    case_bool_decide; by injection Hop as <-.
  - unfold Remove in Hop. destruct (invalid_frame r f); [done|].
    destruct (node_store_ r !! f); by injection Hop as <-.
  - unfold Evict in Hop. case_match; [by injection Hop as _ <-|].
    destruct (Evict_loop r order _) as [vars| |]; simpl in Hop; try done.
    destruct (flag vars); by injection Hop as _ <-.
Qed.

(** X10. With [k = 1] the replacer is a least-recently-used replacer: in
    every state reached before the clock wraps, the frame [Evict] returns
    is an evictable frame that no evictable frame was last accessed
    before. *)
Theorem Evict_lru_when_k_is_1 num_frames r order f r' :
  reachable num_frames 1 r ->
  clock_inv r ->
  order ≡ₚ map_to_list (node_store_ r) ->
  Evict order r = Ret (Some f, r') ->
  exists nd tv,
    node_store_ r !! f = Some nd /\ is_evictable_ nd = true /\
    last (history_ nd) = Some tv /\
    forall g ndg, node_store_ r !! g = Some ndg -> is_evictable_ ndg = true ->
      exists t, last (history_ ndg) = Some t /\ tv <= t.
Proof.
  intros Hr Hclock Hperm. apply Evict_newest; [done|done|].
  intros g nd Hg _.
  assert (1 <= 1) as Hone by lia.
  destruct (reachable_history_inv num_frames 1 r Hone Hr) as [_ Hh].
  destruct (reachable_params _ _ _ Hr) as [-> _].
  specialize (Hh g nd Hg). destruct (history_ nd); [done|simpl; lia].
Qed.

Lemma Evict_lru_when_k_is_1_witness :
  exists nd tv,
    node_store_ replacer_k1_state !! 2 = Some nd /\ is_evictable_ nd = true /\
    last (history_ nd) = Some tv /\
    forall g ndg, node_store_ replacer_k1_state !! g = Some ndg ->
      is_evictable_ ndg = true ->
      exists t, last (history_ ndg) = Some t /\ tv <= t.
Proof.
  eapply (Evict_lru_when_k_is_1 7 replacer_k1_state
            (map_to_list (node_store_ replacer_k1_state)) 2).
  - apply (run_reachable 7 1 ops_121); [vm_compute; reflexivity|apply ops_121_typed|].
    simpl. lia.
  - apply (run_reachable 7 1 ops_121); [vm_compute; reflexivity|apply ops_121_typed|].
    simpl. lia.
  - reflexivity.
  - vm_compute. reflexivity.
Defined.

Lemma front_head h a : front h = Ret a <-> head h = Some a.
Proof. destruct h; simpl; split; intros [=]; by subst. Qed.

Lemma Evict_body_oldest r vars it vars' seen :
  history_inv r ->
  node_store_ r !! it.1 = Some it.2 ->
  (is_evictable_ it.2 = true ->
   (Z.of_nat (length (history_ it.2)) <? k_ r) = true) ->
  oldest_inv r vars seen ->
  Evict_body r vars it = Ret vars' ->
  oldest_inv r vars' (seen ++ [it]).
Proof.
  intros [_ Hhist] Hit Hfew [Hdown Hup]. unfold Evict_body.
  destruct (is_evictable_ it.2) eqn:Hev; simpl.
  2:{ intros [= <-]. split.
      - intros Hflag it' Hin. apply elem_of_app in Hin as [Hin|Hin];
          [by apply Hdown|]. by apply list_elem_of_singleton in Hin as ->.
      - intros Hflag. destruct (Hup Hflag) as (vnd & tv & Hv & Hvev & Hhead & Hseen).
        exists vnd, tv. repeat split; try done.
        intros it' Hin Hev'. apply elem_of_app in Hin as [Hin|Hin];
          [by apply Hseen|].
        apply list_elem_of_singleton in Hin as ->. congruence. }
  rewrite Hfew by done.
  destruct (front_returns (history_ it.2) (Hhist _ _ Hit)) as [a Ha].
  pose proof (proj1 (front_head _ _) Ha) as Hhead.
  destruct (flag vars) eqn:Hflag; simpl.
  - destruct (Hup eq_refl) as (vnd & tv & Hv & Hvev & Hvhead & Hseen).
    rewrite Ha. simpl. unfold at_. rewrite Hv. simpl.
    rewrite (proj2 (front_head _ _) Hvhead). simpl.
    case_match eqn:Hlt; intros [= <-];
      (split; [intros Hf; simpl in Hf; congruence|]); intros _.
    + apply Z.ltb_lt in Hlt. exists it.2, a. repeat split; try done.
      intros it' Hin Hev'. apply elem_of_app in Hin as [Hin|Hin].
      * destruct (Hseen it' Hin Hev') as (t & Ht & Hle). exists t. split; [done|lia].
      * apply list_elem_of_singleton in Hin as ->. by exists a.
    + apply Z.ltb_ge in Hlt. exists vnd, tv. repeat split; try done.
      intros it' Hin Hev'. apply elem_of_app in Hin as [Hin|Hin];
        [by apply Hseen|].
      apply list_elem_of_singleton in Hin as ->. by exists a.
  - intros [= <-]. split; [by intros ?|]. intros _.
    exists it.2, a. repeat split; try done.
    intros it' Hin Hev'. apply elem_of_app in Hin as [Hin|Hin].
    + rewrite (Hdown eq_refl it' Hin) in Hev'. done.
    + apply list_elem_of_singleton in Hin as ->. by exists a.
Qed.

Lemma Evict_loop_oldest r order : forall vars vars' seen,
  history_inv r ->
  (forall it, it ∈ order ->
     node_store_ r !! it.1 = Some it.2 /\
     (is_evictable_ it.2 = true ->
      (Z.of_nat (length (history_ it.2)) <? k_ r) = true)) ->
  oldest_inv r vars seen ->
  Evict_loop r order vars = Ret vars' ->
  oldest_inv r vars' (seen ++ order).
Proof.
  induction order as [|it rest IH]; intros vars vars' seen Hhist Hin Hinv; simpl.
  - intros [= <-]. by rewrite app_nil_r.
  - destruct (Evict_body r vars it) as [vars1| |] eqn:Hbody; simpl; try done.
    intros Hloop. destruct (Hin it ltac:(by left)) as [Hit Hfew].
    pose proof (Evict_body_oldest r vars it vars1 seen Hhist Hit Hfew Hinv Hbody)
      as Hinv1.
    rewrite cons_middle, app_assoc. eapply IH; [done| |done|done].
    intros it' Hit'. apply Hin. by right.
Qed.

(** X11. When every evictable frame has fewer than [k] recorded accesses,
    the frame [Evict] returns is the evictable frame whose first recorded
    access is the oldest. *)
Theorem Evict_by_first_access num_frames k r order f r' :
  1 <= k ->
  reachable num_frames k r ->
  order ≡ₚ map_to_list (node_store_ r) ->
  (forall g nd, node_store_ r !! g = Some nd -> is_evictable_ nd = true ->
     Z.of_nat (length (history_ nd)) < k) ->
  Evict order r = Ret (Some f, r') ->
  exists nd tv,
    node_store_ r !! f = Some nd /\ is_evictable_ nd = true /\
    head (history_ nd) = Some tv /\
    forall g ndg, node_store_ r !! g = Some ndg -> is_evictable_ ndg = true ->
      exists t, head (history_ ndg) = Some t /\ tv <= t.
Proof.
  intros Hk Hr Hperm Hfew.
  pose proof (reachable_history_inv _ _ _ Hk Hr) as Hhist.
  destruct (reachable_params _ _ _ Hr) as [Hkr _].
  unfold Evict. case_match; [done|].
  destruct (Evict_loop r order _) as [vars| |] eqn:Hloop; simpl; try done.
  destruct (flag vars) eqn:Hflag; intros [= <- <-].
  assert (oldest_inv r (mkVars false INVALID_PAGE_ID 0) []) as Hinv0.
  { split; [by intros ? ? ?%elem_of_nil|by intros [=]]. }
  assert (forall it, it ∈ order ->
            node_store_ r !! it.1 = Some it.2 /\
            (is_evictable_ it.2 = true ->
             (Z.of_nat (length (history_ it.2)) <? k_ r) = true)) as Hin.
  { intros [g nd] Hit. rewrite Hperm in Hit. apply elem_of_map_to_list in Hit.
    split; [done|]. simpl. intros Hev. apply Z.ltb_lt. rewrite Hkr.
    by eapply Hfew. }
  destruct (Evict_loop_oldest r order _ _ [] Hhist Hin Hinv0 Hloop) as [_ Hup].
  destruct (Hup Hflag) as (nd & tv & Hnd & Hev & Hhead & Hseen).
  exists nd, tv. repeat split; try done.
  intros g ndg Hg Hgev. apply (Hseen (g, ndg)); [|done].
  simpl. rewrite Hperm. by apply elem_of_map_to_list.
Qed.

Lemma Evict_by_first_access_witness :
  exists nd tv,
    node_store_ replacer_k3_state !! 1 = Some nd /\ is_evictable_ nd = true /\
    head (history_ nd) = Some tv /\
    forall g ndg, node_store_ replacer_k3_state !! g = Some ndg ->
      is_evictable_ ndg = true ->
      exists t, head (history_ ndg) = Some t /\ tv <= t.
Proof.
  eapply (Evict_by_first_access 7 3 replacer_k3_state
            (map_to_list (node_store_ replacer_k3_state)) 1).
  - lia.
  - apply (run_reachable 7 3 ops_121); [vm_compute; reflexivity|apply ops_121_typed|].
    simpl. lia.
  - reflexivity.
  - intros g nd Hg _. simpl in Hg.
    apply lookup_insert_Some in Hg as [[_ <-]|[_ Hg]]; [simpl; lia|].
    apply lookup_singleton_Some in Hg as [_ <-]. simpl. lia.
  - vm_compute. reflexivity.
Defined.

Lemma history_bound_reachable num_frames k r :
  0 <= k -> reachable num_frames k r -> history_bound r.
Proof.
  intros Hk.
  induction 1 as [|r f r' Hr IH Hf Hop|r f b r' Hr IH Hf Hop|r f r' Hr IH Hf Hop
                 |r order victim r' Hr IH Hperm Hop].
  - intros f nd. simpl. by rewrite lookup_empty.
  - destruct (reachable_params _ _ _ Hr) as [Hkr _].
    unfold RecordAccess in Hop. destruct (invalid_frame r f); [done|].
    injection Hop as <-. intros g nd. simpl.
    destruct (decide (g = f)) as [->|Hne];
      [rewrite lookup_insert_eq|rewrite lookup_insert_ne by done; apply IH].
    intros [= <-]. simpl.
    assert (Z.of_nat (length (history_ (default LRUKNode_new (node_store_ r !! f))))
            <= k_ r) as Hold.
    { destruct (node_store_ r !! f) as [nd|] eqn:E; simpl; [by eapply IH|lia]. }
    case_match eqn:Hlt; [|by apply Z.ltb_ge in Hlt].
    destruct (history_ (default LRUKNode_new (node_store_ r !! f))) as [|x h];
      simpl in *; [lia|].
    rewrite length_app. simpl. lia.
  - unfold SetEvictable in Hop. destruct (invalid_frame r f); [done|].
    destruct (node_store_ r !! f) as [nd|] eqn:E; [|by injection Hop as <-].
    case_bool_decide; injection Hop as <-; [done|]. intros g nd'. simpl.
    destruct (decide (g = f)) as [->|Hne];
      [rewrite lookup_insert_eq|rewrite lookup_insert_ne by done; apply IH].
    intros [= <-]. simpl. by eapply IH.
  - unfold Remove in Hop. destruct (invalid_frame r f); [done|].
    destruct (node_store_ r !! f); injection Hop as <-; [|done].
    intros g nd'. simpl. intros Hg. apply lookup_delete_Some in Hg as [_ Hg].
    by eapply IH.
  - unfold Evict in Hop. case_match; [by injection Hop as _ <-|].
    destruct (Evict_loop r order _) as [vars| |]; simpl in Hop; try done.
    destruct (flag vars); injection Hop as _ <-; [|done].
    intros g nd'. simpl. intros Hg. apply lookup_delete_Some in Hg as [_ Hg].
    by eapply IH.
Qed.

(** X12. The history of a tracked frame holds at least one and at most [k]
    timestamps, in every state reached with [k >= 1]: [RecordAccess] drops
    the oldest timestamp once there are more than [k]. *)
Theorem history_length num_frames k r f nd :
  1 <= k ->
  reachable num_frames k r ->
  node_store_ r !! f = Some nd ->
  1 <= Z.of_nat (length (history_ nd)) <= k.
Proof.
  intros Hk Hr Hf.
  destruct (reachable_history_inv _ _ _ Hk Hr) as [_ Hh].
  assert (0 <= k) as Hk0 by lia.
  pose proof (history_bound_reachable _ _ _ Hk0 Hr f nd Hf) as Hb.
  destruct (reachable_params _ _ _ Hr) as [Hkr _]. rewrite Hkr in Hb.
  specialize (Hh f nd Hf). destruct (history_ nd); [done|]. simpl in *. lia.
Qed.

Lemma history_length_witness :
  1 <= Z.of_nat (length (history_ (mkNode [2] true))) <= 1.
Proof.
  apply (history_length 7 1 replacer_k1_state 1).
  - lia.
  - apply (run_reachable 7 1 ops_121); [vm_compute; reflexivity|apply ops_121_typed|].
    simpl. lia.
  - reflexivity.
Defined.




Lemma to_size_t_negative f : - 2 ^ 31 <= f < 0 -> to_size_t f = f + 2 ^ 64.
Proof.
  intros Hf. unfold to_size_t.
  rewrite <- (Z.mod_add f 1 (2 ^ 64)) by lia. apply Z.mod_small. lia.
Qed.

Lemma invalid_frame_iff r f :
  0 <= replacer_size_ r <= 2 ^ 64 - 2 ^ 31 ->
  frame_id_t f ->
  invalid_frame r f = false <-> 0 <= f < replacer_size_ r.
Proof.
  intros Hsize Hf. unfold frame_id_t in Hf. unfold invalid_frame.
  rewrite Z.leb_gt. destruct (decide (0 <= f)) as [Hpos|Hneg].
  - rewrite to_size_t_small by lia. lia.
  - rewrite to_size_t_negative by lia. lia.
Qed.

(** X14. The frame id check of [RecordAccess], [SetEvictable] and
    [Remove], for a replacer built for at most [2^64 - 2^31] frames: each
    of them returns exactly when the frame id is at least 0 and below the
    number of frames, and throws [std::out_of_range] otherwise; the cast
    to [size_t] is what turns a negative id away. *)
Theorem frame_id_checked r f flag :
  0 <= replacer_size_ r <= 2 ^ 64 - 2 ^ 31 ->
  frame_id_t f ->
  (0 <= f < replacer_size_ r ->
   returns (RecordAccess r f) = true /\
   returns (SetEvictable r f flag) = true /\
   returns (Remove r f) = true) /\
  (~ 0 <= f < replacer_size_ r ->
   RecordAccess r f = Throw (out_of_range "Invalid frame_id") /\
   SetEvictable r f flag = Throw (out_of_range "Invalid frame_id") /\
   Remove r f = Throw (out_of_range "Invalid frame_id")).
Proof.
  intros Hsize Hf. pose proof (invalid_frame_iff r f Hsize Hf) as Hiff.
  unfold RecordAccess, SetEvictable, Remove. split; intros Hrange.
  - rewrite (proj2 Hiff Hrange).
    destruct (node_store_ r !! f) as [nd|]; [|done].
    by case_bool_decide.
  - destruct (invalid_frame r f); [done|]. destruct Hrange. by apply Hiff.
Qed.

Lemma frame_id_checked_witness :
  RecordAccess replacer_1221_state (-1) = Throw (out_of_range "Invalid frame_id") /\
  SetEvictable replacer_1221_state (-1) true
    = Throw (out_of_range "Invalid frame_id") /\
  Remove replacer_1221_state (-1) = Throw (out_of_range "Invalid frame_id").
Proof.
  apply (frame_id_checked replacer_1221_state (-1) true).
  - simpl. lia.
  - unfold frame_id_t. lia.
  - simpl. lia.
Defined.

(** X15. [Remove] and [Evict] forget the access history of the frame
    they take out: when [k_] is at least 1, the next [RecordAccess] to
    that frame leaves it tracked with that one access only, and not
    evictable. *)
Theorem history_forgotten r f :
  1 <= k_ r ->
  (forall r1 r2, Remove r f = Ret r1 -> RecordAccess r1 f = Ret r2 ->
     node_store_ r2 !! f = Some (mkNode [current_timestamp_ r] false)) /\
  (forall order r1 r2, Evict order r = Ret (Some f, r1) ->
     RecordAccess r1 f = Ret r2 ->
     node_store_ r2 !! f = Some (mkNode [current_timestamp_ r] false)).
Proof.
  intros Hk.
  assert (forall r1 r2,
            node_store_ r1 !! f = None -> k_ r1 = k_ r ->
            current_timestamp_ r1 = current_timestamp_ r ->
            RecordAccess r1 f = Ret r2 ->
            node_store_ r2 !! f = Some (mkNode [current_timestamp_ r] false))
    as Hfresh.
  { intros r1 r2 Hnone Hk1 Hts. unfold RecordAccess.
    destruct (invalid_frame r1 f); [done|]. intros [= <-]. simpl.
    rewrite lookup_insert_eq, Hnone, Hk1, Hts. simpl.
    case_match eqn:Hlt; [|done]. apply Z.ltb_lt in Hlt. lia. }
  split.
  - intros r1 r2 H1. apply Hfresh; revert H1; unfold Remove;
      (destruct (invalid_frame r f); [done|]);
      (destruct (node_store_ r !! f) as [nd|] eqn:E; intros [= <-]);
      simpl; try done. apply lookup_delete_eq.
  - intros order r1 r2 H1. unfold Evict in H1.
    destruct (curr_size_ r =? 0); [done|].
    destruct (Evict_loop r order _) as [vars| |]; simpl in H1; try done.
    destruct (flag vars); [|done]. injection H1 as <- <-.
    apply Hfresh; simpl; try done. apply lookup_delete_eq.
Qed.

Lemma history_forgotten_witness :
  (forall r1 r2, Remove replacer_1221_state 1 = Ret r1 ->
     RecordAccess r1 1 = Ret r2 ->
     node_store_ r2 !! 1
     = Some (mkNode [current_timestamp_ replacer_1221_state] false)) /\
  (forall order r1 r2, Evict order replacer_1221_state = Ret (Some 1, r1) ->
     RecordAccess r1 1 = Ret r2 ->
     node_store_ r2 !! 1
     = Some (mkNode [current_timestamp_ replacer_1221_state] false)).
Proof.
  apply (history_forgotten replacer_1221_state 1). simpl. lia.
Defined.

End ReplacerMore.


(** * Further properties of the buffer pool *)

Section PoolSafety.
Import BufferPoolManager.

(** ** What the calls on the replacer do to its store *)

Lemma RecordAccess_store r f r' :
  LRUKReplacer.RecordAccess r f = Ret r' ->
  (forall g, g ≠ f ->
     LRUKReplacer.node_store_ r' !! g = LRUKReplacer.node_store_ r !! g) /\
  LRUKReplacer.is_evictable_ <$> LRUKReplacer.node_store_ r' !! f =
  Some (default false (LRUKReplacer.is_evictable_ <$> LRUKReplacer.node_store_ r !! f)).
Proof.
  unfold LRUKReplacer.RecordAccess.
  destruct (LRUKReplacer.invalid_frame r f); [done|]. intros [= <-]. simpl. split.
  - intros g Hg. by rewrite lookup_insert_ne.
  - rewrite lookup_insert_eq. simpl.
    by destruct (LRUKReplacer.node_store_ r !! f).
Qed.

Lemma SetEvictable_store r f flag r' :
  LRUKReplacer.SetEvictable r f flag = Ret r' ->
  (forall g, g ≠ f ->
     LRUKReplacer.node_store_ r' !! g = LRUKReplacer.node_store_ r !! g) /\
  LRUKReplacer.is_evictable_ <$> LRUKReplacer.node_store_ r' !! f =
  (fun _ => flag) <$> LRUKReplacer.node_store_ r !! f.
Proof.
  unfold LRUKReplacer.SetEvictable.
  destruct (LRUKReplacer.invalid_frame r f); [done|].
  destruct (LRUKReplacer.node_store_ r !! f) as [nd|] eqn:E.
  - case_bool_decide as Hb; intros [= <-]; simpl.
    + split; [done|]. rewrite E. simpl. by f_equal.
    + split; [intros g Hg; by rewrite lookup_insert_ne|].
      by rewrite lookup_insert_eq.
  - intros [= <-]. split; [done|]. by rewrite E.
Qed.

Lemma Remove_store r f r' :
  LRUKReplacer.Remove r f = Ret r' ->
  LRUKReplacer.node_store_ r' = delete f (LRUKReplacer.node_store_ r).
Proof.
  unfold LRUKReplacer.Remove.
  destruct (LRUKReplacer.invalid_frame r f); [done|].
  destruct (LRUKReplacer.node_store_ r !! f) eqn:E; intros [= <-]; [done|].
  by rewrite delete_id.
Qed.

Lemma Evict_store order r victim r' :
  order ≡ₚ map_to_list (LRUKReplacer.node_store_ r) ->
  LRUKReplacer.Evict order r = Ret (victim, r') ->
  match victim with
  | Some f =>
      LRUKReplacer.node_store_ r' = delete f (LRUKReplacer.node_store_ r) /\
      exists nd, LRUKReplacer.node_store_ r !! f = Some nd /\
                 LRUKReplacer.is_evictable_ nd = true
  | None => r' = r
  end.
Proof.
  intros Hperm. unfold LRUKReplacer.Evict.
  case_match; [by intros [= <- <-]|].
  destruct (LRUKReplacer.Evict_loop r order _) as [vars| |] eqn:Hloop;
    simpl; try done.
  destruct (LRUKReplacer.flag vars) eqn:Hflag; intros [= <- <-]; [|done].
  split; [done|].
  assert (victim_ok r (LRUKReplacer.mkVars false INVALID_PAGE_ID 0)) as Hstart
    by (by intros [=]).
  assert (forall it, it ∈ order -> LRUKReplacer.node_store_ r !! it.1 = Some it.2)
    as Hin.
  { intros [f nd] Hit. rewrite Hperm in Hit. by apply elem_of_map_to_list in Hit. }
  exact (Evict_loop_victim r order _ _ Hin Hstart Hloop Hflag).
Qed.

(** Once a page has been installed in frame [f] (the two calls on the
    replacer, in either order), the replacer tracks [f] as not
    evictable and knows the other frames as before. *)
Lemma installed_NewPage r f r1 r2 :
  LRUKReplacer.SetEvictable r f false = Ret r1 ->
  LRUKReplacer.RecordAccess r1 f = Ret r2 ->
  (forall g, g ≠ f ->
     LRUKReplacer.node_store_ r2 !! g = LRUKReplacer.node_store_ r !! g) /\
  LRUKReplacer.is_evictable_ <$> LRUKReplacer.node_store_ r2 !! f = Some false.
Proof.
  intros H1 H2.
  destruct (SetEvictable_store _ _ _ _ H1) as [Hne1 Hf1].
  destruct (RecordAccess_store _ _ _ H2) as [Hne2 Hf2].
  split; [intros g Hg; by rewrite Hne2, Hne1|].
  rewrite Hf2, Hf1. by destruct (LRUKReplacer.node_store_ r !! f).
Qed.

Lemma installed_FetchPage r f r1 r2 :
  LRUKReplacer.RecordAccess r f = Ret r1 ->
  LRUKReplacer.SetEvictable r1 f false = Ret r2 ->
  (forall g, g ≠ f ->
     LRUKReplacer.node_store_ r2 !! g = LRUKReplacer.node_store_ r !! g) /\
  LRUKReplacer.is_evictable_ <$> LRUKReplacer.node_store_ r2 !! f = Some false.
Proof.
  intros H1 H2.
  destruct (RecordAccess_store _ _ _ H1) as [Hne1 Hf1].
  destruct (SetEvictable_store _ _ _ _ H2) as [Hne2 Hf2].
  split; [intros g Hg; by rewrite Hne2, Hne1|].
  rewrite Hf2. by destruct (LRUKReplacer.node_store_ r1 !! f).
Qed.

(** ** The frame picked for a new occupant *)

Lemma pick_frame_safe order sz ps pt fl r n d picked b1 :
  pool_safe (mk sz ps pt fl r n d false) ->
  order ≡ₚ map_to_list (LRUKReplacer.node_store_ r) ->
  pick_frame order (mk sz ps pt fl r n d true) = Ret (picked, b1) ->
  match picked with
  | None => b1 = mk sz ps pt fl r n d true
  | Some f =>
      exists fl' r' pg,
        b1 = mk sz ps pt fl' r' n d true /\
        0 <= f < Z.of_nat (length ps) /\
        ps !! Z.to_nat f = Some pg /\ pin_count_ pg = 0 /\
        (f ∉ fl') /\ (forall g, g ∈ fl' -> g ∈ fl) /\ NoDup fl' /\
        LRUKReplacer.node_store_ r' !! f = None /\
        (forall g, g ≠ f ->
           LRUKReplacer.node_store_ r' !! g = LRUKReplacer.node_store_ r !! g)
  end.
Proof.
  intros (Hinv & HA & HB & HC & HD) Hperm. simpl in *.
  destruct Hinv as (_ & _ & _ & Hkeys & Hfree). simpl in *.
  unfold pick_frame. simpl. case_match; [by intros [= <- <-]|].
  destruct (last fl) as [f|] eqn:Hlast.
  - intros [= <- <-]. apply last_Some in Hlast as [fl' ->].
    destruct (HB f) as (pg & Hpg & _ & Hpin & Hnone); [apply elem_of_app; right; by left|].
    apply NoDup_app in HC as (HC & Hdisj & _).
    exists fl', r, pg. rewrite take_app_length' by (rewrite length_app; simpl; lia).
    split; [done|]. split; [apply Hfree, elem_of_app; right; by left|].
    repeat split; try done.
    + intros Hin. apply (Hdisj f Hin). by left.
    + intros g Hg. apply elem_of_app. by left.
  - destruct (LRUKReplacer.Evict order r) as [[victim r']| |] eqn:HE;
      simpl; try done.
    intros [= <- <-]. pose proof (Evict_store _ _ _ _ Hperm HE) as Hstore.
    destruct victim as [f|]; [|by subst].
    destruct Hstore as (Hdel & nd & Hnd & Hev).
    destruct Hkeys as [_ Hkeys].
    assert (0 <= f < Z.of_nat (length ps)) as Hf by (apply Hkeys; by rewrite Hnd).
    destruct (lookup_lt_is_Some_2 ps (Z.to_nat f)) as [pg Hpg]; [lia|].
    exists fl, r', pg. repeat split; try done; try lia.
    + by eapply HD.
    + intros Hin. destruct (HB f Hin) as (_ & _ & _ & _ & Hnone). congruence.
    + rewrite Hdel. apply lookup_delete_eq.
    + intros g Hg. rewrite Hdel. by apply lookup_delete_ne.
Qed.

Lemma to_nat_ne f g : 0 <= f -> 0 <= g -> g ≠ f -> Z.to_nat f ≠ Z.to_nat g.
Proof. lia. Qed.

(** The invariant after a page with id [page_id] has been installed in the
    frame [f] picked by [pick_frame]. *)
Lemma pool_safe_installed sz ps pt fl r n d fl' r' r2 pg f page_id newpg n' d' :
  pool_safe (mk sz ps pt fl r n d false) ->
  pool_inv (mk sz (<[Z.to_nat f := newpg]> ps)
               (emplace (delete (page_id_ pg) pt) page_id f) fl' r2 n' d' false) ->
  0 <= f < Z.of_nat (length ps) ->
  ps !! Z.to_nat f = Some pg ->
  (f ∉ fl') -> (forall g, g ∈ fl' -> g ∈ fl) -> NoDup fl' ->
  LRUKReplacer.node_store_ r' !! f = None ->
  (forall g, g ≠ f ->
     LRUKReplacer.node_store_ r' !! g = LRUKReplacer.node_store_ r !! g) ->
  (forall g, g ≠ f ->
     LRUKReplacer.node_store_ r2 !! g = LRUKReplacer.node_store_ r' !! g) ->
  LRUKReplacer.is_evictable_ <$> LRUKReplacer.node_store_ r2 !! f = Some false ->
  page_id_ newpg = page_id ->
  pool_safe (mk sz (<[Z.to_nat f := newpg]> ps)
                (emplace (delete (page_id_ pg) pt) page_id f) fl' r2 n' d' false).
Proof.
  intros (Hinv & HA & HB & HC & HD) Hinv' Hf Hpg Hnotin Hsub HC' Hnone Hother
    Hother2 Hflag Hid. simpl in *.
  destruct Hinv as ((_ & _ & Hframes & _) & _ & _ & [_ Hkeys] & Hfree).
  simpl in *.
  split; [done|]. simpl. split; [|split; [|split; [done|]]].
  - intros p g Hp. apply emplace_lookup_Some in Hp as [[-> ->]|Hp].
    + exists newpg. split; [|done]. apply list_lookup_insert_eq. lia.
    + apply lookup_delete_Some in Hp as [Hne Hp].
      destruct (HA p g Hp) as (pg' & Hpg' & Hid').
      exists pg'. split; [|done].
      rewrite list_lookup_insert_ne; [done|].
      intros Heq. rewrite <- Heq in Hpg'. congruence.
  - intros g Hg. assert (g ≠ f) as Hgf by congruence.
    destruct (HB g (Hsub g Hg)) as (pg' & Hpg' & Hid' & Hpin' & Hnone').
    exists pg'. rewrite list_lookup_insert_ne
      by (apply to_nat_ne; [lia|apply Hfree; auto|done]).
    by rewrite Hother2, Hother.
  - intros g nd pg' Hg Hev Hpg'.
    assert (g ≠ f) as Hgf.
    { intros ->. rewrite Hg in Hflag. simpl in Hflag. congruence. }
    rewrite Hother2, Hother in Hg by done.
    rewrite list_lookup_insert_ne in Hpg'; [by eapply HD|].
    apply to_nat_ne; [lia| |done]. apply Hkeys. by rewrite Hg.
Qed.

Lemma pool_safe_NewPage order b res b' :
  pool_safe b ->
  order ≡ₚ map_to_list (LRUKReplacer.node_store_ (replacer_ b)) ->
  NewPage order b = Ret (res, b') ->
  pool_safe b'.
Proof.
  intros Hsafe Hperm Hop.
  pose proof (pool_inv_NewPage _ _ _ _ (proj1 Hsafe) Hperm Hop) as Hinv'.
  destruct b as [sz ps pt fl r n d l].
  assert (l = false) as -> by (by destruct Hsafe as (((? & _) & _) & _)).
  unfold NewPage, with_latch in Hop. simpl in *.
  destruct (pick_frame order _) as [[picked b1]| |] eqn:Hpick;
    simpl in Hop; try done.
  apply (pick_frame_safe _ _ _ _ _ _ _ _ _ _ Hsafe Hperm) in Hpick.
  destruct picked as [f|]; [|subst b1; by injection Hop as _ <-].
  destruct Hpick as (fl' & r' & pg & -> & Hf & Hpg & Hpin & Hnotin & Hsub & HC'
                     & Hnone & Hother).
  unfold page_at in Hop. simpl in Hop.
  destruct (f <? 0) eqn:Hneg; [apply Z.ltb_lt in Hneg; lia|].
  rewrite Hpg in Hop. simpl in Hop. unfold write_back in Hop.
  destruct (is_dirty_ pg); simpl in Hop;
    (destruct (LRUKReplacer.SetEvictable r' f false) as [r1| |] eqn:H1;
       simpl in Hop; try done);
    (destruct (LRUKReplacer.RecordAccess r1 f) as [r2| |] eqn:H2;
       simpl in Hop; try done);
    injection Hop as _ <-;
    destruct (installed_NewPage _ _ _ _ H1 H2) as [Hother2 Hflag];
    by eapply (pool_safe_installed sz ps pt fl r n d fl' r' r2 pg f n).
Qed.

(** The invariant after the frame [f] of a resident page had its
    metadata rewritten (same page id) and the replacer changed at [f]
    only. *)
Lemma pool_safe_touched sz ps pt fl r n d r2 pg f newpg d' p :
  pool_safe (mk sz ps pt fl r n d false) ->
  pool_inv (mk sz (<[Z.to_nat f := newpg]> ps) pt fl r2 n d' false) ->
  pt !! p = Some f ->
  ps !! Z.to_nat f = Some pg ->
  page_id_ newpg = page_id_ pg ->
  (forall g, g ≠ f ->
     LRUKReplacer.node_store_ r2 !! g = LRUKReplacer.node_store_ r !! g) ->
  (forall nd, LRUKReplacer.node_store_ r2 !! f = Some nd ->
     LRUKReplacer.is_evictable_ nd = true -> pin_count_ newpg = 0) ->
  pool_safe (mk sz (<[Z.to_nat f := newpg]> ps) pt fl r2 n d' false).
Proof.
  intros (Hinv & HA & HB & HC & HD) Hinv' Hpt Hpg Hid Hother Hflag. simpl in *.
  destruct Hinv as ((_ & Hinvalid & Hframes & _) & _ & _ & [_ Hkeys] & Hfree).
  simpl in *. destruct (Hframes _ _ Hpt) as (Hf & Hlen & _).
  assert (page_id_ pg = p) as Hp.
  { destruct (HA p f Hpt) as (pg' & Hpg' & Hid'). congruence. }
  assert (forall g, g ∈ fl -> g ≠ f) as Hfree_ne.
  { intros g Hg ->. destruct (HB f Hg) as (pg' & Hpg' & Hid' & _).
    assert (pg' = pg) as -> by congruence. congruence. }
  split; [done|]. simpl. split; [|split; [|split; [done|]]].
  - intros q g Hq. destruct (HA q g Hq) as (pg' & Hpg' & Hid').
    destruct (decide (g = f)) as [->|Hne].
    + exists newpg. split; [apply list_lookup_insert_eq; lia|]. congruence.
    + exists pg'. split; [|done]. rewrite list_lookup_insert_ne; [done|].
      apply to_nat_ne; [lia| |done]. apply Hframes in Hq. lia.
  - intros g Hg. destruct (HB g Hg) as (pg' & Hpg' & Hid' & Hpin' & Hnone').
    exists pg'. rewrite list_lookup_insert_ne
      by (apply to_nat_ne; [lia|apply Hfree; auto|by apply Hfree_ne]).
    rewrite Hother by (by apply Hfree_ne). done.
  - intros g nd pg' Hg Hev Hpg'. destruct (decide (g = f)) as [->|Hne].
    + rewrite list_lookup_insert_eq in Hpg' by lia. injection Hpg' as <-.
      by eapply Hflag.
    + rewrite Hother in Hg by done.
      rewrite list_lookup_insert_ne in Hpg'; [by eapply HD|].
      apply to_nat_ne; [lia| |done]. apply Hkeys. by rewrite Hg.
Qed.

Lemma pool_safe_FetchPage order b page_id res b' :
  pool_safe b ->
  order ≡ₚ map_to_list (LRUKReplacer.node_store_ (replacer_ b)) ->
  FetchPage order b page_id = Ret (res, b') ->
  pool_safe b'.
Proof.
  intros Hsafe Hperm Hop.
  pose proof (pool_inv_FetchPage _ _ _ _ _ (proj1 Hsafe) Hperm Hop) as Hinv'.
  destruct b as [sz ps pt fl r n d l].
  assert (l = false) as -> by (by destruct Hsafe as (((? & _) & _) & _)).
  unfold FetchPage, with_latch in Hop. simpl in *.
  destruct (page_id =? INVALID_PAGE_ID); [by injection Hop as _ <-|].
  destruct (pt !! page_id) as [f|] eqn:Hpt; simpl in Hop.
  - unfold page_at in Hop. simpl in Hop.
    destruct (f <? 0); [done|].
    destruct (ps !! Z.to_nat f) as [pg|] eqn:Hpg; simpl in Hop; [|done].
    destruct (LRUKReplacer.RecordAccess r f) as [r1| |] eqn:H1;
      simpl in Hop; try done.
    destruct (LRUKReplacer.SetEvictable r1 f false) as [r2| |] eqn:H2;
      simpl in Hop; try done.
    injection Hop as _ <-.
    destruct (installed_FetchPage _ _ _ _ H1 H2) as [Hother Hflag].
    eapply (pool_safe_touched sz ps pt fl r n d r2 pg f); try done.
    intros nd Hnd Hev. rewrite Hnd in Hflag. simpl in Hflag. congruence.
  - destruct (pick_frame order _) as [[picked b1]| |] eqn:Hpick;
      simpl in Hop; try done.
    apply (pick_frame_safe _ _ _ _ _ _ _ _ _ _ Hsafe Hperm) in Hpick.
    destruct picked as [f|]; [|subst b1; by injection Hop as _ <-].
    destruct Hpick as (fl' & r' & pg & -> & Hf & Hpg & Hpin & Hnotin & Hsub & HC'
                       & Hnone & Hother).
    unfold page_at in Hop. simpl in Hop.
    destruct (f <? 0) eqn:Hneg; [apply Z.ltb_lt in Hneg; lia|].
    rewrite Hpg in Hop. simpl in Hop. unfold write_back in Hop.
    destruct (is_dirty_ pg); simpl in Hop;
      (destruct (LRUKReplacer.RecordAccess r' f) as [r1| |] eqn:H1;
         simpl in Hop; try done);
      (destruct (LRUKReplacer.SetEvictable r1 f false) as [r2| |] eqn:H2;
         simpl in Hop; try done);
      injection Hop as _ <-;
      destruct (installed_FetchPage _ _ _ _ H1 H2) as [Hother2 Hflag];
      by eapply (pool_safe_installed sz ps pt fl r n d fl' r' r2 pg f page_id).
Qed.

Lemma pool_safe_UnpinPage b page_id is_dirty ok b' :
  pool_safe b -> UnpinPage b page_id is_dirty = Ret (ok, b') -> pool_safe b'.
Proof.
  intros Hsafe Hop.
  pose proof (pool_inv_UnpinPage _ _ _ _ _ (proj1 Hsafe) Hop) as Hinv'.
  destruct b as [sz ps pt fl r n d l].
  assert (l = false) as -> by (by destruct Hsafe as (((? & _) & _) & _)).
  unfold UnpinPage, with_latch in Hop. simpl in *.
  destruct (page_id =? INVALID_PAGE_ID); [by injection Hop as _ <-|].
  destruct (pt !! page_id) as [f|] eqn:Hpt; simpl in Hop;
    [|by injection Hop as _ <-].
  unfold page_at in Hop. simpl in Hop. destruct (f <? 0); [done|].
  destruct (ps !! Z.to_nat f) as [pg|] eqn:Hpg; simpl in Hop; [|done].
  destruct (pin_count_ pg <=? 0) eqn:Hle; simpl in Hop;
    [by injection Hop as _ <-|]. apply Z.leb_gt in Hle.
  destruct (pin_count_ pg - 1 =? 0) eqn:Hzero; simpl in Hop.
  - apply Z.eqb_eq in Hzero.
    destruct (LRUKReplacer.SetEvictable r f true) as [r2| |] eqn:H2;
      simpl in Hop; try done.
    injection Hop as _ <-.
    destruct (SetEvictable_store _ _ _ _ H2) as [Hother _].
    by eapply (pool_safe_touched sz ps pt fl r n d r2 pg f).
  - injection Hop as _ <-.
    eapply (pool_safe_touched sz ps pt fl r n d r pg f); try done.
    intros nd Hnd Hev. simpl.
    destruct Hsafe as (_ & _ & _ & _ & HD). simpl in HD.
    specialize (HD f nd pg Hnd Hev Hpg). lia.
Qed.

Lemma pool_safe_FlushPage b page_id ok b' :
  pool_safe b -> FlushPage b page_id = Ret (ok, b') -> pool_safe b'.
Proof.
  intros Hsafe Hop.
  pose proof (pool_inv_FlushPage _ _ _ _ (proj1 Hsafe) Hop) as Hinv'.
  destruct b as [sz ps pt fl r n d l].
  assert (l = false) as -> by (by destruct Hsafe as (((? & _) & _) & _)).
  unfold FlushPage, with_latch in Hop. simpl in *.
  destruct (pt !! page_id) as [f|] eqn:Hpt; simpl in Hop;
    [|by injection Hop as _ <-].
  unfold page_at in Hop. simpl in Hop. destruct (f <? 0); [done|].
  destruct (ps !! Z.to_nat f) as [pg|] eqn:Hpg; simpl in Hop; [|done].
  injection Hop as _ <-.
  eapply (pool_safe_touched sz ps pt fl r n d r pg f); try done.
  intros nd Hnd Hev. simpl.
  destruct Hsafe as (_ & _ & _ & _ & HD). by eapply HD.
Qed.

Lemma pool_safe_DeletePage b page_id ok b' :
  pool_safe b -> DeletePage b page_id = Ret (ok, b') -> pool_safe b'.
Proof.
  intros Hsafe Hop.
  pose proof (pool_inv_DeletePage _ _ _ _ (proj1 Hsafe) Hop) as Hinv'.
  destruct b as [sz ps pt fl r n d l].
  assert (l = false) as -> by (by destruct Hsafe as (((? & _) & _) & _)).
  unfold DeletePage, with_latch in Hop. simpl in *.
  destruct (pt !! page_id) as [f|] eqn:Hpt; simpl in Hop;
    [|by injection Hop as _ <-].
  unfold page_at in Hop. simpl in Hop. destruct (f <? 0); [done|].
  destruct (ps !! Z.to_nat f) as [pg|] eqn:Hpg; simpl in Hop; [|done].
  destruct (0 <? pin_count_ pg) eqn:Hpin; simpl in Hop;
    [by injection Hop as _ <-|].
  destruct (LRUKReplacer.Remove r f) as [r2| |] eqn:H2; simpl in Hop; try done.
  injection Hop as _ <-. apply Remove_store in H2.
  destruct Hsafe as (Hinv & HA & HB & HC & HD). simpl in *.
  destruct Hinv as ((_ & Hinvalid & Hframes & _) & _ & _ & [_ Hkeys] & Hfree).
  simpl in *. destruct (Hframes _ _ Hpt) as (Hf & Hlen & _).
  assert (page_id_ pg = page_id) as Hp.
  { destruct (HA page_id f Hpt) as (pg' & Hpg' & Hid'). congruence. }
  assert (forall g, g ∈ fl -> g ≠ f) as Hfree_ne.
  { intros g Hg ->. destruct (HB f Hg) as (pg' & Hpg' & Hid' & _).
    assert (pg' = pg) as -> by congruence. congruence. }
  split; [done|]. simpl. split; [|split; [|split]].
  - intros q g Hq. apply lookup_delete_Some in Hq as [Hne Hq].
    destruct (HA q g Hq) as (pg' & Hpg' & Hid').
    exists pg'. split; [|done]. rewrite list_lookup_insert_ne; [done|].
    intros Heq. rewrite <- Heq in Hpg'. congruence.
  - intros g Hg. apply elem_of_app in Hg as [Hg|Hg].
    + destruct (HB g Hg) as (pg' & Hpg' & Hid' & Hpin' & Hnone').
      exists pg'. rewrite list_lookup_insert_ne
        by (apply to_nat_ne; [lia|apply Hfree; auto|by apply Hfree_ne]).
      rewrite H2, lookup_delete_ne by (symmetry; by apply Hfree_ne). done.
    + apply list_elem_of_singleton in Hg as ->.
      eexists. rewrite list_lookup_insert_eq by lia.
      split; [done|]. simpl. by rewrite H2, lookup_delete_eq.
  - apply NoDup_app. split; [done|]. split; [|apply NoDup_singleton].
    intros g Hg Hin. apply list_elem_of_singleton in Hin. by apply (Hfree_ne g).
  - intros g nd pg' Hg Hev Hpg'. rewrite H2 in Hg.
    apply lookup_delete_Some in Hg as [Hne Hg].
    rewrite list_lookup_insert_ne in Hpg'; [by eapply HD|].
    apply to_nat_ne; [lia| |done]. apply Hkeys. by rewrite Hg.
Qed.

Lemma pool_safe_new pool_size disk_manager replacer_k :
  0 <= pool_size < 2 ^ 31 ->
  pool_safe (BufferPoolManager.new pool_size disk_manager replacer_k).
Proof.
  intros Hsz. split; [by apply pool_inv_new|]. simpl.
  split; [|split; [|split; [apply NoDup_seqZ|]]].
  - intros p f Hp. by rewrite lookup_empty in Hp.
  - intros f Hf. apply elem_of_seqZ in Hf. exists Page_new.
    rewrite lookup_replicate_2 by lia. by rewrite lookup_empty.
  - intros f nd pg Hf. by rewrite lookup_empty in Hf.
Qed.

Lemma pool_reachable_safe pool_size replacer_k b :
  0 <= pool_size < 2 ^ 31 ->
  pool_reachable pool_size replacer_k b ->
  pool_safe b.
Proof.
  intros Hsz Hb.
  induction Hb as [d|order b res b' _ IH Hperm Hop|order b p res b' _ IH Hperm Hop
                  |b p dirty ok b' _ IH Hop|b p ok b' _ IH Hop|b p ok b' _ IH Hop].
  - by apply pool_safe_new.
  - by eapply pool_safe_NewPage.
  - by eapply pool_safe_FetchPage.
  - by eapply pool_safe_UnpinPage.
  - by eapply pool_safe_FlushPage.
  - by eapply pool_safe_DeletePage.
Qed.

Lemma pool_one_page_reachable : pool_reachable 2 2 pool_one_page_state.
Proof.
  eapply (pool_reachable_NewPage 2 2 []
            (BufferPoolManager.new 2 (mkDisk ∅ []) 2)).
  - apply pool_reachable_new.
  - simpl. by rewrite map_to_list_empty.
  - vm_compute. reflexivity.
Qed.

Lemma pool_size_2 : 0 <= 2 < 2 ^ 31.
Proof. lia. Qed.

(** X16. In every state a pool reaches, the page table is sound: a
    resident page sits in the frame the table names for it, that frame is
    not in the free list, and no frame is named for two pages. *)
Theorem page_table_sound pool_size replacer_k b :
  0 <= pool_size < 2 ^ 31 ->
  pool_reachable pool_size replacer_k b ->
  (forall p f, page_table_ b !! p = Some f ->
     exists pg, pages_ b !! Z.to_nat f = Some pg /\ page_id_ pg = p /\
                f ∉ free_list_ b) /\
  (forall p1 p2 f, page_table_ b !! p1 = Some f -> page_table_ b !! p2 = Some f ->
     p1 = p2).
Proof.
  intros Hsz Hb.
  destruct (pool_reachable_safe _ _ _ Hsz Hb) as (Hinv & HA & HB & _ & _).
  destruct Hinv as ((_ & Hinvalid & _) & _). split.
  - intros p f Hp. destruct (HA p f Hp) as (pg & Hpg & Hid).
    exists pg. split; [done|]. split; [done|]. intros Hin.
    destruct (HB f Hin) as (pg' & Hpg' & Hid' & _).
    assert (pg' = pg) as -> by congruence. congruence.
  - intros p1 p2 f H1 H2.
    destruct (HA p1 f H1) as (pg1 & Hpg1 & Hid1).
    destruct (HA p2 f H2) as (pg2 & Hpg2 & Hid2). congruence.
Qed.

Lemma page_table_sound_witness :
  (forall p f, page_table_ pool_one_page_state !! p = Some f ->
     exists pg, pages_ pool_one_page_state !! Z.to_nat f = Some pg /\
                page_id_ pg = p /\ f ∉ free_list_ pool_one_page_state) /\
  (forall p1 p2 f, page_table_ pool_one_page_state !! p1 = Some f ->
     page_table_ pool_one_page_state !! p2 = Some f -> p1 = p2).
Proof.
  apply (page_table_sound 2 2 pool_one_page_state pool_size_2
           pool_one_page_reachable).
Defined.

Lemma emplace_lookup_eq pt p f : pt !! p = None -> emplace pt p f !! p = Some f.
Proof. intros Hp. unfold emplace. rewrite Hp. apply lookup_insert_eq. Qed.

(** X17. In every state a pool reaches, a [FetchPage] that returns a frame
    returns the frame that holds the page asked for: its page id is the
    one requested, it is pinned, the page table names it for the page, and
    the replacer holds it as not evictable. *)
Theorem FetchPage_returns_the_page pool_size replacer_k order b page_id f b' :
  0 <= pool_size < 2 ^ 31 ->
  pool_reachable pool_size replacer_k b ->
  order ≡ₚ map_to_list (LRUKReplacer.node_store_ (replacer_ b)) ->
  FetchPage order b page_id = Ret (Some f, b') ->
  exists pg,
    pages_ b' !! Z.to_nat f = Some pg /\
    page_id_ pg = page_id /\
    1 <= pin_count_ pg /\
    page_table_ b' !! page_id = Some f /\
    LRUKReplacer.is_evictable_ <$>
      LRUKReplacer.node_store_ (replacer_ b') !! f = Some false.
Proof.
  intros Hsz Hb Hperm Hop.
  pose proof (pool_reachable_safe _ _ _ Hsz Hb) as Hsafe.
  pose proof (pool_safe_FetchPage _ _ _ _ _ Hsafe Hperm Hop) as Hsafe'.
  destruct Hsafe' as (_ & HA' & _).
  cut (page_table_ b' !! page_id = Some f /\
       (forall pg, pages_ b' !! Z.to_nat f = Some pg -> 1 <= pin_count_ pg) /\
       LRUKReplacer.is_evictable_ <$>
         LRUKReplacer.node_store_ (replacer_ b') !! f = Some false).
  { intros (Hpt' & Hpin' & Hflag').
    destruct (HA' _ _ Hpt') as (pg & Hpg & Hid). exists pg. auto. }
  destruct b as [sz ps pt fl r n d l].
  assert (l = false) as -> by (by destruct Hsafe as (((? & _) & _) & _)).
  unfold FetchPage, with_latch in Hop. simpl in *.
  destruct (page_id =? INVALID_PAGE_ID); [done|].
  destruct (pt !! page_id) as [f0|] eqn:Hpt; simpl in Hop.
  - unfold page_at in Hop. simpl in Hop.
    destruct (f0 <? 0) eqn:Hneg; [done|]. apply Z.ltb_ge in Hneg.
    destruct (ps !! Z.to_nat f0) as [pg|] eqn:Hpg; simpl in Hop; [|done].
    destruct (LRUKReplacer.RecordAccess r f0) as [r1| |] eqn:H1;
      simpl in Hop; try done.
    destruct (LRUKReplacer.SetEvictable r1 f0 false) as [r2| |] eqn:H2;
      simpl in Hop; try done.
    injection Hop as <- <-. simpl.
    destruct (installed_FetchPage _ _ _ _ H1 H2) as [_ Hflag].
    split; [done|]. split; [|done]. intros pg'.
    rewrite list_lookup_insert_eq by (by eapply lookup_lt_Some).
    intros [= <-]. simpl.
    destruct Hsafe as (((_ & _ & _ & Hpins) & _) & _). simpl in Hpins.
    specialize (Hpins pg (list_elem_of_lookup_2 _ _ _ Hpg)). lia.
  - destruct (pick_frame order _) as [[picked b1]| |] eqn:Hpick;
      simpl in Hop; try done.
    apply (pick_frame_safe _ _ _ _ _ _ _ _ _ _ Hsafe Hperm) in Hpick.
    destruct picked as [f0|]; [|subst b1; by injection Hop as ?].
    destruct Hpick as (fl' & r' & pg & -> & Hf & Hpg & Hpin & Hnotin & Hsub & HC'
                       & Hnone & Hother).
    unfold page_at in Hop. simpl in Hop.
    destruct (f0 <? 0) eqn:Hneg; [apply Z.ltb_lt in Hneg; lia|].
    rewrite Hpg in Hop. simpl in Hop. unfold write_back in Hop.
    destruct (is_dirty_ pg); simpl in Hop;
      (destruct (LRUKReplacer.RecordAccess r' f0) as [r1| |] eqn:H1;
         simpl in Hop; try done);
      (destruct (LRUKReplacer.SetEvictable r1 f0 false) as [r2| |] eqn:H2;
         simpl in Hop; try done);
      injection Hop as <- <-; simpl;
      destruct (installed_FetchPage _ _ _ _ H1 H2) as [_ Hflag];
      (split; [apply emplace_lookup_eq, lookup_delete_None; by right|]);
      (split; [|done]); intros pg';
      rewrite list_lookup_insert_eq by lia; by intros [= <-].
Qed.

Lemma FetchPage_returns_the_page_witness :
  exists pg,
    pages_ pool_one_page_fetched !! Z.to_nat 1 = Some pg /\
    page_id_ pg = 0 /\
    1 <= pin_count_ pg /\
    page_table_ pool_one_page_fetched !! 0 = Some 1 /\
    LRUKReplacer.is_evictable_ <$>
      LRUKReplacer.node_store_ (replacer_ pool_one_page_fetched) !! 1 = Some false.
Proof.
  apply (FetchPage_returns_the_page 2 2
           (map_to_list (LRUKReplacer.node_store_ (replacer_ pool_one_page_state)))
           pool_one_page_state 0 1
           pool_one_page_fetched pool_size_2 pool_one_page_reachable).
  - reflexivity.
  - vm_compute. reflexivity.
Defined.

Lemma NewPage_effect order b res b' :
  pool_safe b ->
  order ≡ₚ map_to_list (LRUKReplacer.node_store_ (replacer_ b)) ->
  NewPage order b = Ret (res, b') ->
  match res with
  | None => b' = b
  | Some (page_id, f) =>
      exists pg,
        pages_ b !! Z.to_nat f = Some pg /\ pin_count_ pg = 0 /\
        page_id = next_page_id_ b /\ next_page_id_ b' = page_id + 1 /\
        disk_manager_ b' =
          (if is_dirty_ pg
           then WritePage (disk_manager_ b) (page_id_ pg) (data_ pg)
           else disk_manager_ b) /\
        pages_ b' = <[Z.to_nat f := mkPage zeroes page_id 1 false]> (pages_ b) /\
        LRUKReplacer.is_evictable_ <$>
          LRUKReplacer.node_store_ (replacer_ b') !! f = Some false /\
        page_table_ b' = emplace (delete (page_id_ pg) (page_table_ b)) page_id f /\
        (page_table_ b !! page_id = None -> page_table_ b' !! page_id = Some f)
  end.
Proof.
  intros Hsafe Hperm Hop.
  destruct b as [sz ps pt fl r n d l].
  assert (l = false) as -> by (by destruct Hsafe as (((? & _) & _) & _)).
  unfold NewPage, with_latch in Hop. simpl in *.
  destruct (pick_frame order _) as [[picked b1]| |] eqn:Hpick;
    simpl in Hop; try done.
  apply (pick_frame_safe _ _ _ _ _ _ _ _ _ _ Hsafe Hperm) in Hpick.
  destruct picked as [f|]; [|subst b1; by injection Hop as <- <-].
  destruct Hpick as (fl' & r' & pg & -> & Hf & Hpg & Hpin & Hnotin & Hsub & HC'
                     & Hnone & Hother).
  unfold page_at in Hop. simpl in Hop.
  destruct (f <? 0) eqn:Hneg; [apply Z.ltb_lt in Hneg; lia|].
  rewrite Hpg in Hop. simpl in Hop. unfold write_back in Hop.
  destruct (is_dirty_ pg) eqn:Hdirty; simpl in Hop;
    (destruct (LRUKReplacer.SetEvictable r' f false) as [r1| |] eqn:H1;
       simpl in Hop; try done);
    (destruct (LRUKReplacer.RecordAccess r1 f) as [r2| |] eqn:H2;
       simpl in Hop; try done);
    injection Hop as <- <-; simpl;
    destruct (installed_NewPage _ _ _ _ H1 H2) as [_ Hflag];
    exists pg; rewrite ?Hdirty; repeat split; try done;
    intros Hfresh; apply emplace_lookup_eq, lookup_delete_None; by right.
Qed.

(** X18. [NewPage] in a state a pool reaches.  When it returns no page,
    nothing has changed, not even the page counter.  When it returns a
    page, the id is the value of the counter, which goes up by one; the
    frame was not pinned; a dirty occupant was written to disk first and
    nothing else was; the frame now holds zeroes, the new id, one pin and
    no dirty mark, and no other frame changed; the replacer holds the
    frame as not evictable; and the page table names the frame for the
    new id unless that id was resident already. *)
Theorem NewPage_outcome pool_size replacer_k order b res b' :
  0 <= pool_size < 2 ^ 31 ->
  pool_reachable pool_size replacer_k b ->
  order ≡ₚ map_to_list (LRUKReplacer.node_store_ (replacer_ b)) ->
  NewPage order b = Ret (res, b') ->
  match res with
  | None => b' = b
  | Some (page_id, f) =>
      exists pg,
        pages_ b !! Z.to_nat f = Some pg /\ pin_count_ pg = 0 /\
        page_id = next_page_id_ b /\ next_page_id_ b' = page_id + 1 /\
        disk_manager_ b' =
          (if is_dirty_ pg
           then WritePage (disk_manager_ b) (page_id_ pg) (data_ pg)
           else disk_manager_ b) /\
        pages_ b' = <[Z.to_nat f := mkPage zeroes page_id 1 false]> (pages_ b) /\
        LRUKReplacer.is_evictable_ <$>
          LRUKReplacer.node_store_ (replacer_ b') !! f = Some false /\
        page_table_ b' = emplace (delete (page_id_ pg) (page_table_ b)) page_id f /\
        (page_table_ b !! page_id = None -> page_table_ b' !! page_id = Some f)
  end.
Proof.
  intros Hsz Hb. apply NewPage_effect. by eapply pool_reachable_safe.
Qed.

Lemma NewPage_outcome_witness :
  exists pg,
    pages_ (BufferPoolManager.new 2 (mkDisk ∅ []) 2) !! Z.to_nat 1 = Some pg /\
    pin_count_ pg = 0 /\
    0 = next_page_id_ (BufferPoolManager.new 2 (mkDisk ∅ []) 2) /\
    next_page_id_ pool_one_page_state = 0 + 1 /\
    disk_manager_ pool_one_page_state =
      (if is_dirty_ pg
       then WritePage (disk_manager_ (BufferPoolManager.new 2 (mkDisk ∅ []) 2))
                      (page_id_ pg) (data_ pg)
       else disk_manager_ (BufferPoolManager.new 2 (mkDisk ∅ []) 2)) /\
    pages_ pool_one_page_state =
      <[Z.to_nat 1 := mkPage zeroes 0 1 false]>
        (pages_ (BufferPoolManager.new 2 (mkDisk ∅ []) 2)) /\
    LRUKReplacer.is_evictable_ <$>
      LRUKReplacer.node_store_ (replacer_ pool_one_page_state) !! 1 = Some false /\
    page_table_ pool_one_page_state =
      emplace (delete (page_id_ pg)
                 (page_table_ (BufferPoolManager.new 2 (mkDisk ∅ []) 2))) 0 1 /\
    (page_table_ (BufferPoolManager.new 2 (mkDisk ∅ []) 2) !! 0 = None ->
     page_table_ pool_one_page_state !! 0 = Some 1).
Proof.
  apply (NewPage_outcome 2 2 [] (BufferPoolManager.new 2 (mkDisk ∅ []) 2)
           (Some (0, 1)) pool_one_page_state pool_size_2).
  - apply pool_reachable_new.
  - simpl. by rewrite map_to_list_empty.
  - vm_compute. reflexivity.
Defined.

Lemma FetchPage_miss_effect order b page_id res b' :
  pool_safe b ->
  order ≡ₚ map_to_list (LRUKReplacer.node_store_ (replacer_ b)) ->
  page_table_ b !! page_id = None ->
  FetchPage order b page_id = Ret (res, b') ->
  match res with
  | None => b' = b
  | Some f =>
      exists pg,
        pages_ b !! Z.to_nat f = Some pg /\ pin_count_ pg = 0 /\
        let written :=
          if is_dirty_ pg
          then WritePage (disk_manager_ b) (page_id_ pg) (data_ pg)
          else disk_manager_ b in
        disk_manager_ b' = (ReadPage written page_id).2 /\
        pages_ b' =
          <[Z.to_nat f := mkPage (ReadPage written page_id).1 page_id 1 false]>
            (pages_ b) /\
        page_table_ b' = <[page_id := f]> (delete (page_id_ pg) (page_table_ b)) /\
        next_page_id_ b' = next_page_id_ b
  end.
Proof.
  intros Hsafe Hperm Hmiss Hop.
  destruct b as [sz ps pt fl r n d l].
  assert (l = false) as -> by (by destruct Hsafe as (((? & _) & _) & _)).
  unfold FetchPage, with_latch in Hop. simpl in *.
  destruct (page_id =? INVALID_PAGE_ID); [by injection Hop as <- <-|].
  rewrite Hmiss in Hop.
  destruct (pick_frame order _) as [[picked b1]| |] eqn:Hpick;
    simpl in Hop; try done.
  apply (pick_frame_safe _ _ _ _ _ _ _ _ _ _ Hsafe Hperm) in Hpick.
  destruct picked as [f|]; [|subst b1; by injection Hop as <- <-].
  destruct Hpick as (fl' & r' & pg & -> & Hf & Hpg & Hpin & Hnotin & Hsub & HC'
                     & Hnone & Hother).
  unfold page_at in Hop. simpl in Hop.
  destruct (f <? 0) eqn:Hneg; [apply Z.ltb_lt in Hneg; lia|].
  rewrite Hpg in Hop. simpl in Hop. unfold write_back in Hop.
  assert (emplace (delete (page_id_ pg) pt) page_id f
          = <[page_id := f]> (delete (page_id_ pg) pt)) as Hemplace.
  { unfold emplace. by rewrite (proj2 (lookup_delete_None _ _ _) (or_intror Hmiss)). }
  destruct (is_dirty_ pg) eqn:Hdirty; simpl in Hop;
    (destruct (LRUKReplacer.RecordAccess r' f) as [r1| |] eqn:H1;
       simpl in Hop; try done);
    (destruct (LRUKReplacer.SetEvictable r1 f false) as [r2| |] eqn:H2;
       simpl in Hop; try done);
    injection Hop as <- <-; simpl;
    exists pg; rewrite ?Hdirty, ?Hemplace; by repeat split.
Qed.

(** X19. [FetchPage] of a page that is not resident, in a state a pool
    reaches.  When it returns no frame nothing has changed.  When it
    returns a frame, the frame was not pinned; a dirty occupant was
    written to disk first; the frame now holds the bytes the disk has for
    the page (zeroes if it has none), the page id, one pin and no dirty
    mark, and no other frame changed; the page table lost the old
    occupant and names the frame for the page; the page counter is
    untouched. *)
Theorem FetchPage_miss_outcome pool_size replacer_k order b page_id res b' :
  0 <= pool_size < 2 ^ 31 ->
  pool_reachable pool_size replacer_k b ->
  order ≡ₚ map_to_list (LRUKReplacer.node_store_ (replacer_ b)) ->
  page_table_ b !! page_id = None ->
  FetchPage order b page_id = Ret (res, b') ->
  match res with
  | None => b' = b
  | Some f =>
      exists pg,
        pages_ b !! Z.to_nat f = Some pg /\ pin_count_ pg = 0 /\
        let written :=
          if is_dirty_ pg
          then WritePage (disk_manager_ b) (page_id_ pg) (data_ pg)
          else disk_manager_ b in
        disk_manager_ b' = (ReadPage written page_id).2 /\
        pages_ b' =
          <[Z.to_nat f := mkPage (ReadPage written page_id).1 page_id 1 false]>
            (pages_ b) /\
        page_table_ b' = <[page_id := f]> (delete (page_id_ pg) (page_table_ b)) /\
        next_page_id_ b' = next_page_id_ b
  end.
Proof.
  intros Hsz Hb. apply FetchPage_miss_effect. by eapply pool_reachable_safe.
Qed.

Lemma pool_dirty_page_reachable : pool_reachable 1 2 pool_dirty_page.
Proof.
  eapply (pool_reachable_UnpinPage 1 2 _ 0 true).
  - eapply (pool_reachable_NewPage 1 2 []
              (BufferPoolManager.new 1 (mkDisk ∅ []) 2)).
    + apply pool_reachable_new.
    + simpl. by rewrite map_to_list_empty.
    + vm_compute. reflexivity.
  - vm_compute. reflexivity.
Qed.

Lemma pool_size_1 : 0 <= 1 < 2 ^ 31.
Proof. lia. Qed.

Lemma FetchPage_miss_outcome_witness :
  exists pg,
    pages_ pool_dirty_page !! Z.to_nat 0 = Some pg /\ pin_count_ pg = 0 /\
    let written :=
      if is_dirty_ pg
      then WritePage (disk_manager_ pool_dirty_page) (page_id_ pg) (data_ pg)
      else disk_manager_ pool_dirty_page in
    disk_manager_ pool_after_miss = (ReadPage written 1).2 /\
    pages_ pool_after_miss =
      <[Z.to_nat 0 := mkPage (ReadPage written 1).1 1 1 false]>
        (pages_ pool_dirty_page) /\
    page_table_ pool_after_miss =
      <[1 := 0]> (delete (page_id_ pg) (page_table_ pool_dirty_page)) /\
    next_page_id_ pool_after_miss = next_page_id_ pool_dirty_page.
Proof.
  apply (FetchPage_miss_outcome 1 2
           (map_to_list (LRUKReplacer.node_store_ (replacer_ pool_dirty_page)))
           pool_dirty_page 1 (Some 0) pool_after_miss pool_size_1
           pool_dirty_page_reachable).
  - reflexivity.
  - reflexivity.
  - vm_compute. reflexivity.
Defined.

(** X20. [DeletePage] in a state a pool reaches.  On a page that is not
    resident it returns true and changes nothing; on a pinned page it
    returns false and changes nothing; otherwise it returns true, the
    page leaves the page table, its frame is reset and appended to the
    free list, the replacer forgets the frame, and nothing is written to
    disk, dirty page or not. *)
Theorem DeletePage_outcome pool_size replacer_k b page_id ok b' :
  0 <= pool_size < 2 ^ 31 ->
  pool_reachable pool_size replacer_k b ->
  DeletePage b page_id = Ret (ok, b') ->
  match page_table_ b !! page_id with
  | None => ok = true /\ b' = b
  | Some f =>
      exists pg, pages_ b !! Z.to_nat f = Some pg /\
        if 0 <? pin_count_ pg then ok = false /\ b' = b
        else
          ok = true /\
          page_table_ b' = delete page_id (page_table_ b) /\
          pages_ b' =
            <[Z.to_nat f := mkPage zeroes INVALID_PAGE_ID 0 false]> (pages_ b) /\
          free_list_ b' = free_list_ b ++ [f] /\
          LRUKReplacer.node_store_ (replacer_ b') !! f = None /\
          disk_manager_ b' = disk_manager_ b /\
          next_page_id_ b' = next_page_id_ b
  end.
Proof.
  intros Hsz Hb Hop.
  pose proof (pool_reachable_safe _ _ _ Hsz Hb) as Hsafe.
  destruct b as [sz ps pt fl r n d l].
  assert (l = false) as -> by (by destruct Hsafe as (((? & _) & _) & _)).
  unfold DeletePage, with_latch in Hop. simpl in *.
  destruct (pt !! page_id) as [f|] eqn:Hpt; simpl in Hop;
    [|by injection Hop as <- <-].
  unfold page_at in Hop. simpl in Hop. destruct (f <? 0); [done|].
  destruct (ps !! Z.to_nat f) as [pg|] eqn:Hpg; simpl in Hop; [|done].
  exists pg. split; [done|].
  destruct (0 <? pin_count_ pg) eqn:Hpin; simpl in Hop;
    [by injection Hop as <- <-|].
  destruct (LRUKReplacer.Remove r f) as [r2| |] eqn:H2; simpl in Hop; try done.
  injection Hop as <- <-. apply Remove_store in H2. simpl.
  repeat split; try done. by rewrite H2, lookup_delete_eq.
Qed.

Lemma DeletePage_outcome_witness :
  match page_table_ pool_dirty_page !! 0 with
  | None => true = true /\ pool_after_delete = pool_dirty_page
  | Some f =>
      exists pg, pages_ pool_dirty_page !! Z.to_nat f = Some pg /\
        if 0 <? pin_count_ pg then true = false /\ pool_after_delete = pool_dirty_page
        else
          true = true /\
          page_table_ pool_after_delete = delete 0 (page_table_ pool_dirty_page) /\
          pages_ pool_after_delete =
            <[Z.to_nat f := mkPage zeroes INVALID_PAGE_ID 0 false]>
              (pages_ pool_dirty_page) /\
          free_list_ pool_after_delete = free_list_ pool_dirty_page ++ [f] /\
          LRUKReplacer.node_store_ (replacer_ pool_after_delete) !! f = None /\
          disk_manager_ pool_after_delete = disk_manager_ pool_dirty_page /\
          next_page_id_ pool_after_delete = next_page_id_ pool_dirty_page
  end.
Proof.
  apply (DeletePage_outcome 1 2 pool_dirty_page 0 true pool_after_delete
           pool_size_1 pool_dirty_page_reachable).
  vm_compute. reflexivity.
Defined.

(** X21. [FlushPage] in a state a pool reaches.  On a page that is not
    resident it returns false and changes nothing, the disk included; on a
    resident page it returns true, writes the bytes of the frame to disk
    whether the frame is dirty or not, so that the disk then holds them
    for the page, and clears the dirty flag of the frame; pin count, page
    table and replacer are as before. *)
Theorem FlushPage_outcome pool_size replacer_k b page_id ok b' :
  0 <= pool_size < 2 ^ 31 ->
  pool_reachable pool_size replacer_k b ->
  FlushPage b page_id = Ret (ok, b') ->
  match page_table_ b !! page_id with
  | None => ok = false /\ b' = b
  | Some f =>
      exists pg, pages_ b !! Z.to_nat f = Some pg /\
        ok = true /\
        disk_manager_ b' = WritePage (disk_manager_ b) page_id (data_ pg) /\
        contents (disk_manager_ b') !! page_id = Some (data_ pg) /\
        pages_ b' =
          <[Z.to_nat f := mkPage (data_ pg) (page_id_ pg) (pin_count_ pg) false]>
            (pages_ b) /\
        page_table_ b' = page_table_ b /\
        replacer_ b' = replacer_ b /\
        free_list_ b' = free_list_ b
  end.
Proof.
  intros Hsz Hb Hop.
  pose proof (pool_reachable_safe _ _ _ Hsz Hb) as Hsafe.
  destruct b as [sz ps pt fl r n d l].
  assert (l = false) as -> by (by destruct Hsafe as (((? & _) & _) & _)).
  unfold FlushPage, with_latch in Hop. simpl in *.
  destruct (pt !! page_id) as [f|] eqn:Hpt; simpl in Hop;
    [|by injection Hop as <- <-].
  unfold page_at in Hop. simpl in Hop. destruct (f <? 0); [done|].
  destruct (ps !! Z.to_nat f) as [pg|] eqn:Hpg; simpl in Hop; [|done].
  exists pg. injection Hop as <- <-. simpl.
  repeat split; try done. apply lookup_insert_eq.
Qed.

Lemma FlushPage_outcome_witness :
  match page_table_ pool_one_page_state !! 5 with
  | None => false = false /\ pool_one_page_state = pool_one_page_state
  | Some f =>
      exists pg, pages_ pool_one_page_state !! Z.to_nat f = Some pg /\
        false = true /\
        disk_manager_ pool_one_page_state =
          WritePage (disk_manager_ pool_one_page_state) 5 (data_ pg) /\
        contents (disk_manager_ pool_one_page_state) !! 5 = Some (data_ pg) /\
        pages_ pool_one_page_state =
          <[Z.to_nat f := mkPage (data_ pg) (page_id_ pg) (pin_count_ pg) false]>
            (pages_ pool_one_page_state) /\
        page_table_ pool_one_page_state = page_table_ pool_one_page_state /\
        replacer_ pool_one_page_state = replacer_ pool_one_page_state /\
        free_list_ pool_one_page_state = free_list_ pool_one_page_state
  end.
Proof.
  apply (FlushPage_outcome 2 2 pool_one_page_state 5 false pool_one_page_state
           pool_size_2 pool_one_page_reachable).
  vm_compute. reflexivity.
Defined.

Lemma SetEvictable_size r f flag r' :
  LRUKReplacer.SetEvictable r f flag = Ret r' ->
  LRUKReplacer.replacer_size_ r' = LRUKReplacer.replacer_size_ r.
Proof.
  unfold LRUKReplacer.SetEvictable.
  destruct (LRUKReplacer.invalid_frame r f); [done|].
  destruct (LRUKReplacer.node_store_ r !! f) as [nd|]; [|by intros [= <-]].
  case_bool_decide; by intros [= <-].
Qed.

Lemma Page_eta pg :
  mkPage (data_ pg) (page_id_ pg) (pin_count_ pg) (is_dirty_ pg) = pg.
Proof. by destruct pg. Qed.

(** X22. In every state a pool reaches, [FetchPage] of a resident page
    followed by [UnpinPage] of it with a false dirty hint both succeed and
    leave every frame (bytes, page id, pin count, dirty flag), the page
    table, the free list, the page counter and the disk as they were. *)
Theorem FetchPage_UnpinPage_restores pool_size replacer_k order b page_id f :
  0 <= pool_size < 2 ^ 31 ->
  pool_reachable pool_size replacer_k b ->
  page_table_ b !! page_id = Some f ->
  exists b1 b2,
    FetchPage order b page_id = Ret (Some f, b1) /\
    UnpinPage b1 page_id false = Ret (true, b2) /\
    pages_ b2 = pages_ b /\
    page_table_ b2 = page_table_ b /\
    free_list_ b2 = free_list_ b /\
    next_page_id_ b2 = next_page_id_ b /\
    disk_manager_ b2 = disk_manager_ b.
Proof.
  intros Hsz Hb Hpt.
  destruct (pool_reachable_well_formed _ _ _ Hsz Hb)
    as (Hlatch & Hinvalid & Hframes & Hpins).
  destruct b as [sz ps pt fl r n d l]. simpl in *. subst l.
  destruct (Hframes _ _ Hpt) as (Hf & Hlen & Hrep).
  destruct (lookup_lt_is_Some_2 ps (Z.to_nat f)) as [pg Hpg]; [lia|].
  assert (0 <= pin_count_ pg) as Hpin
    by (apply Hpins; by eapply list_elem_of_lookup_2).
  destruct (RecordAccess_returns r f) as (r1 & H1 & Hsize1);
    [by rewrite to_size_t_small|].
  destruct (SetEvictable_returns r1 f false) as (r2 & H2 & _);
    [by rewrite Hsize1, to_size_t_small|].
  pose proof (SetEvictable_size _ _ _ _ H2) as Hsize2.
  destruct (SetEvictable_returns r2 f true) as (r3 & H3 & _);
    [by rewrite Hsize2, Hsize1, to_size_t_small|].
  assert ((page_id =? INVALID_PAGE_ID) = false) as Hid.
  { apply Z.eqb_neq. intros ->. congruence. }
  assert ((f <? 0) = false) as Hneg by (apply Z.ltb_ge; lia).
  assert ((pin_count_ pg + 1 <=? 0) = false) as Hle by (apply Z.leb_gt; lia).
  assert (insert (Z.to_nat f)
            (mkPage (data_ pg) (page_id_ pg) (pin_count_ pg + 1 - 1)
                    (is_dirty_ pg || false))
            (insert (Z.to_nat f)
               (mkPage (data_ pg) (page_id_ pg) (pin_count_ pg + 1)
                       (is_dirty_ pg)) ps) = ps) as Hps.
  { rewrite list_insert_insert_eq, Z.add_simpl_r, orb_false_r, Page_eta.
    by apply list_insert_id. }
  exists (mk sz (<[Z.to_nat f :=
                    mkPage (data_ pg) (page_id_ pg) (pin_count_ pg + 1)
                           (is_dirty_ pg)]> ps) pt fl r2 n d false).
  assert (exists b2,
            UnpinPage
              (mk sz (<[Z.to_nat f :=
                          mkPage (data_ pg) (page_id_ pg) (pin_count_ pg + 1)
                                 (is_dirty_ pg)]> ps) pt fl r2 n d false)
              page_id false = Ret (true, b2) /\
            pages_ b2 = ps /\ page_table_ b2 = pt /\ free_list_ b2 = fl /\
            next_page_id_ b2 = n /\ disk_manager_ b2 = d) as (b2 & Hunpin).
  { unfold UnpinPage, with_latch, page_at. simpl.
    rewrite Hid, Hpt. simpl. rewrite Hneg.
    rewrite list_lookup_insert_eq by (by eapply lookup_lt_Some). simpl.
    rewrite Hle.
    destruct (pin_count_ pg + 1 - 1 =? 0); [rewrite H3|]; simpl;
      eexists; (split; [reflexivity|]); simpl; by rewrite Hps. }
  exists b2. split; [|done].
  unfold FetchPage, with_latch, page_at. simpl.
  rewrite Hid, Hpt. simpl. rewrite Hneg, Hpg. simpl. rewrite H1. simpl.
  by rewrite H2.
Qed.

Lemma FetchPage_UnpinPage_restores_witness :
  exists b1 b2,
    FetchPage [] pool_one_page_state 0 = Ret (Some 1, b1) /\
    UnpinPage b1 0 false = Ret (true, b2) /\
    pages_ b2 = pages_ pool_one_page_state /\
    page_table_ b2 = page_table_ pool_one_page_state /\
    free_list_ b2 = free_list_ pool_one_page_state /\
    next_page_id_ b2 = next_page_id_ pool_one_page_state /\
    disk_manager_ b2 = disk_manager_ pool_one_page_state.
Proof.
  apply (FetchPage_UnpinPage_restores 2 2 [] pool_one_page_state 0 1
           pool_size_2 pool_one_page_reachable).
  reflexivity.
Defined.

Lemma pool_early_fetch_reachable : pool_reachable 2 2 pool_early_fetch.
Proof.
  eapply (pool_reachable_FetchPage 2 2 []
            (BufferPoolManager.new 2 (mkDisk ∅ []) 2) 0).
  - apply pool_reachable_new.
  - simpl. by rewrite map_to_list_empty.
  - vm_compute. reflexivity.
Qed.

(** X23. [NewPage] does not look whether the id it hands out is in use.
    In a state a pool reaches where the value of the page counter is the
    id of a resident, pinned page (which [FetchPage] of an id not handed
    out yet brings about), a [NewPage] that returns a page returns that
    id again with another frame; the pinned frame is left as it was, so
    that afterwards two pinned frames hold the same page id. *)
Theorem NewPage_resident_id pool_size replacer_k order b g pgg page_id f b' :
  0 <= pool_size < 2 ^ 31 ->
  pool_reachable pool_size replacer_k b ->
  order ≡ₚ map_to_list (LRUKReplacer.node_store_ (replacer_ b)) ->
  page_table_ b !! next_page_id_ b = Some g ->
  pages_ b !! Z.to_nat g = Some pgg ->
  0 < pin_count_ pgg ->
  NewPage order b = Ret (Some (page_id, f), b') ->
  f ≠ g /\
  page_id = next_page_id_ b /\
  pages_ b' !! Z.to_nat g = Some pgg /\
  page_id_ pgg = page_id /\
  pages_ b' !! Z.to_nat f = Some (mkPage zeroes page_id 1 false).
Proof.
  intros Hsz Hb Hperm Hpt Hg Hpinned Hop.
  pose proof (pool_reachable_safe _ _ _ Hsz Hb) as Hsafe.
  pose proof (NewPage_effect _ _ _ _ Hsafe Hperm Hop) as Heff. simpl in Heff.
  destruct Heff as (pg & Hpg & Hpin & -> & _ & _ & Hps & _).
  destruct Hsafe as (_ & HA & _).
  destruct (HA _ _ Hpt) as (pgg' & Hg' & Hid).
  assert (pgg' = pgg) as -> by congruence.
  assert (Z.to_nat f ≠ Z.to_nat g) as Hne.
  { intros Heq. rewrite Heq in Hpg. assert (pg = pgg) as -> by congruence. lia. }
  split; [by intros ->|]. split; [done|]. rewrite Hps.
  split; [by rewrite list_lookup_insert_ne|]. split; [done|].
  apply list_lookup_insert_eq. by eapply lookup_lt_Some.
Qed.

Lemma NewPage_resident_id_witness :
  0 ≠ 1 /\
  0 = next_page_id_ pool_early_fetch /\
  pages_ pool_same_id_twice !! Z.to_nat 1 = Some (mkPage zeroes 0 1 false) /\
  page_id_ (mkPage zeroes 0 1 false) = 0 /\
  pages_ pool_same_id_twice !! Z.to_nat 0 = Some (mkPage zeroes 0 1 false).
Proof.
  apply (NewPage_resident_id 2 2
           (map_to_list (LRUKReplacer.node_store_ (replacer_ pool_early_fetch)))
           pool_early_fetch 1 (mkPage zeroes 0 1 false) 0 0 pool_same_id_twice
           pool_size_2 pool_early_fetch_reachable).
  - reflexivity.
  - reflexivity.
  - reflexivity.
  - simpl. lia.
  - vm_compute. reflexivity.
Defined.

Lemma Evict_loop_none r order : forall vars,
  (forall it, it ∈ order -> LRUKReplacer.is_evictable_ it.2 = false) ->
  LRUKReplacer.Evict_loop r order vars = Ret vars.
Proof.
  induction order as [|it rest IH]; intros vars Hnone; simpl; [done|].
  unfold LRUKReplacer.Evict_body. rewrite (Hnone it) by left. simpl.
  apply IH. intros it' Hit. apply Hnone. by right.
Qed.

Lemma pick_frame_none order b :
  free_list_ b = [] ->
  (forall it, it ∈ order -> LRUKReplacer.is_evictable_ it.2 = false) ->
  pick_frame order b = Ret (None, b).
Proof.
  intros Hfree Hnone. destruct b as [sz ps pt fl r n d l]. simpl in *. subst fl.
  unfold pick_frame. simpl.
  destruct (LRUKReplacer.Size r =? 0) eqn:Hsize; [done|]. simpl.
  unfold LRUKReplacer.Evict. unfold LRUKReplacer.Size in Hsize. rewrite Hsize.
  by rewrite Evict_loop_none.
Qed.

(** X24. In a state a pool reaches with an empty free list and every
    frame pinned, [NewPage] returns no page and [FetchPage] of a page that
    is not resident returns no page either, and both leave the pool as it
    was: nothing is evicted, nothing is written, and the page counter is
    not advanced. *)
Theorem pool_exhausted pool_size replacer_k order b :
  0 <= pool_size < 2 ^ 31 ->
  pool_reachable pool_size replacer_k b ->
  order ≡ₚ map_to_list (LRUKReplacer.node_store_ (replacer_ b)) ->
  free_list_ b = [] ->
  (forall pg, pg ∈ pages_ b -> 0 < pin_count_ pg) ->
  NewPage order b = Ret (None, b) /\
  forall page_id, page_table_ b !! page_id = None ->
    FetchPage order b page_id = Ret (None, b).
Proof.
  intros Hsz Hb Hperm Hfree Hpinned.
  pose proof (pool_reachable_safe _ _ _ Hsz Hb) as Hsafe.
  assert (forall it, it ∈ order -> LRUKReplacer.is_evictable_ it.2 = false)
    as Hnone.
  { intros [f nd] Hit. simpl. rewrite Hperm in Hit.
    apply elem_of_map_to_list in Hit.
    destruct (LRUKReplacer.is_evictable_ nd) eqn:Hflag; [|done].
    destruct Hsafe as ((_ & _ & _ & [_ Hkeys] & _) & _ & _ & _ & HD).
    destruct (Hkeys f) as [Hf0 Hf1]; [by eexists|].
    destruct (lookup_lt_is_Some_2 (pages_ b) (Z.to_nat f)) as [pg Hpg]; [lia|].
    pose proof (HD _ _ _ Hit Hflag Hpg) as Hzero.
    pose proof (Hpinned pg (list_elem_of_lookup_2 _ _ _ Hpg)). lia. }
  assert (latch_ b = false) as Hlatch
    by (by destruct Hsafe as (((? & _) & _) & _)).
  assert (forall held, pick_frame order (set_latch b held)
                       = Ret (None, set_latch b held)) as Hpick.
  { intros held. apply pick_frame_none; [by destruct b|by destruct b]. }
  split.
  - unfold NewPage, with_latch. rewrite Hlatch, Hpick. simpl.
    by rewrite latch_round_trip.
  - intros page_id Hpt. unfold FetchPage, with_latch.
    destruct (page_id =? INVALID_PAGE_ID); [done|].
    rewrite Hlatch. replace (page_table_ (set_latch b true)) with (page_table_ b)
      by (by destruct b).
    rewrite Hpt, Hpick. simpl. by rewrite latch_round_trip.
Qed.

Lemma pool_full_reachable : pool_reachable 1 2 pool_full.
Proof.
  eapply (pool_reachable_NewPage 1 2 []
            (BufferPoolManager.new 1 (mkDisk ∅ []) 2)).
  - apply pool_reachable_new.
  - simpl. by rewrite map_to_list_empty.
  - vm_compute. reflexivity.
Qed.

Lemma pool_exhausted_witness :
  NewPage (map_to_list (LRUKReplacer.node_store_ (replacer_ pool_full)))
    pool_full = Ret (None, pool_full) /\
    forall page_id, page_table_ pool_full !! page_id = None ->
    FetchPage (map_to_list (LRUKReplacer.node_store_ (replacer_ pool_full)))
      pool_full page_id = Ret (None, pool_full).
Proof.
  apply (pool_exhausted 1 2 _ pool_full pool_size_1 pool_full_reachable).
  - reflexivity.
  - reflexivity.
  - intros pg Hpg. apply list_elem_of_singleton in Hpg as ->. simpl. lia.
Defined.

Lemma emplace_keeps pt p f q h :
  pt !! q = Some h -> emplace pt p f !! q = Some h.
Proof.
  intros Hq. unfold emplace. destruct (pt !! p) eqn:E; [done|].
  rewrite lookup_insert_ne; [done|]. intros ->. congruence.
Qed.

(** Writing one frame and changing the page table keeps [owned_in] when
    the entries of the other frames stay and the frame written is
    accounted for. *)
Lemma owned_in_install ps pt pt' i pg' :
  owned_in ps pt ->
  (forall j pg h, j ≠ i -> ps !! j = Some pg ->
     pt !! page_id_ pg = Some h -> Z.to_nat h = j ->
     pt' !! page_id_ pg = Some h) ->
  (page_id_ pg' = INVALID_PAGE_ID \/
   (exists f, pt' !! page_id_ pg' = Some f /\ Z.to_nat f = i) \/
   0 < pin_count_ pg') ->
  owned_in (<[i := pg']> ps) pt'.
Proof.
  intros Hown Hkeep Hnew j pg Hj.
  destruct (decide (j = i)) as [->|Hne].
  - apply list_lookup_insert_Some in Hj as [(_ & <- & _)|[? _]]; done.
  - rewrite list_lookup_insert_ne in Hj by done.
    destruct (Hown j pg Hj) as [Hid|[(h & Hh & Hhj)|Hpin]]; auto.
    right. left. exists h. split; [|done]. by eapply Hkeep.
Qed.

(** The entry of a frame other than the one taken over survives the
    [erase] of the occupant. *)
Lemma owned_in_victim ps pt i pgv j pg h :
  owned_in ps pt ->
  pt !! INVALID_PAGE_ID = None ->
  ps !! i = Some pgv -> pin_count_ pgv = 0 ->
  j ≠ i -> ps !! j = Some pg ->
  pt !! page_id_ pg = Some h -> Z.to_nat h = j ->
  page_id_ pgv ≠ page_id_ pg.
Proof.
  intros Hown Hinvalid Hv Hpin Hne Hj Hh Hhj Heq.
  destruct (Hown i pgv Hv) as [Hid|[(h' & Hh' & Hhi)|Hpos]]; [| |lia].
  - rewrite <- Heq, Hid in Hh. congruence.
  - rewrite <- Heq in Hh. assert (h' = h) as -> by congruence. congruence.
Qed.

Lemma frames_owned_new pool_size disk_manager replacer_k :
  frames_owned (BufferPoolManager.new pool_size disk_manager replacer_k).
Proof.
  intros i pg Hpg. left. simpl in Hpg.
  apply lookup_replicate in Hpg as [-> _]. done.
Qed.

Lemma frames_owned_NewPage order b res b' :
  pool_safe b -> frames_owned b ->
  order ≡ₚ map_to_list (LRUKReplacer.node_store_ (replacer_ b)) ->
  NewPage order b = Ret (res, b') -> frames_owned b'.
Proof.
  intros Hsafe Hown Hperm Hop.
  pose proof (NewPage_effect _ _ _ _ Hsafe Hperm Hop) as Heff.
  destruct res as [[page_id f]|]; [|by subst b'].
  destruct Heff as (pgv & Hv & Hpin & _ & _ & _ & Hps & _ & Hpt & _).
  destruct Hsafe as (((_ & Hinvalid & _) & _) & _).
  unfold frames_owned. rewrite Hps, Hpt.
  apply (owned_in_install _ (page_table_ b)); [done| |right; right; simpl; lia].
  intros j pg h Hne Hj Hh Hhj. apply emplace_keeps.
  rewrite lookup_delete_ne; [done|].
  by eapply (owned_in_victim (pages_ b) (page_table_ b) (Z.to_nat f) pgv j pg h).
Qed.

Lemma FetchPage_hit_effect order b page_id f res b' :
  pool_safe b ->
  page_table_ b !! page_id = Some f ->
  FetchPage order b page_id = Ret (res, b') ->
  exists pg,
    pages_ b !! Z.to_nat f = Some pg /\ page_id_ pg = page_id /\
    0 <= pin_count_ pg /\
    pages_ b' =
      <[Z.to_nat f := mkPage (data_ pg) (page_id_ pg) (pin_count_ pg + 1)
                             (is_dirty_ pg)]> (pages_ b) /\
    page_table_ b' = page_table_ b.
Proof.
  intros Hsafe Hpt Hop.
  destruct Hsafe as (((Hlatch & Hinvalid & _ & Hpins) & _) & HA & _).
  destruct (HA _ _ Hpt) as (pg & Hpg & Hid).
  exists pg. split; [done|]. split; [done|].
  split; [apply Hpins; by eapply list_elem_of_lookup_2|].
  destruct b as [sz ps pt fl r n d l]. simpl in *. subst l.
  unfold FetchPage, with_latch in Hop. simpl in Hop.
  destruct (page_id =? INVALID_PAGE_ID) eqn:Hinv.
  { apply Z.eqb_eq in Hinv. congruence. }
  rewrite Hpt in Hop. simpl in Hop.
  unfold page_at in Hop. simpl in Hop. destruct (f <? 0); [done|].
  rewrite Hpg in Hop. simpl in Hop.
  destruct (LRUKReplacer.RecordAccess r f) as [r1| |]; simpl in Hop; try done.
  destruct (LRUKReplacer.SetEvictable r1 f false) as [r2| |];
    simpl in Hop; try done.
  by injection Hop as _ <-.
Qed.

Lemma frames_owned_FetchPage order b page_id res b' :
  pool_safe b -> frames_owned b ->
  order ≡ₚ map_to_list (LRUKReplacer.node_store_ (replacer_ b)) ->
  FetchPage order b page_id = Ret (res, b') -> frames_owned b'.
Proof.
  intros Hsafe Hown Hperm Hop.
  destruct (page_table_ b !! page_id) as [f|] eqn:Hlookup.
  - destruct (FetchPage_hit_effect _ _ _ _ _ _ Hsafe Hlookup Hop)
      as (pg & Hpg & Hid & Hpin & Hps & Hpt).
    unfold frames_owned. rewrite Hps, Hpt.
    apply (owned_in_install _ (page_table_ b)); [done|auto|right; right; simpl; lia].
  - pose proof (FetchPage_miss_effect _ _ _ _ _ Hsafe Hperm Hlookup Hop) as Heff.
    destruct res as [f|]; [|by subst b'].
    destruct Heff as (pgv & Hv & Hpin & _ & Hps & Hpt & _).
    destruct Hsafe as (((_ & Hinvalid & _) & _) & _).
    unfold frames_owned. rewrite Hps, Hpt.
    apply (owned_in_install _ (page_table_ b)); [done| |right; right; simpl; lia].
    intros j pg h Hne Hj Hh Hhj.
    rewrite lookup_insert_ne by (intros ->; congruence).
    rewrite lookup_delete_ne; [done|].
    by eapply (owned_in_victim (pages_ b) (page_table_ b) (Z.to_nat f) pgv j pg h).
Qed.

Lemma frames_owned_UnpinPage b page_id is_dirty ok b' :
  pool_safe b -> frames_owned b ->
  UnpinPage b page_id is_dirty = Ret (ok, b') -> frames_owned b'.
Proof.
  intros Hsafe Hown Hop.
  destruct Hsafe as (((Hlatch & _) & _) & HA & _).
  destruct b as [sz ps pt fl r n d l]. simpl in *. subst l.
  unfold UnpinPage, with_latch in Hop. simpl in Hop.
  destruct (page_id =? INVALID_PAGE_ID); [by injection Hop as _ <-|].
  destruct (pt !! page_id) as [f|] eqn:Hpt; simpl in Hop;
    [|by injection Hop as _ <-].
  unfold page_at in Hop. simpl in Hop. destruct (f <? 0); [done|].
  destruct (HA _ _ Hpt) as (pg & Hpg & Hid). rewrite Hpg in Hop. simpl in Hop.
  destruct (pin_count_ pg <=? 0); simpl in Hop; [by injection Hop as _ <-|].
  destruct (if pin_count_ pg - 1 =? 0
            then LRUKReplacer.SetEvictable r f true else Ret r) as [r2| |];
    simpl in Hop; try done.
  injection Hop as _ <-. unfold frames_owned. simpl.
  apply (owned_in_install _ pt); [done|auto|]. right. left. simpl.
  exists f. by rewrite Hid.
Qed.

Lemma frames_owned_FlushPage b page_id ok b' :
  pool_safe b -> frames_owned b ->
  FlushPage b page_id = Ret (ok, b') -> frames_owned b'.
Proof.
  intros Hsafe Hown Hop.
  destruct Hsafe as (((Hlatch & _) & _) & HA & _).
  destruct b as [sz ps pt fl r n d l]. simpl in *. subst l.
  unfold FlushPage, with_latch in Hop. simpl in Hop.
  destruct (pt !! page_id) as [f|] eqn:Hpt; simpl in Hop;
    [|by injection Hop as _ <-].
  unfold page_at in Hop. simpl in Hop. destruct (f <? 0); [done|].
  destruct (HA _ _ Hpt) as (pg & Hpg & Hid). rewrite Hpg in Hop. simpl in Hop.
  injection Hop as _ <-. unfold frames_owned. simpl.
  apply (owned_in_install _ pt); [done|auto|]. right. left. simpl.
  exists f. by rewrite Hid.
Qed.

Lemma frames_owned_DeletePage b page_id ok b' :
  pool_safe b -> frames_owned b ->
  DeletePage b page_id = Ret (ok, b') -> frames_owned b'.
Proof.
  intros Hsafe Hown Hop.
  destruct Hsafe as (((Hlatch & _) & _) & HA & _).
  destruct b as [sz ps pt fl r n d l]. simpl in *. subst l.
  unfold DeletePage, with_latch in Hop. simpl in Hop.
  destruct (pt !! page_id) as [f|] eqn:Hpt; simpl in Hop;
    [|by injection Hop as _ <-].
  unfold page_at in Hop. simpl in Hop. destruct (f <? 0); [done|].
  destruct (HA _ _ Hpt) as (pg & Hpg & Hid). rewrite Hpg in Hop. simpl in Hop.
  destruct (0 <? pin_count_ pg); simpl in Hop; [by injection Hop as _ <-|].
  destruct (LRUKReplacer.Remove r f) as [r2| |]; simpl in Hop; try done.
  injection Hop as _ <-. unfold frames_owned. simpl.
  apply (owned_in_install _ pt); [done| |by left].
  intros j pg' h Hne Hj Hh Hhj. rewrite lookup_delete_ne; [done|].
  intros Heq. rewrite <- Heq in Hh. congruence.
Qed.

Lemma pool_reachable_owned pool_size replacer_k b :
  0 <= pool_size < 2 ^ 31 ->
  pool_reachable pool_size replacer_k b ->
  frames_owned b.
Proof.
  intros Hsz Hb.
  induction Hb as [d|order b res b' Hb IH Hperm Hop|order b p res b' Hb IH Hperm Hop
                  |b p dirty ok b' Hb IH Hop|b p ok b' Hb IH Hop|b p ok b' Hb IH Hop];
    [apply frames_owned_new|..];
    pose proof (pool_reachable_safe _ _ _ Hsz Hb) as Hsafe.
  - by eapply frames_owned_NewPage.
  - by eapply frames_owned_FetchPage.
  - by eapply frames_owned_UnpinPage.
  - by eapply frames_owned_FlushPage.
  - by eapply frames_owned_DeletePage.
Qed.

(** X25. A pinned page stays where it is.  In every state a pool reaches,
    when a resident page is pinned, no [NewPage] and no [FetchPage] of
    another page takes its frame: afterwards the page table still names
    the frame for the page and the frame is as it was (bytes, page id,
    pin count and dirty flag). *)
Theorem pinned_page_stays pool_size replacer_k order b page_id f pg :
  0 <= pool_size < 2 ^ 31 ->
  pool_reachable pool_size replacer_k b ->
  order ≡ₚ map_to_list (LRUKReplacer.node_store_ (replacer_ b)) ->
  page_table_ b !! page_id = Some f ->
  pages_ b !! Z.to_nat f = Some pg ->
  0 < pin_count_ pg ->
  (forall res b', NewPage order b = Ret (res, b') ->
     page_table_ b' !! page_id = Some f /\ pages_ b' !! Z.to_nat f = Some pg) /\
  (forall other res b', other ≠ page_id ->
     FetchPage order b other = Ret (res, b') ->
     page_table_ b' !! page_id = Some f /\ pages_ b' !! Z.to_nat f = Some pg).
Proof.
  intros Hsz Hb Hperm Hpt Hpg Hpinned.
  pose proof (pool_reachable_safe _ _ _ Hsz Hb) as Hsafe.
  pose proof (pool_reachable_owned _ _ _ Hsz Hb) as Hown.
  assert (page_table_ b !! INVALID_PAGE_ID = None) as Hinvalid
    by (by destruct Hsafe as (((_ & ? & _) & _) & _)).
  assert (page_id_ pg = page_id) as Hid.
  { destruct Hsafe as (_ & HA & _). destruct (HA _ _ Hpt) as (pg' & Hpg' & Hid).
    congruence. }
  assert (forall g pgv, pages_ b !! Z.to_nat g = Some pgv -> pin_count_ pgv = 0 ->
            Z.to_nat g ≠ Z.to_nat f /\ page_id_ pgv ≠ page_id) as Hvictim.
  { intros g pgv Hv Hzero.
    assert (Z.to_nat f ≠ Z.to_nat g) as Hne.
    { intros Heq. rewrite <- Heq in Hv. assert (pgv = pg) as -> by congruence. lia. }
    split; [done|]. rewrite <- Hid.
    eapply (owned_in_victim (pages_ b) (page_table_ b) (Z.to_nat g) pgv
              (Z.to_nat f) pg f); try done. by rewrite Hid. }
  split.
  - intros res b' Hop.
    pose proof (NewPage_effect _ _ _ _ Hsafe Hperm Hop) as Heff.
    destruct res as [[new_id g]|]; [|by subst b'].
    destruct Heff as (pgv & Hv & Hzero & _ & _ & _ & Hps & _ & Htable & _).
    destruct (Hvictim _ _ Hv Hzero) as [Hne Hidne].
    rewrite Hps, Htable. split; [|by rewrite list_lookup_insert_ne].
    apply emplace_keeps. by rewrite lookup_delete_ne.
  - intros other res b' Hother Hop.
    destruct (page_table_ b !! other) as [g|] eqn:Hlookup.
    + destruct (FetchPage_hit_effect _ _ _ _ _ _ Hsafe Hlookup Hop)
        as (pgg & Hg & Hidg & _ & Hps & Htable).
      rewrite Hps, Htable. split; [done|].
      rewrite list_lookup_insert_ne; [done|]. intros Heq.
      rewrite Heq in Hg. congruence.
    + pose proof (FetchPage_miss_effect _ _ _ _ _ Hsafe Hperm Hlookup Hop) as Heff.
      destruct res as [g|]; [|by subst b'].
      destruct Heff as (pgv & Hv & Hzero & _ & Hps & Htable & _).
      destruct (Hvictim _ _ Hv Hzero) as [Hne Hidne].
      rewrite Hps, Htable. split; [|by rewrite list_lookup_insert_ne].
      rewrite lookup_insert_ne by done. by rewrite lookup_delete_ne.
Qed.

Lemma pinned_page_stays_witness :
  (forall res b',
     NewPage (map_to_list (LRUKReplacer.node_store_ (replacer_ pool_full)))
       pool_full = Ret (res, b') ->
     page_table_ b' !! 0 = Some 0 /\
     pages_ b' !! Z.to_nat 0 = Some (mkPage zeroes 0 1 false)) /\
  (forall other res b', other ≠ 0 ->
     FetchPage (map_to_list (LRUKReplacer.node_store_ (replacer_ pool_full)))
       pool_full other = Ret (res, b') ->
     page_table_ b' !! 0 = Some 0 /\
     pages_ b' !! Z.to_nat 0 = Some (mkPage zeroes 0 1 false)).
Proof.
  apply (pinned_page_stays 1 2 _ pool_full 0 0 (mkPage zeroes 0 1 false)
           pool_size_1 pool_full_reachable).
  - reflexivity.
  - reflexivity.
  - reflexivity.
  - simpl. lia.
Defined.

(** X26. [FlushAllPages] writes nothing.  In every state a pool reaches
    it returns, with the pool as it was, when no page is resident; with a
    resident page it locks [latch_] and calls [FlushPage], which locks
    [latch_] again, before any page is written. *)
Theorem FlushAllPages_outcome pool_size replacer_k order b :
  0 <= pool_size < 2 ^ 31 ->
  pool_reachable pool_size replacer_k b ->
  order ≡ₚ map_to_list (page_table_ b) ->
  FlushAllPages order b =
    if decide (page_table_ b = ∅) then Ret (tt, b) else Fault MutexRelock.
Proof.
  intros Hsz Hb Hperm.
  destruct (pool_reachable_well_formed _ _ _ Hsz Hb) as (Hlatch & _).
  destruct (decide (page_table_ b = ∅)) as [Hempty|Hresident].
  - rewrite Hempty, map_to_list_empty in Hperm.
    apply Permutation_nil_r in Hperm as ->.
    unfold FlushAllPages, with_latch. rewrite Hlatch. simpl.
    by rewrite latch_round_trip.
  - apply FlushAllPages_relocks; [done|]. intros ->.
    apply Hresident, map_to_list_empty_iff. by apply Permutation_nil.
Qed.

Lemma FlushAllPages_outcome_witness :
  FlushAllPages [(0, 1)] pool_one_page_state =
    if decide (page_table_ pool_one_page_state = ∅)
    then Ret (tt, pool_one_page_state) else Fault MutexRelock.
Proof.
  apply (FlushAllPages_outcome 2 2 [(0, 1)] pool_one_page_state pool_size_2
           pool_one_page_reachable).
  vm_compute. reflexivity.
Defined.

End PoolSafety.
